(** * URL extraction from a directory of text files

    A shallow embedding of [scripts/extract_urls_from_dir.py]: the two URL
    patterns, the scan of a directory, the occurrence index (a [dict] from
    URL to the [set] of files it was found in) and the two output formats,
    followed by the properties of the extraction engine. *)

From Stdlib Require Import NArith List String Ascii Lia.
From Stdlib.Strings Require Byte.
From stdpp Require Import base option list gmap sorting.

Set Default Proof Using "Type".

(** ** Text

    A Python [str] is a sequence of Unicode code points. *)

Definition str := list N.

(** [py] reads an ASCII literal as a [str]. *)
Definition py (s : string) : str := map N_of_ascii (list_ascii_of_string s).
Arguments py s%_string.

Module Ch.
Definition nl : N := 0x0a.
Definition cr : N := 0x0d.
Definition dquote : N := 0x22.
Definition squote : N := 0x27.
Definition minus : N := 0x2d.
Definition dot : N := 0x2e.
Definition slash : N := 0x2f.
Definition lt : N := 0x3c.
Definition gt : N := 0x3e.
Definition backslash : N := 0x5c.
End Ch.

(** [str.isspace] on one code point, which is what [\s] tests in a [str]
    pattern: the white-space table of CPython. *)
Definition is_space (c : N) : bool :=
  ((0x09 <=? c) && (c <=? 0x0d) || (0x1c <=? c) && (c <=? 0x20)
   || (c =? 0x85) || (c =? 0xa0) || (c =? 0x1680)
   || (0x2000 <=? c) && (c <=? 0x200a)
   || (c =? 0x2028) || (c =? 0x2029) || (c =? 0x202f) || (c =? 0x205f)
   || (c =? 0x3000))%N.

Definition is_lower (c : N) : bool := ((0x61 <=? c) && (c <=? 0x7a))%N.
Definition is_upper (c : N) : bool := ((0x41 <=? c) && (c <=? 0x5a))%N.
Definition is_digit (c : N) : bool := ((0x30 <=? c) && (c <=? 0x39))%N.

(** ** Comparison of strings and [sorted]

    Python compares two [str] code point by code point; a proper prefix is
    smaller. *)

Fixpoint str_leb (a b : str) : bool :=
  match a, b with
  | [], _ => true
  | _ :: _, [] => false
  | x :: a', y :: b' => ((x <? y) || (x =? y) && str_leb a' b')%N
  end.

Definition str_le (a b : str) : Prop := str_leb a b = true.
Definition str_lt (a b : str) : Prop := str_le a b ∧ a ≠ b.

Global Instance str_le_dec a b : Decision (str_le a b).
Proof. unfold str_le. apply _. Defined.

(** [sorted(xs)] on a list of strings. *)
Definition sorted (xs : list str) : list str := merge_sort str_le xs.

(** ** Regular expressions

    The fragment of Python's [re] syntax the two patterns are written in:
    single characters and character classes, concatenation, alternation
    [a|b], the greedy option [a?] and the greedy repetition of a character
    class ([c+], [c*], [c{m,n}]). *)

Inductive re : Type :=
  | Eps
  | Chr (p : N → bool)
  | Seq (r1 r2 : re)
  | Alt (r1 r2 : re)
  | Opt (r : re)
  | Rep (p : N → bool) (lo : nat) (hi : option nat).

Definition may_repeat (hi : option nat) : bool :=
  match hi with Some O => false | _ => true end.

(** Greedy repetition with backtracking: take one more character while the
    class allows it, and give characters back one by one when the rest of the
    pattern, the continuation [k], fails. *)
Fixpoint rep {A} (p : N → bool) (lo : nat) (hi : option nat) (s : str)
    (k : str → option A) : option A :=
  let stop := match lo with O => k s | S _ => None end in
  match s with
  | c :: t =>
      if p c && may_repeat hi then
        match rep p (pred lo) (pred <$> hi) t k with
        | Some x => Some x
        | None => stop
        end
      else stop
  | [] => stop
  end.

(** The backtracking matcher of [re]: [bt r s k] matches [r] at the start of
    [s] and hands the rest of the text to [k]; alternatives are tried in the
    order of the pattern and the first success is the result. *)
Fixpoint bt {A} (r : re) (s : str) (k : str → option A) : option A :=
  match r with
  | Eps => k s
  | Chr p =>
      match s with
      | c :: t => if p c then k t else None
      | [] => None
      end
  | Seq r1 r2 => bt r1 s (λ t, bt r2 t k)
  | Alt r1 r2 =>
      match bt r1 s k with
      | Some x => Some x
      | None => bt r2 s k
      end
  | Opt r1 =>
      match bt r1 s k with
      | Some x => Some x
      | None => k s
      end
  | Rep p lo hi => rep p lo hi s k
  end.

(** [pattern.match(s)]: the matched prefix of [s], if any. *)
Definition match_at (r : re) (s : str) : option str :=
  (λ t, take (length s - length t) s) <$> bt r s Some.

(** The scan of [pattern.findall(s)] for a pattern without groups: the
    matches from left to right, each search starting where the previous match
    ended. [skip] counts the characters still covered by the last match. Neither
    pattern of the script matches the empty string, and an empty match is
    stepped over like a failure. *)
Fixpoint scan (r : re) (s : str) (skip : nat) : list str :=
  match s with
  | [] => []
  | _ :: t =>
      match skip with
      | S n => scan r t n
      | O =>
          match match_at r s with
          | Some ((_ :: _) as w) => w :: scan r t (pred (length w))
          | _ => scan r t 0
          end
      end
  end.

Definition findall (r : re) (s : str) : list str := scan r s 0.

(** The language of a pattern: the strings it can match in full. *)
Fixpoint lang (r : re) (w : str) : Prop :=
  match r with
  | Eps => w = []
  | Chr p => ∃ c, w = [c] ∧ p c = true
  | Seq r1 r2 => ∃ w1 w2, w = w1 ++ w2 ∧ lang r1 w1 ∧ lang r2 w2
  | Alt r1 r2 => lang r1 w ∨ lang r2 w
  | Opt r1 => w = [] ∨ lang r1 w
  | Rep p lo hi =>
      Forall (λ c, p c = true) w ∧ lo ≤ length w
      ∧ match hi with Some h => length w ≤ h | None => True end
  end.

(** ** The two patterns

    Both are compiled with [re.IGNORECASE]. For a [str] pattern a cased
    literal then matches every character whose lower case is the literal's,
    and the characters [re] treats as its case equivalents: the long s for
    [s], the Kelvin sign for [k], the dotted capital I and the dotless i for
    [i]. *)

Definition ic (lo : N) (c : N) : bool :=
  ((c =? lo) || is_lower lo && (c =? lo - 0x20)
   || (lo =? 0x73) && (c =? 0x17f)
   || (lo =? 0x6b) && (c =? 0x212a)
   || (lo =? 0x69) && ((c =? 0x130) || (c =? 0x131)))%N.

(** A literal piece of a pattern, written in lower case. *)
Definition lit (s : string) : re :=
  foldr (λ c r, Seq (Chr (ic c)) r) Eps (py s).
Arguments lit s%_string.

(** [[A-Za-z]] under [re.IGNORECASE]. *)
Definition letter (c : N) : bool :=
  (is_lower c || is_upper c
   || (c =? 0x130) || (c =? 0x131) || (c =? 0x17f) || (c =? 0x212a))%N.

(** [[A-Za-z0-9.-]] under [re.IGNORECASE]. *)
Definition domain_char (c : N) : bool :=
  (letter c || is_digit c || (c =? Ch.dot) || (c =? Ch.minus))%N.

(** The class of [STRICT_BODY] and [LENIENT_PATH]: any character but white
    space, the double quote, the single quote and the two angle brackets. *)
Definition body_char (c : N) : bool :=
  negb (is_space c || (c =? Ch.dquote) || (c =? Ch.squote)
        || (c =? Ch.lt) || (c =? Ch.gt))%N.

(** [(?:https?://|www\.)] *)
Definition STRICT_SCHEME : re :=
  Alt (Seq (lit "http") (Seq (Opt (Chr (ic 0x73))) (lit "://"))) (lit "www.").

(** One or more characters of the class above. *)
Definition STRICT_BODY : re := Rep body_char 1 None.

Definition URL_REGEX : re := Seq STRICT_SCHEME STRICT_BODY.

(** [(?:https?://|www\.|ftp://)?] *)
Definition LENIENT_SCHEME : re :=
  Opt (Alt (Seq (lit "http") (Seq (Opt (Chr (ic 0x73))) (lit "://")))
        (Alt (lit "www.") (lit "ftp://"))).

(** [[A-Za-z0-9.-]+\.[A-Za-z]{2,6}] *)
Definition LENIENT_DOMAIN : re :=
  Seq (Rep domain_char 1 None) (Seq (Chr (ic Ch.dot)) (Rep letter 2 (Some 6))).

(** An optional slash followed by any number of characters of that class. *)
Definition LENIENT_PATH : re :=
  Opt (Seq (Chr (ic Ch.slash)) (Rep body_char 0 None)).

Definition LENIENT_URL_REGEX : re :=
  Seq LENIENT_SCHEME (Seq LENIENT_DOMAIN LENIENT_PATH).

Definition matchStrict (text : str) : list str := findall URL_REGEX text.
Definition matchLenient (text : str) : list str := findall LENIENT_URL_REGEX text.

(** ** Reading a file

    The file is opened in text mode with the encoding utf-8 and the error
    handler ignore, and read in full: its bytes are decoded as UTF-8, a
    malformed sequence is handled by the error handler, and line ends are
    translated (universal newlines). *)

Inductive errors : Type := Ignore | Replace.

(** What a handler puts in the decoded text for one malformed sequence. *)
Definition on_error (h : errors) : str :=
  match h with Ignore => [] | Replace => [0xfffd%N] end.

Definition is_continuation (b : N) : bool := ((0x80 <=? b) && (b <? 0xc0))%N.

(** The UTF-8 decoder of CPython. A malformed sequence is the lead byte with
    the continuation bytes accepted so far: decoding resumes at the first byte
    that does not fit. Over-long forms, surrogates and code points above
    U+10FFFF are rejected at their second byte. *)
Fixpoint utf8_decode (h : errors) (bs : list N) : str :=
  match bs with
  | [] => []
  | b0 :: r0 =>
      if (b0 <? 0x80)%N then b0 :: utf8_decode h r0
      else if (b0 <? 0xc2)%N then on_error h ++ utf8_decode h r0
      else if (b0 <? 0xe0)%N then
        match r0 with
        | [] => on_error h
        | b1 :: r1 =>
            if is_continuation b1
            then ((b0 - 0xc0) * 0x40 + (b1 - 0x80))%N :: utf8_decode h r1
            else on_error h ++ utf8_decode h r0
        end
      else if (b0 <? 0xf0)%N then
        match r0 with
        | [] => on_error h
        | b1 :: r1 =>
            if (negb (is_continuation b1) || (b0 =? 0xe0) && (b1 <? 0xa0)
                || (b0 =? 0xed) && (0xa0 <=? b1))%N
            then on_error h ++ utf8_decode h r0
            else
              match r1 with
              | [] => on_error h
              | b2 :: r2 =>
                  if is_continuation b2
                  then ((b0 - 0xe0) * 0x1000 + (b1 - 0x80) * 0x40
                        + (b2 - 0x80))%N :: utf8_decode h r2
                  else on_error h ++ utf8_decode h r1
              end
        end
      else if (b0 <? 0xf5)%N then
        match r0 with
        | [] => on_error h
        | b1 :: r1 =>
            if (negb (is_continuation b1) || (b0 =? 0xf0) && (b1 <? 0x90)
                || (b0 =? 0xf4) && (0x90 <=? b1))%N
            then on_error h ++ utf8_decode h r0
            else
              match r1 with
              | [] => on_error h
              | b2 :: r2 =>
                  if negb (is_continuation b2)
                  then on_error h ++ utf8_decode h r1
                  else
                    match r2 with
                    | [] => on_error h
                    | b3 :: r3 =>
                        if is_continuation b3
                        then ((b0 - 0xf0) * 0x40000 + (b1 - 0x80) * 0x1000
                              + (b2 - 0x80) * 0x40 + (b3 - 0x80))%N
                             :: utf8_decode h r3
                        else on_error h ++ utf8_decode h r2
                    end
              end
        end
      else on_error h ++ utf8_decode h r0
  end.

(** Universal newlines on reading: a carriage return, alone or followed by a
    line feed, is read as one line feed. *)
Fixpoint universal_newlines (s : str) : str :=
  match s with
  | [] => []
  | c :: t =>
      if (c =? Ch.cr)%N then
        Ch.nl :: match t with
                 | c' :: t' =>
                     if (c' =? Ch.nl)%N then universal_newlines t'
                     else universal_newlines t
                 | [] => []
                 end
      else c :: universal_newlines t
  end.

Definition decode (h : errors) (bs : list Byte.byte) : str :=
  universal_newlines (utf8_decode h (map Byte.to_N bs)).

(** The content the script reads from a file holding the bytes [bs]. *)
Definition read_text (bs : list Byte.byte) : str := decode Ignore bs.

(** The UTF-8 encoding of a text, for the statements about decoding. *)
Definition utf8_encode_char (c : N) : list N :=
  (if c <? 0x80 then [c]
   else if c <? 0x800 then [0xc0 + c / 0x40; 0x80 + c mod 0x40]
   else if c <? 0x10000 then
     [0xe0 + c / 0x1000; 0x80 + (c / 0x40) mod 0x40; 0x80 + c mod 0x40]
   else
     [0xf0 + c / 0x40000; 0x80 + (c / 0x1000) mod 0x40;
      0x80 + (c / 0x40) mod 0x40; 0x80 + c mod 0x40])%N.

Definition utf8_encode (s : str) : list N := flat_map utf8_encode_char s.

(** A Unicode scalar value: a code point that is not a surrogate. *)
Definition scalar (c : N) : Prop := (c < 0xd800 ∨ 0xe000 ≤ c ∧ c < 0x110000)%N.

(** ** File names

    [str.lower]: exact on ASCII and on the two other characters whose lower
    case holds an ASCII letter (the dotted capital I and the Kelvin sign).
    Every other character lowers to characters outside ASCII and is kept as it
    is here, which no comparison with an ASCII suffix can tell apart. *)
Definition lower1 (c : N) : str :=
  if is_upper c then [(c + 0x20)%N]
  else if (c =? 0x130)%N then [0x69%N; 0x307%N]
  else if (c =? 0x212a)%N then [0x6b%N]
  else [c].

Definition lower (s : str) : str := flat_map lower1 s.

Definition endswith (s suf : str) : bool := bool_decide (suf `suffix_of` s).

Definition startswith (s pre : str) : bool := bool_decide (pre `prefix_of` s).

(** [os.path.join] with two arguments (POSIX). *)
Definition path_join (a b : str) : str :=
  if startswith b [Ch.slash] then b
  else if bool_decide (a = []) || endswith a [Ch.slash] then a ++ b
  else a ++ Ch.slash :: b.

(** ** The occurrence index

    [occurrences] is a [dict] from URL to a [set] of file paths. A [dict]
    keeps its keys in the order of their first insertion, and the JSON output
    iterates it in that order: it is an association list here, with the sets
    as [gset]. *)

Definition dict := list (str * gset str).

Definition keys (occ : dict) : list str := occ.*1.

(** [occurrences.get(u)] *)
Fixpoint get (occ : dict) (u : str) : option (gset str) :=
  match occ with
  | [] => None
  | (k, files) :: rest => if decide (k = u) then Some files else get rest u
  end.

(** [occurrences.setdefault(u, set()).add(file_path)] *)
Fixpoint setdefault_add (occ : dict) (u file_path : str) : dict :=
  match occ with
  | [] => [(u, {[file_path]})]
  | (k, files) :: rest =>
      if decide (k = u) then (k, files ∪ {[file_path]}) :: rest
      else (k, files) :: setdefault_add rest u file_path
  end.

(** The loop over [found_urls] for one file. *)
Definition add_found (file_path : str) (found_urls : list str) (occ : dict)
    : dict :=
  foldl (λ occ u, setdefault_add occ u file_path) occ found_urls.

(** The indexer on (file identifier, content) pairs, for any matcher. *)
Definition build_index (find : str → list str) (files : list (str * str))
    : dict :=
  foldl (λ occ fc, add_found fc.1 (find fc.2) occ) [] files.

(** ** The directory

    What [os.listdir] and [open] show of the input directory: the names in
    the order [os.listdir] returns them and, for each name, either the
    [OSError] that opening or reading it raises or the bytes it holds. *)

Definition OSError := str.

Definition directory := list (str * (OSError + list Byte.byte)).

(** What a run of the script shows: the messages it prints and, when writing
    the output raises [UnicodeEncodeError], which nothing catches, the
    traceback that ends the run. *)
Inductive message : Type :=
  | CouldNotRead (file_path : str) (e : OSError)
  | ExtractedOccurrences (n : nat) (output_file : str)
  | ExtractedUnique (n : nat) (output_file : str)
  | UnicodeEncodeError.

Definition INPUT_DIR : str := py "texts".
Definition OUTPUT_FILE : str := py "extracted_urls.txt".

(** One turn of the loop over [os.listdir(input_dir)], on the index and the
    messages printed so far. *)
Definition scan_entry (regex : re) (input_dir : str)
    (st : dict * list message) (ent : str * (OSError + list Byte.byte))
    : dict * list message :=
  let '(occurrences, out) := st in
  let '(filename, opened) := ent in
  if endswith (lower filename) (py ".txt") then
    let file_path := path_join input_dir filename in
    match opened with
    | inr bs =>
        let content := read_text bs in
        let found_urls := findall regex content in
        (add_found file_path found_urls occurrences, out)
    | inl e => (occurrences, out ++ [CouldNotRead file_path e])
    end
  else st.

Definition scan_directory (regex : re) (input_dir : str) (d : directory)
    : dict * list message :=
  foldl (scan_entry regex input_dir) ([], []) d.

(** ** Output *)

(** The list [data] of the JSON branch, a record being the pair of its
    [url] and [file] fields. *)
Definition occurrence_table (occ : dict) : list (str * str) :=
  flat_map (λ kv, map (λ f, (kv.1, f)) (sorted (elements kv.2))) occ.

(** The text written by the plain branch. *)
Definition unique_list (occ : dict) : str :=
  flat_map (λ url, url ++ [Ch.nl]) (sorted (keys occ)).

(** [json.dump(data, out, ensure_ascii=False, indent=2)] on a list of
    objects with the two string fields [url] and [file]. *)
Definition hex_digit (n : N) : N := (if n <? 10 then 0x30 + n else 0x57 + n)%N.

Definition json_escape (c : N) : str :=
  (if c =? Ch.dquote then [Ch.backslash; Ch.dquote]
   else if c =? Ch.backslash then [Ch.backslash; Ch.backslash]
   else if c =? 0x08 then Ch.backslash :: py "b"
   else if c =? 0x0c then Ch.backslash :: py "f"
   else if c =? 0x0a then Ch.backslash :: py "n"
   else if c =? 0x0d then Ch.backslash :: py "r"
   else if c =? 0x09 then Ch.backslash :: py "t"
   else if c <? 0x20 then
     Ch.backslash :: py "u00" ++ [hex_digit (c / 16); hex_digit (c mod 16)]
   else [c])%N.

Definition json_string (s : str) : str :=
  Ch.dquote :: flat_map json_escape s ++ [Ch.dquote].

Definition json_record (r : str * str) : str :=
  py "  {" ++ Ch.nl :: py "    " ++ json_string (py "url") ++ py ": "
  ++ json_string r.1 ++ py "," ++ Ch.nl :: py "    "
  ++ json_string (py "file") ++ py ": " ++ json_string r.2
  ++ Ch.nl :: py "  }".

Fixpoint json_items (data : list (str * str)) : str :=
  match data with
  | [] => []
  | [r] => json_record r
  | r :: rest => json_record r ++ py "," ++ Ch.nl :: json_items rest
  end.

Definition json_dump (data : list (str * str)) : str :=
  match data with
  | [] => py "[]"
  | _ => py "[" ++ Ch.nl :: json_items data ++ Ch.nl :: py "]"
  end.

(** ** Writing the output file

    The output file is opened with the encoding utf-8 and the default error
    handler, which is strict: each call of [write] encodes its argument at
    once and raises [UnicodeEncodeError] when the argument holds a code point
    that UTF-8 cannot encode, a surrogate. [os.listdir] gives such code points
    for the bytes of a file name that is not UTF-8. The exception is not
    caught: the [with] statement closes the file, which keeps what the calls
    before wrote, and the count is not printed. *)
Definition encodable (chunk : str) : bool :=
  forallb (λ c, (c <? 0xd800) || (0xe000 <=? c) && (c <? 0x110000))%N chunk.

(** The text in the file after [write] was called on the chunks in turn, and
    whether every call returned. *)
Fixpoint write_chunks (chunks : list str) : str * bool :=
  match chunks with
  | [] => ([], true)
  | chunk :: rest =>
      if encodable chunk
      then let '(text, ok) := write_chunks rest in (chunk ++ text, ok)
      else ([], false)
  end.

(** [json.dump] calls [write] on the chunks of [JSONEncoder.iterencode] one by
    one. With [indent=2] these are, for a list of objects with two string
    fields: the opening bracket with the first indentation; for each object
    the brace, the indentation, and for each field the key, the colon and
    the value, with the separator between the fields; the separator between
    the objects; and at the end the line feed and the closing bracket. *)
Definition record_chunks (r : str * str) : list str :=
  [py "{"; Ch.nl :: py "    ";
   json_string (py "url"); py ": "; json_string r.1;
   py "," ++ Ch.nl :: py "    ";
   json_string (py "file"); py ": "; json_string r.2;
   Ch.nl :: py "  "; py "}"].

Fixpoint items_chunks (first : bool) (data : list (str * str)) : list str :=
  match data with
  | [] => []
  | r :: rest =>
      (if first then py "[" ++ Ch.nl :: py "  " else py "," ++ Ch.nl :: py "  ")
      :: record_chunks r ++ items_chunks false rest
  end.

Definition json_chunks (data : list (str * str)) : list str :=
  match data with
  | [] => [py "[]"]
  | _ => items_chunks true data ++ [[Ch.nl]; py "]"]
  end.

(** The calls of [out.write] of the plain branch: each URL with a line
    feed. *)
Definition unique_chunks (occ : dict) : list str :=
  map (λ url, url ++ [Ch.nl]) (sorted (keys occ)).

(** ** The script

    [extract_urls_from_directory] on a directory that can be listed and an
    output file that can be opened: the messages of the run and the text that
    is in [output_file] after it. *)
Definition extract_urls_from_directory (d : directory)
    (input_dir output_file : str) (use_lenient : bool)
    : list message * str :=
  let regex := if use_lenient then LENIENT_URL_REGEX else URL_REGEX in
  let '(occurrences, out) := scan_directory regex input_dir d in
  if endswith (lower output_file) (py ".json") then
    let data := occurrence_table occurrences in
    match write_chunks (json_chunks data) with
    | (text, true) =>
        (out ++ [ExtractedOccurrences (length data) output_file], text)
    | (text, false) => (out ++ [UnicodeEncodeError], text)
    end
  else
    match write_chunks (unique_chunks occurrences) with
    | (text, true) =>
        (out ++ [ExtractedUnique (length occurrences) output_file], text)
    | (text, false) => (out ++ [UnicodeEncodeError], text)
    end.

(** The bytes of an ASCII literal, for file contents in examples. *)
Definition bytes (s : string) : list Byte.byte :=
  map byte_of_ascii (list_ascii_of_string s).
Arguments bytes s%_string.

(** ** The vocabulary of the properties *)

(** The files in which [find] reports the URL [u]. *)
Definition found_in (find : str → list str) (files : list (str * str))
    (u file_path : str) : Prop :=
  ∃ content, (file_path, content) ∈ files ∧ u ∈ find content.

(** An index with one URL found in two files and one URL found in one. *)
Definition two_files_one_url : dict :=
  [(py "http://a.com", {[py "texts/f1.txt"]} ∪ {[py "texts/f2.txt"]});
   (py "http://b.com", {[py "texts/f1.txt"]})].

(** The lines of a text whose lines all end with a line feed; [None] when the
    last line is not terminated. *)
Fixpoint lines (s : str) : option (list str) :=
  match s with
  | [] => Some []
  | c :: t =>
      if (c =? Ch.nl)%N then cons [] <$> lines t
      else
        match lines t with
        | Some (l :: ls) => Some ((c :: l) :: ls)
        | _ => None
        end
  end.

(** The test of the loop on a file name. *)
Definition is_text_file (filename : str) : bool :=
  endswith (lower filename) (py ".txt").

(** The (path, content) pairs of the text files of a directory that can be
    read, in the order of the listing. *)
Definition readable (input_dir : str) (d : directory) : list (str * str) :=
  omap (λ ent,
          match ent.2 with
          | inr bs =>
              if is_text_file ent.1
              then Some (path_join input_dir ent.1, read_text bs)
              else None
          | inl _ => None
          end) d.

(** The message for each text file of a directory that cannot be read. *)
Definition unreadable (input_dir : str) (d : directory) : list message :=
  omap (λ ent,
          match ent.2 with
          | inl e =>
              if is_text_file ent.1
              then Some (CouldNotRead (path_join input_dir ent.1) e)
              else None
          | inr _ => None
          end) d.

(** Records are compared by URL first and by file next. *)
Definition record_le (r1 r2 : str * str) : Prop :=
  str_lt r1.1 r2.1 ∨ r1.1 = r2.1 ∧ str_le r1.2 r2.2.

(** [c] is the ASCII character [x], itself in lower case, in either case. *)
Definition same_ci (x c : N) : bool :=
  ((c =? x) || is_lower x && (c =? x - 0x20))%N.

(** [s] ends with the lower-case ASCII word [w], in any mix of cases. *)
Definition ends_with_ci (s w : str) : Prop :=
  ∃ stem t, s = stem ++ t ∧ Forall2 (λ x c, same_ci x c = true) w t.

(** The ASCII characters that only their own two cases lower to. *)
Definition plain (x : N) : Prop :=
  (x < 0x80 ∧ is_upper x = false ∧ x ≠ 0x69 ∧ x ≠ 0x6b)%N.

(** The pattern the flag [use_lenient] selects. *)
Definition pattern_of (use_lenient : bool) : re :=
  if use_lenient then LENIENT_URL_REGEX else URL_REGEX.

(** [n] repetitions are within the upper bound [hi]. *)
Definition within (hi : option nat) (n : nat) : Prop :=
  match hi with Some h => n ≤ h | None => True end.

(** [t] is the literal [w], written in lower case, in any mix of cases. *)
Definition eq_ci (w t : str) : Prop := Forall2 (λ x c, ic x c = true) w t.

(** The explicit prefixes of the strict pattern and those of the lenient
    one. *)
Definition strict_prefixes : list str :=
  [py "http://"; py "https://"; py "www."].

Definition lenient_prefixes : list str :=
  [py "http://"; py "https://"; py "www."; py "ftp://"].

(** [sch] is one of the prefixes [ws], in any mix of cases. *)
Definition prefix_among (ws : list str) (sch : str) : Prop :=
  ∃ w, w ∈ ws ∧ eq_ci w sch.

(** A top-level label: two to six letters. *)
Definition tld_part (tld : str) : Prop :=
  2 ≤ length tld ≤ 6 ∧ Forall (λ c, letter c = true) tld.

(** An optional path: nothing, or a slash and body characters. *)
Definition path_part (path : str) : Prop :=
  path = [] ∨ ∃ p, path = Ch.slash :: p ∧ Forall (λ c, body_char c = true) p.

(** The shape the lenient pattern gives its matches: an optional prefix, a
    run of one or more letters, digits, dots and hyphens, a dot, a top-level
    label and an optional path. *)
Definition lenient_shape (m : str) : Prop :=
  ∃ sch dom tld path,
    m = sch ++ dom ++ Ch.dot :: tld ++ path
    ∧ (sch = [] ∨ prefix_among lenient_prefixes sch)
    ∧ dom ≠ [] ∧ Forall (λ c, domain_char c = true) dom
    ∧ tld_part tld ∧ path_part path.

(** The shape the specification describes: the domain is made of labels,
    each of one or more letters, digits and hyphens, each followed by a
    dot. *)
Definition label_char (c : N) : bool :=
  (letter c || is_digit c || (c =? Ch.minus))%N.

Definition label (l : str) : Prop :=
  l ≠ [] ∧ Forall (λ c, label_char c = true) l.

Definition labelled_shape (m : str) : Prop :=
  ∃ sch labels tld path,
    m = sch ++ flat_map (λ l, l ++ [Ch.dot]) labels ++ tld ++ path
    ∧ (sch = [] ∨ prefix_among lenient_prefixes sch)
    ∧ labels ≠ [] ∧ Forall label labels
    ∧ tld_part tld ∧ path_part path.

(** The shape the strict pattern gives its matches. *)
Definition strict_shape (m : str) : Prop :=
  ∃ sch body,
    m = sch ++ body ∧ prefix_among strict_prefixes sch
    ∧ body ≠ [] ∧ Forall (λ c, body_char c = true) body.

(** The text [rest] does not go on with a character of the class [p]. *)
Definition stops (p : N → bool) (rest : str) : Prop :=
  match rest with [] => True | c :: _ => p c = false end.


(** The colon of the schemes. *)
Definition colon : N := 0x3a.




Global Instance eq_ci_dec w t : Decision (eq_ci w t).
Proof. unfold eq_ci. apply _. Defined.




Global Instance scalar_dec c : Decision (scalar c).
Proof. unfold scalar. apply _. Defined.

(** The bytes of a file in which the byte FF, which no UTF-8 sequence holds,
    stands in the middle of a URL. *)
Definition file_with_stray_byte : list Byte.byte :=
  bytes "http://a.c" ++ Byte.xff :: bytes "om".

(** ** More vocabulary: matches inside a text *)

(** The text made of the gaps [gaps] with the matches [ms] between them; there
    is one gap more than there are matches. *)
Fixpoint weave (gaps ms : list str) : str :=
  match gaps, ms with
  | g :: gaps', m :: ms' => g ++ m ++ weave gaps' ms'
  | g :: _, [] => g
  | [], _ => []
  end.

(** A directory with two text files, one URL in each. *)
Definition two_listed_files : directory :=
  [(py "f1.txt", inr (bytes "http://b.com"));
   (py "f2.txt", inr (bytes "http://a.com"))].


(** The UTF-8 bytes of a text with characters of one, two, three and four
    bytes: h, e with acute accent, the euro sign and an emoji. *)
Definition sample_utf8 : list Byte.byte :=
  [Byte.x68; Byte.xc3; Byte.xa9; Byte.xe2; Byte.x82; Byte.xac;
   Byte.xf0; Byte.x9f; Byte.x98; Byte.x80].

(** * The scripts that read the JSON output

    [search_urls.py], [combine_json.py] and [count_json_items.py] load JSON
    files with [json.load] and work on the values it returns. *)

(** ** JSON values

    What [json.load] returns: [None], a [bool], an [int], a [float] (kept as
    its 64 bits: the scripts never compute with numbers), a [str], a [list]
    or a [dict] with [str] keys, in the order of the file and with distinct
    keys. *)
Inductive json : Type :=
  | JNull
  | JBool (b : bool)
  | JInt (z : Z)
  | JFloat (bits : N)
  | JStr (s : str)
  | JList (items : list json)
  | JDict (fields : list (str * json)).

(** How a call ends: it returns, it raises an exception that nothing
    catches, or it leaves the program through [sys.exit]. *)
Inductive exn : Type := AttributeError | TypeError.

Inductive result (A : Type) : Type :=
  | Return (a : A)
  | Raise (e : exn)
  | SysExit (code : nat).
Arguments Return {A} a.
Arguments Raise {A} e.
Arguments SysExit {A} code.

Global Instance result_bind : MBind result := λ A B f m,
  match m with
  | Return a => f a
  | Raise e => Raise e
  | SysExit code => SysExit code
  end.

Definition is_list (data : json) : bool :=
  match data with JList _ => true | _ => false end.

Definition is_dict (data : json) : bool :=
  match data with JDict _ => true | _ => false end.

Definition is_str (data : json) : bool :=
  match data with JStr _ => true | _ => false end.

(** [fields.get(key)] *)
Fixpoint dict_get (fields : list (str * json)) (key : str) : option json :=
  match fields with
  | [] => None
  | (k, v) :: rest => if decide (k = key) then Some v else dict_get rest key
  end.

(** [fields[key] = value]: the value of a key that is there is replaced where
    it stands, a new key comes last. *)
Fixpoint dict_set (fields : list (str * json)) (key : str) (value : json)
    : list (str * json) :=
  match fields with
  | [] => [(key, value)]
  | (k, v) :: rest =>
      if decide (k = key) then (k, value) :: rest
      else (k, v) :: dict_set rest key value
  end.

(** [combined.update(data)] *)
Definition dict_update (combined data : list (str * json))
    : list (str * json) :=
  foldl (λ d kv, dict_set d kv.1 kv.2) combined data.

(** [needle in hay] for two [str]: [needle] is a piece of [hay]. *)
Fixpoint str_in (needle hay : str) : bool :=
  bool_decide (needle `prefix_of` hay)
  || match hay with
     | [] => false
     | _ :: hay' => str_in needle hay'
     end.

(** [needle in hay] for a [str] and any JSON value: a piece of a string, an
    item of a list, a key of a dictionary; the other values are not
    containers and the test raises [TypeError]. *)
Definition contains (needle : str) (hay : json) : result bool :=
  match hay with
  | JStr s => Return (str_in needle s)
  | JList items =>
      Return (existsb (λ item,
                         match item with
                         | JStr s => bool_decide (s = needle)
                         | _ => false
                         end) items)
  | JDict fields => Return (bool_decide (needle ∈ fields.*1))
  | _ => Raise TypeError
  end.

(** ** [search_urls.py] *)

Section search_urls.
(** [str.lower], with its table of the lower case of all of Unicode. *)
Variable str_lower : str → str.

(** [value if case_sensitive else value.lower()]: only a [str] has the
    method [lower]. *)
Definition search_field (case_sensitive : bool) (value : json) : result json :=
  if case_sensitive then Return value
  else
    match value with
    | JStr s => Return (JStr (str_lower s))
    | _ => Raise AttributeError
    end.

(** The body of the loop for one entry: whether the entry is appended to
    [matches]. *)
Definition entry_matches (search_value : str)
    (case_sensitive search_files : bool) (entry : json) : result bool :=
  match entry with
  | JDict fields =>
      let url := default (JStr []) (dict_get fields (py "url")) in
      let file_path := default (JStr []) (dict_get fields (py "file")) in
      url_search ← search_field case_sensitive url;
      file_search ← search_field case_sensitive file_path;
      in_url ← contains search_value url_search;
      if in_url : bool then Return true
      else if search_files then contains search_value file_search
      else Return false
  | _ => Return false
  end.

Fixpoint search_loop (search_value : str) (case_sensitive search_files : bool)
    (data : list json) (matches : list json) : result (list json) :=
  match data with
  | [] => Return matches
  | entry :: rest =>
      hit ← entry_matches search_value case_sensitive search_files entry;
      search_loop search_value case_sensitive search_files rest
        (if hit : bool then matches ++ [entry] else matches)
  end.

Definition search_urls (data : json) (search_term : str)
    (case_sensitive search_files : bool) : result (list json) :=
  match data with
  | JList items =>
      let search_value :=
        if case_sensitive then search_term else str_lower search_term in
      search_loop search_value case_sensitive search_files items []
  | _ => SysExit 1
  end.
End search_urls.

(** ** [combine_json.py] and [count_json_items.py] *)

(** [combine_json_files] on the outcome of [load_json_file] for each input
    file, in the order of the command line: the value loaded, or [None] when
    the file is missing or is not JSON, in which case [load_json_file] leaves
    through [sys.exit(1)]. *)
Fixpoint load_all (loaded : list (option json)) : result (list json) :=
  match loaded with
  | [] => Return []
  | None :: _ => SysExit 1
  | Some data :: rest => data_list ← load_all rest; Return (data :: data_list)
  end.

Definition extend (combined : list json) (data : json) : list json :=
  match data with JList items => combined ++ items | _ => combined end.

Definition update (combined : list (str * json)) (data : json)
    : list (str * json) :=
  match data with JDict fields => dict_update combined fields | _ => combined end.

Definition combine_json_files (loaded : list (option json)) : result json :=
  match loaded with
  | [] => SysExit 1
  | _ =>
      data_list ← load_all loaded;
      if forallb is_list data_list
      then Return (JList (foldl extend [] data_list))
      else if forallb is_dict data_list
      then Return (JDict (foldl update [] data_list))
      else Return (JList data_list)
  end.

(** [count_items] *)
Definition count_items (data : json) : nat :=
  match data with
  | JList items => length items
  | JDict fields => length fields
  | _ => 1
  end.

(** The list [data] of the JSON branch of the extraction script, as the
    value [json.load] gives back for the file it writes. *)
Definition record_json (r : str * str) : json :=
  JDict [(py "url", JStr r.1); (py "file", JStr r.2)].

Definition table_json (table : list (str * str)) : json :=
  JList (record_json <$> table).

(** ** The vocabulary of the properties of the search *)

(** The call returned. *)
Definition returned {A} (r : result A) : Prop := ∃ a, r = Return a.

(** The entry is appended to [matches]. *)
Definition hits (str_lower : str → str) (search_value : str)
    (case_sensitive search_files : bool) (entry : json) : bool :=
  match entry_matches str_lower search_value case_sensitive search_files entry with
  | Return true => true
  | _ => false
  end.

(** The field is a string or is missing. *)
Definition field_is_str (fields : list (str * json)) (key : str) : bool :=
  match dict_get fields key with
  | Some (JStr _) | None => true
  | _ => false
  end.

(** The text of a field that is a string; the empty text when it is
    missing. *)
Definition field_text (fields : list (str * json)) (key : str) : str :=
  match dict_get fields key with
  | Some (JStr s) => s
  | _ => []
  end.

(** An entry that a search without regard to case can look into: not a
    dictionary, or a dictionary whose [url] and [file] are strings or
    missing. *)
Definition searchable (entry : json) : bool :=
  match entry with
  | JDict fields =>
      field_is_str fields (py "url") && field_is_str fields (py "file")
  | _ => true
  end.

(** What a search without regard to case looks for in an entry. *)
Definition matches_ci (str_lower : str → str) (search_term : str)
    (search_files : bool) (entry : json) : bool :=
  match entry with
  | JDict fields =>
      str_in (str_lower search_term) (str_lower (field_text fields (py "url")))
      || search_files
         && str_in (str_lower search_term)
              (str_lower (field_text fields (py "file")))
  | _ => false
  end.

(** Three entries: a record of the extraction script, a string, and a record
    whose URL holds the word in capital letters. *)
Definition sample_entries : list json :=
  [record_json (py "https://doi.org/10.1", py "texts/a.txt");
   JStr (py "doi");
   record_json (py "http://EXAMPLE.org/DOI", py "texts/b.txt")].

(** What a search looks for in a record of the extraction script: the term
    in the URL or, when files are searched too, in the file, both put in lower
    case unless the search is case sensitive. *)
Definition record_matches (str_lower : str → str) (search_term : str)
    (case_sensitive search_files : bool) (r : str * str) : bool :=
  let fold := if case_sensitive then (λ s : str, s) else str_lower in
  str_in (fold search_term) (fold r.1)
  || search_files && str_in (fold search_term) (fold r.2).

(** Two entries with a number for file: the first has the term in its URL. *)
Definition entries_with_numbers : list json :=
  [JDict [(py "url", JStr (py "http://a.org/doi")); (py "file", JInt 1)];
   JDict [(py "url", JStr (py "http://b.org")); (py "file", JInt 2)]].

(** ** The vocabulary of the properties of the combination *)

(** Three files that hold lists, and two that hold dictionaries with a key in
    common. *)
Definition sample_lists : list (list json) :=
  [[JStr (py "a"); JInt 1]; []; [JNull]].

Definition sample_dicts : list (list (str * json)) :=
  [[(py "a", JInt 1); (py "b", JInt 2)];
   [(py "b", JInt 3); (py "c", JInt 4)]].

(** ** The vocabulary of the properties of the scan *)

(** No character class of the pattern takes the character [c]. *)
Fixpoint rejects (c : N) (r : re) : bool :=
  match r with
  | Eps => true
  | Chr p => negb (p c)
  | Seq r1 r2 | Alt r1 r2 => rejects c r1 && rejects c r2
  | Opt r1 => rejects c r1
  | Rep p _ _ => negb (p c)
  end.

(** The bytes of the plain output for [two_listed_files]: two lines. *)
Definition two_lines_bytes : list Byte.byte :=
  bytes "http://a.com" ++ Byte.x0a :: bytes "http://b.com" ++ [Byte.x0a].

(** ** [batch_extract_pdfs.py]

    [extract_full_text] on the texts [page.extract_text()] gives for the
    pages of the PDF, in order: a string, or [None] for a page without
    text. *)

(** [str(i)] for a page number. *)
Fixpoint uint_str (d : Decimal.uint) : str :=
  match d with
  | Decimal.Nil => []
  | Decimal.D0 d' => 0x30%N :: uint_str d'
  | Decimal.D1 d' => 0x31%N :: uint_str d'
  | Decimal.D2 d' => 0x32%N :: uint_str d'
  | Decimal.D3 d' => 0x33%N :: uint_str d'
  | Decimal.D4 d' => 0x34%N :: uint_str d'
  | Decimal.D5 d' => 0x35%N :: uint_str d'
  | Decimal.D6 d' => 0x36%N :: uint_str d'
  | Decimal.D7 d' => 0x37%N :: uint_str d'
  | Decimal.D8 d' => 0x38%N :: uint_str d'
  | Decimal.D9 d' => 0x39%N :: uint_str d'
  end.

Definition decimal (i : nat) : str := uint_str (Nat.to_uint i).

(** ['='*80] *)
Definition RULE : str := replicate 80 0x3d%N.

(** The pieces appended to [full_text] for the pages from number [i] on. *)
Fixpoint page_pieces (i : nat) (pages : list (option str)) : list str :=
  match pages with
  | [] => []
  | text :: rest =>
      match text with
      | Some ((_ :: _) as t) =>
          [Ch.nl :: RULE ++ [Ch.nl];
           py "PAGE " ++ decimal i ++ [Ch.nl];
           RULE ++ [Ch.nl; Ch.nl];
           t;
           [Ch.nl]]
      | _ => []
      end ++ page_pieces (S i) rest
  end.

Definition extract_full_text (pages : list (option str)) : str :=
  concat (page_pieces 1 pages).

(** The name of the text file written for a PDF, from the stem of its
    name. *)
Definition output_name (stem : str) : str := stem ++ py ".txt".

(** A PDF of three pages, the second without text. *)
Definition three_pages : list (option str) :=
  [Some (py "see http://a.org/x"); None; Some (py "and www.b.org.")].

(** The bytes of the text file written for [three_pages]. *)
Definition three_pages_bytes : list Byte.byte :=
  omap Byte.of_N (utf8_encode (extract_full_text three_pages)).

(** ** The vocabulary of the properties of the written text *)



(** The URLs found in the pages of a PDF, page after page. *)
Definition page_urls (use_lenient : bool) (pages : list (option str))
    : list str :=
  concat ((λ text, findall (pattern_of use_lenient) (default [] text))
            <$> pages).

(** The distinct items of a list, in the order of their first occurrence. *)
Definition distinct (l : list str) : list str :=
  foldl (λ seen u, if decide (u ∈ seen) then seen else seen ++ [u]) [] l.

(** ** The vocabulary of the malformed sequences *)

(** A byte that begins no UTF-8 sequence: a continuation byte, the bytes C0
    and C1 of over-long forms, and the bytes from F5 on. *)
Definition stray (b : N) : Prop := (0x80 ≤ b < 0xc2 ∨ 0xf5 ≤ b)%N.

(** The bytes [m] begin the encoding of a scalar value. *)
Definition begins_encoding (m : list N) : Prop :=
  ∃ c tail, scalar c ∧ utf8_encode_char c = m ++ tail.

(** A truncated sequence: the beginning of the encoding of a scalar value,
    neither empty nor whole. *)
Definition truncated (m : list N) : Prop :=
  m ≠ [] ∧ ∃ c tail, scalar c ∧ tail ≠ [] ∧ utf8_encode_char c = m ++ tail.

(** A malformed sequence in front of the bytes [rest]: a stray byte, or a
    truncated sequence that the first byte of [rest], if any, does not go
    on. *)
Definition malformed (m rest : list N) : Prop :=
  (∃ b, m = [b] ∧ stray b)
  ∨ (truncated m
     ∧ ∀ b rest', rest = b :: rest' → ¬ begins_encoding (m ++ [b])).

(** The bytes of a file cut in pieces: the encodings of texts and malformed
    sequences. *)
Inductive segment : Type :=
  | Text (t : str)
  | Malformed (m : list N).

Definition segment_bytes (s : segment) : list N :=
  match s with Text t => utf8_encode t | Malformed m => m end.

Definition segments_bytes (segs : list segment) : list N :=
  flat_map segment_bytes segs.

(** The texts are made of scalar values and every malformed sequence is one
    in front of the bytes that follow it. *)
Fixpoint segmented (segs : list segment) : Prop :=
  match segs with
  | [] => True
  | Text t :: rest => Forall scalar t ∧ segmented rest
  | Malformed m :: rest =>
      malformed m (segments_bytes rest) ∧ segmented rest
  end.

(** The pieces put together again: the texts, with [sub] in the place of
    each malformed sequence. *)
Definition segment_text (sub : str) (s : segment) : str :=
  match s with Text t => t | Malformed _ => sub end.

Definition segments_text (sub : str) (segs : list segment) : str :=
  flat_map (segment_text sub) segs.

(** The tests of the decoder on the byte that follows the lead byte of a
    sequence of three and of four bytes. *)
Definition unfit3 (b0 b1 : N) : bool :=
  (negb (is_continuation b1) || (b0 =? 0xe0) && (b1 <? 0xa0)
   || (b0 =? 0xed) && (0xa0 <=? b1))%N.

Definition unfit4 (b0 b1 : N) : bool :=
  (negb (is_continuation b1) || (b0 =? 0xf0) && (b1 <? 0x90)
   || (b0 =? 0xf4) && (0x90 <=? b1))%N.

(** A file with a stray byte, a sequence of three bytes cut after its
    second byte and a sequence of two bytes cut by the end of the file. *)
Definition file_with_malformed_sequences : list Byte.byte :=
  bytes "http://a" ++ Byte.x80 :: bytes ".c" ++ Byte.xe2 :: Byte.x82
  :: bytes "om " ++ [Byte.xc3].

Definition segments_of_file : list segment :=
  [Text (py "http://a"); Malformed [0x80%N]; Text (py ".c");
   Malformed [0xe2%N; 0x82%N]; Text (py "om "); Malformed [0xc3%N]].

(** * Properties *)

(** ** The scenarios of the specification *)

Example scenario_A_strict :
  matchStrict (py "See https://example.com/page and WWW.TEST.ORG.")
  = [py "https://example.com/page"; py "WWW.TEST.ORG."].
Proof. vm_compute. reflexivity. Qed.

Example scenario_A_lenient :
  matchLenient (py "See https://example.com/page and WWW.TEST.ORG.")
  = [py "https://example.com/page"; py "WWW.TEST.ORG"].
Proof. vm_compute. reflexivity. Qed.

Example scenario_D_lenient :
  matchLenient (py "contact us at info@mail.example.org or visit example.org/docs")
  = [py "mail.example.org"; py "example.org/docs"].
Proof. vm_compute. reflexivity. Qed.

Example scenario_B :
  (extract_urls_from_directory
     [(py "f2.txt", inr (bytes "http://a.com")); (py "notes.md", inr (bytes "http://c.com"));
      (py "f1.TXT", inr (bytes "see http://a.com"))]
     (py "texts") (py "urls.json") false).2
  = json_dump [(py "http://a.com", py "texts/f1.TXT");
               (py "http://a.com", py "texts/f2.txt")].
Proof. vm_compute. reflexivity. Qed.

Example scenario_C :
  extract_urls_from_directory [] INPUT_DIR OUTPUT_FILE false
  = ([ExtractedUnique 0 OUTPUT_FILE], []).
Proof. vm_compute. reflexivity. Qed.

(** ** The order on strings and [sorted] *)

Section order.
Implicit Types a b c : str.

Lemma str_leb_refl a : str_leb a a = true.
Proof.
  induction a as [|x a IH]; simpl; [done|].
  rewrite N.eqb_refl, IH. by rewrite orb_true_r.
Qed.

Lemma str_leb_total a b : str_leb a b = true ∨ str_leb b a = true.
Proof.
  revert b. induction a as [|x a IH]; intros [|y b]; simpl; auto.
  destruct (N.lt_trichotomy x y) as [Hlt|[->|Hgt]].
  - left. apply N.ltb_lt in Hlt. by rewrite Hlt.
  - rewrite N.eqb_refl, N.ltb_irrefl. simpl. apply IH.
  - right. apply N.ltb_lt in Hgt. by rewrite Hgt.
Qed.

Lemma str_leb_cons x a y b :
  str_leb (x :: a) (y :: b) = true ↔ (x < y)%N ∨ x = y ∧ str_leb a b = true.
Proof.
  simpl. rewrite orb_true_iff, andb_true_iff, N.ltb_lt, N.eqb_eq. tauto.
Qed.

Lemma str_leb_trans a b c :
  str_leb a b = true → str_leb b c = true → str_leb a c = true.
Proof.
  revert b c. induction a as [|x a IH]; intros [|y b] [|z c]; try done.
  rewrite !str_leb_cons. intros [?|[-> ?]] [?|[-> ?]]; eauto; left; lia.
Qed.

Lemma str_leb_antisym a b :
  str_leb a b = true → str_leb b a = true → a = b.
Proof.
  revert b. induction a as [|x a IH]; intros [|y b]; try done.
  rewrite !str_leb_cons. intros [?|[-> ?]] [?|[? ?]]; try lia.
  f_equal. auto.
Qed.

Global Instance str_le_refl : Reflexive str_le.
Proof. intros a. apply str_leb_refl. Qed.
Global Instance str_le_trans : Transitive str_le.
Proof. intros a b c. apply str_leb_trans. Qed.
Global Instance str_le_total : Total str_le.
Proof. intros a b. apply str_leb_total. Qed.
Global Instance str_le_antisym : AntiSymm (=) str_le.
Proof. intros a b. apply str_leb_antisym. Qed.

Lemma sorted_Permutation (xs : list str) : sorted xs ≡ₚ xs.
Proof. apply merge_sort_Permutation. Qed.

Lemma sorted_StronglySorted (xs : list str) :
  StronglySorted str_le (sorted xs).
Proof. apply StronglySorted_merge_sort; apply _. Qed.

Lemma elem_of_sorted (xs : list str) x : x ∈ sorted xs ↔ x ∈ xs.
Proof. by rewrite sorted_Permutation. Qed.

Lemma length_sorted (xs : list str) : length (sorted xs) = length xs.
Proof. by rewrite sorted_Permutation. Qed.

Lemma NoDup_sorted (xs : list str) : NoDup (sorted xs) ↔ NoDup xs.
Proof. by rewrite sorted_Permutation. Qed.

(** Two lists with the same elements are sorted to the same list. *)
Lemma sorted_perm_eq (xs ys : list str) : xs ≡ₚ ys → sorted xs = sorted ys.
Proof.
  intros Hp. apply (StronglySorted_unique str_le);
  auto using sorted_StronglySorted.
  by rewrite !sorted_Permutation.
Qed.

End order.

(** ** The index as a dictionary *)

Section dict.
Implicit Types (occ : dict) (u v file_path : str) (s : gset str).

Lemma get_None occ u : get occ u = None ↔ u ∉ keys occ.
Proof.
  unfold keys. induction occ as [|[k s] occ IH]; simpl.
  - split; [intros _; apply not_elem_of_nil | done].
  - rewrite not_elem_of_cons. case_decide; subst; [|rewrite IH]; naive_solver.
Qed.

Lemma get_Some occ u s :
  NoDup (keys occ) → get occ u = Some s ↔ (u, s) ∈ occ.
Proof.
  unfold keys. induction occ as [|[k s'] occ IH]; simpl; intros Hnd.
  - split; [done | intros H; by apply elem_of_nil in H].
  - apply NoDup_cons in Hnd as [Hk Hnd]. rewrite elem_of_cons.
    case_decide as Hku; subst.
    + split; [intros [= ->]; by left|].
      intros [[= ->]|Hin]; [done|].
      destruct Hk. apply list_elem_of_fmap. by exists (u, s).
    + rewrite IH by done. naive_solver.
Qed.

Lemma elem_of_keys occ u : u ∈ keys occ ↔ ∃ s, (u, s) ∈ occ.
Proof.
  unfold keys. rewrite list_elem_of_fmap. split.
  - intros [[k s] [-> ?]]. by exists s.
  - intros [s ?]. by exists (u, s).
Qed.

Lemma get_setdefault_add occ u file_path v :
  get (setdefault_add occ u file_path) v =
  if decide (v = u) then Some (default ∅ (get occ u) ∪ {[file_path]})
  else get occ v.
Proof.
  induction occ as [|[k s] occ IH]; simpl.
  - repeat case_decide; subst; try done. f_equal. set_solver.
  - destruct (decide (k = u)) as [->|Hku]; simpl.
    + repeat case_decide; subst; done.
    + rewrite IH. repeat case_decide; subst; done.
Qed.

Lemma keys_setdefault_add occ u file_path :
  keys (setdefault_add occ u file_path) =
  if decide (u ∈ keys occ) then keys occ else keys occ ++ [u].
Proof.
  unfold keys. induction occ as [|[k s] occ IH]; csimpl.
  - done.
  - destruct (decide (k = u)) as [->|Hku]; csimpl.
    + by rewrite decide_True by apply list_elem_of_here.
    + rewrite IH. destruct (decide (u ∈ occ.*1)) as [Hin|Hin].
      * by rewrite decide_True by by apply list_elem_of_further.
      * rewrite decide_False; [done|].
        intros [?|?]%elem_of_cons; done.
Qed.

Lemma NoDup_setdefault_add occ u file_path :
  NoDup (keys occ) → NoDup (keys (setdefault_add occ u file_path)).
Proof.
  intros Hnd. rewrite keys_setdefault_add. case_decide; [done|].
  apply NoDup_app. split; [done|]. split; [|apply NoDup_singleton].
  intros x Hx Hxu. apply list_elem_of_singleton in Hxu. by subst.
Qed.

Lemma NoDup_add_found file_path us occ :
  NoDup (keys occ) → NoDup (keys (add_found file_path us occ)).
Proof.
  unfold add_found. revert occ.
  induction us as [|u us IH]; simpl; auto using NoDup_setdefault_add.
Qed.

Lemma get_add_found file_path us occ v :
  get (add_found file_path us occ) v =
  if decide (v ∈ us) then Some (default ∅ (get occ v) ∪ {[file_path]})
  else get occ v.
Proof.
  unfold add_found. revert occ. induction us as [|u us IH]; intros occ; csimpl.
  - done.
  - rewrite IH, get_setdefault_add.
    destruct (decide (v = u)) as [->|Hvu].
    + rewrite (decide_True _ _ (list_elem_of_here u us)).
      case_decide; simpl; [f_equal; set_solver | done].
    + destruct (decide (v ∈ us)) as [Hin|Hin].
      * by rewrite decide_True by by apply list_elem_of_further.
      * rewrite decide_False; [done|].
        intros [?|?]%elem_of_cons; done.
Qed.
End dict.

Section build_index.
Variable find : str → list str.
Implicit Types (files : list (str * str)) (u : str).

Lemma build_index_snoc files fc :
  build_index find (files ++ [fc])
  = add_found fc.1 (find fc.2) (build_index find files).
Proof. unfold build_index. by rewrite foldl_app. Qed.

Lemma NoDup_build_index files : NoDup (keys (build_index find files)).
Proof.
  induction files as [|fc files IH] using rev_ind.
  - apply NoDup_nil_2.
  - rewrite build_index_snoc. by apply NoDup_add_found.
Qed.

Lemma found_in_snoc files fc u file_path :
  found_in find (files ++ [fc]) u file_path
  ↔ found_in find files u file_path ∨ file_path = fc.1 ∧ u ∈ find fc.2.
Proof.
  unfold found_in. split.
  - intros (c & [Hin|Hin%list_elem_of_singleton]%elem_of_app & Hu);
      [left; eauto | subst; right; done].
  - intros [(c & Hin & Hu)|[-> Hu]].
    + exists c. split; [apply elem_of_app; by left | done].
    + exists fc.2. split; [|done].
      apply elem_of_app. right. destruct fc. apply list_elem_of_singleton. done.
Qed.

(** What the index holds for each URL: nothing when no file has it, and
    otherwise the set of the files that have it. *)
Lemma get_build_index files u :
  match get (build_index find files) u with
  | None => ∀ file_path, ¬ found_in find files u file_path
  | Some s =>
      s ≠ ∅ ∧ ∀ file_path, file_path ∈ s ↔ found_in find files u file_path
  end.
Proof.
  induction files as [|fc files IH] using rev_ind.
  - simpl. intros f (c & Hin & _). by apply elem_of_nil in Hin.
  - rewrite build_index_snoc, get_add_found.
    destruct (get (build_index find files) u) as [s|] eqn:Hget; simpl;
      case_decide as Hu.
    + destruct IH as [Hne IH]. split; [set_solver|].
      intros f. rewrite found_in_snoc, <- IH. set_solver.
    + destruct IH as [Hne IH]. split; [done|].
      intros f. rewrite found_in_snoc, <- IH. naive_solver.
    + split; [set_solver|].
      intros f. rewrite found_in_snoc. split.
      * intros Hf. right. split; [set_solver | done].
      * intros [Hf|[-> _]]; [by apply IH in Hf | set_solver].
    + intros f. rewrite found_in_snoc. intros [Hf|[_ ?]]; [|done].
      by apply IH in Hf.
Qed.

Lemma elem_of_build_index files u s :
  (u, s) ∈ build_index find files →
  s ≠ ∅ ∧ ∀ file_path, file_path ∈ s ↔ found_in find files u file_path.
Proof.
  intros Hin. apply get_Some in Hin; [|apply NoDup_build_index].
  pose proof (get_build_index files u) as H. by rewrite Hin in H.
Qed.

Lemma elem_of_keys_build_index files u :
  u ∈ keys (build_index find files)
  ↔ ∃ file_path, found_in find files u file_path.
Proof.
  pose proof (get_build_index files u) as H.
  destruct (get (build_index find files) u) as [s|] eqn:Hget.
  - destruct H as [Hne H]. split.
    + intros _. apply set_choose_L in Hne as [f Hf]. exists f. by apply H.
    + intros _. apply elem_of_keys. exists s.
      apply get_Some; [apply NoDup_build_index | done].
  - apply get_None in Hget. split; [done|]. intros [f Hf]. by apply H in Hf.
Qed.
End build_index.

(** ** The two renderings *)

Section rendering.
Implicit Types (occ : dict) (u f : str) (s : gset str).

Lemma occurrence_table_cons u s occ :
  occurrence_table ((u, s) :: occ)
  = map (λ f, (u, f)) (sorted (elements s)) ++ occurrence_table occ.
Proof. done. Qed.

Lemma elem_of_occurrence_table occ u f :
  (u, f) ∈ occurrence_table occ ↔ ∃ s, (u, s) ∈ occ ∧ f ∈ s.
Proof.
  induction occ as [|[k s'] occ IH].
  - split; [intros []%elem_of_nil | intros (s & []%elem_of_nil & _)].
  - rewrite occurrence_table_cons, elem_of_app, IH. split.
    + intros [Hin|(s & Hin & Hf)].
      * apply list_elem_of_In, in_map_iff in Hin as (f' & [= <- <-] & Hin).
        apply list_elem_of_In, elem_of_sorted, elem_of_elements in Hin.
        exists s'. split; [apply list_elem_of_here | done].
      * exists s. split; [by apply list_elem_of_further | done].
    + intros (s & [[= <- <-]|Hin]%elem_of_cons & Hf).
      * left. apply list_elem_of_In, in_map_iff. exists f. split; [done|].
        by apply list_elem_of_In, elem_of_sorted, elem_of_elements.
      * right. by exists s.
Qed.

Lemma NoDup_occurrence_table occ :
  NoDup (keys occ) → NoDup (occurrence_table occ).
Proof.
  induction occ as [|[k s] occ IH]; intros Hnd.
  - apply NoDup_nil_2.
  - unfold keys in Hnd. rewrite fmap_cons in Hnd.
    apply NoDup_cons in Hnd as [Hk Hnd].
    rewrite occurrence_table_cons. apply NoDup_app. split; [|split].
    + assert (Inj (=) (=) (λ f : str, (k, f))) by (by intros ?? [= ->]).
      apply (NoDup_fmap_2 (λ f : str, (k, f))), NoDup_sorted, NoDup_elements.
    + intros [u f] Hin Hin'.
      apply list_elem_of_In, in_map_iff in Hin as (f' & [= <- <-] & _).
      apply elem_of_occurrence_table in Hin' as (s' & Hin' & _).
      apply Hk, elem_of_keys. by exists s'.
    + by apply IH.
Qed.

(** The number of records is the sum of the sizes of the file sets. *)
Lemma length_occurrence_table occ :
  length (occurrence_table occ) = sum_list (map (λ kv, size kv.2) occ).
Proof.
  induction occ as [|[k s] occ IH]; [done|].
  rewrite occurrence_table_cons, length_app, length_map, length_sorted, IH.
  done.
Qed.
End rendering.

(** ** C3: the invariant of the index *)

(** C3. For every sequence of (file identifier, content) pairs and every
    pattern, the index the indexer builds has a URL as a key exactly when the
    pattern matched it in the content of at least one file; the file set of
    every key is not empty and holds exactly the files in which the URL was
    matched; and a file is enumerated once in the set of a key, so that each
    (url, file) pair gives one record, however many times the URL was matched
    in the file. *)
Theorem index_invariant (regex : re) (files : list (str * str)) :
  let occ := build_index (findall regex) files in
  (∀ u, u ∈ keys occ ↔ ∃ f c, (f, c) ∈ files ∧ u ∈ findall regex c)
  ∧ (∀ u s, (u, s) ∈ occ →
       s ≠ ∅
       ∧ (∀ f, f ∈ s ↔ ∃ c, (f, c) ∈ files ∧ u ∈ findall regex c)
       ∧ NoDup (sorted (elements s)))
  ∧ NoDup (keys occ)
  ∧ NoDup (occurrence_table occ).
Proof.
  intros occ. split; [|split; [|split]].
  - intros u. unfold occ. rewrite elem_of_keys_build_index. done.
  - intros u s Hin. apply elem_of_build_index in Hin as [Hne Hs].
    split; [done|]. split; [done|]. apply NoDup_sorted, NoDup_elements.
  - apply NoDup_build_index.
  - apply NoDup_occurrence_table, NoDup_build_index.
Qed.

(** A URL matched five times in one file and nowhere else: one key, one
    record, one line. *)
Example set_semantics :
  let occ :=
    build_index matchStrict
      [(py "a.txt", py "www.x.org www.x.org www.x.org www.x.org www.x.org");
       (py "b.txt", py "nothing here")] in
  length (matchStrict (py "www.x.org www.x.org www.x.org www.x.org www.x.org")) = 5
  ∧ occurrence_table occ = [(py "www.x.org", py "a.txt")]
  ∧ unique_list occ = py "www.x.org" ++ [Ch.nl].
Proof. vm_compute. done. Qed.

(** ** C5: the two counts *)

Lemma size_file_set (s : gset str) : s ≠ ∅ → 1 ≤ size s.
Proof.
  intros Hne. assert (size s ≠ 0); [|lia].
  apply size_non_empty_iff. by intros ?%leibniz_equiv.
Qed.

(** C5. For an occurrence index, whose file sets are not empty, the number of
    records of the occurrence table (the sum of the sizes of the file sets) is
    at least the number of distinct URLs, and the two are equal exactly when
    every URL has a file set of one element. *)
Theorem count_relation (occ : dict) :
  Forall (λ kv, kv.2 ≠ ∅) occ →
  length (occurrence_table occ) = sum_list (map (λ kv, size kv.2) occ)
  ∧ length occ ≤ length (occurrence_table occ)
  ∧ (length (occurrence_table occ) = length occ
     ↔ Forall (λ kv, size kv.2 = 1) occ).
Proof.
  intros Hne. split; [apply length_occurrence_table|].
  rewrite length_occurrence_table.
  induction Hne as [|[k s] occ Hs Hne [IHle IHeq]]; simpl.
  - split; [done|]. split; [constructor | done].
  - apply size_file_set in Hs. simpl in Hs. split; [lia|].
    rewrite Forall_cons. simpl. rewrite <- IHeq. lia.
Qed.

Lemma count_relation_witness :
  Forall (λ kv : str * gset str, kv.2 ≠ ∅) two_files_one_url
  ∧ length (occurrence_table two_files_one_url)
    = sum_list (map (λ kv, size kv.2) two_files_one_url)
  ∧ length two_files_one_url ≤ length (occurrence_table two_files_one_url)
  ∧ (length (occurrence_table two_files_one_url) = length two_files_one_url
     ↔ Forall (λ kv, size kv.2 = 1) two_files_one_url).
Proof.
  assert (Forall (λ kv : str * gset str, kv.2 ≠ ∅) two_files_one_url) as H.
  { unfold two_files_one_url. repeat constructor; simpl.
    - intros Heq. apply (not_elem_of_empty (C:=gset str) (py "texts/f1.txt")).
      rewrite <- Heq. apply elem_of_union_l, elem_of_singleton. reflexivity.
    - apply non_empty_singleton_L. }
  split; [exact H|]. exact (count_relation two_files_one_url H).
Defined.

(** ** C4: the list of unique URLs *)

Lemma lines_line l rest :
  Ch.nl ∉ l → lines (l ++ Ch.nl :: rest) = cons l <$> lines rest.
Proof.
  induction l as [|c l IH]; intros Hnl; simpl.
  - done.
  - apply not_elem_of_cons in Hnl as [Hc Hnl].
    rewrite (proj2 (N.eqb_neq c Ch.nl)) by done.
    rewrite IH by done. by destruct (lines rest).
Qed.

Lemma lines_flat_map (ls : list str) :
  Forall (λ l, Ch.nl ∉ l) ls →
  lines (flat_map (λ l, l ++ [Ch.nl]) ls) = Some ls.
Proof.
  induction 1 as [|l ls Hl Hls IH]; simpl; [done|].
  rewrite <- app_assoc. simpl. rewrite lines_line, IH by done. done.
Qed.



(** ** C7: a file that cannot be read *)

Lemma foldl_scan_entry regex input_dir d occ out :
  foldl (scan_entry regex input_dir) (occ, out) d
  = (foldl (λ occ fc, add_found fc.1 (findall regex fc.2) occ) occ
       (readable input_dir d),
     out ++ unreadable input_dir d).
Proof.
  revert occ out. induction d as [|[filename opened] d IH]; intros occ out.
  - simpl. by rewrite app_nil_r.
  - cbn [foldl]. unfold scan_entry at 2, readable, unreadable.
    cbn [omap list_omap fst snd]. fold (readable input_dir d).
    fold (unreadable input_dir d). fold (is_text_file filename).
    destruct (is_text_file filename), opened as [e|bs]; rewrite IH; cbn [foldl];
      try done.
    by rewrite <- app_assoc.
Qed.

Lemma scan_directory_readable regex input_dir d :
  scan_directory regex input_dir d
  = (build_index (findall regex) (readable input_dir d),
     unreadable input_dir d).
Proof. unfold scan_directory. by rewrite foldl_scan_entry. Qed.

Lemma elem_of_readable input_dir (d : directory) file_path content :
  (file_path, content) ∈ readable input_dir d
  ↔ ∃ filename bs,
      (filename, inr bs) ∈ d ∧ is_text_file filename = true
      ∧ file_path = path_join input_dir filename ∧ content = read_text bs.
Proof.
  unfold readable. rewrite list_elem_of_omap. split.
  - intros ([filename [e|bs]] & Hin & Hsome); simpl in Hsome; [done|].
    destruct (is_text_file filename) eqn:Htxt; [|done].
    injection Hsome as <- <-. by exists filename, bs.
  - intros (filename & bs & Hin & Htxt & -> & ->).
    exists (filename, inr bs). split; [done|]. simpl. by rewrite Htxt.
Qed.



Example unreadable_file_in_the_middle :
  scan_directory URL_REGEX (py "texts")
    [(py "a.txt", inr (bytes "http://a.com"));
     (py "b.txt", inl (py "Permission denied"));
     (py "c.txt", inr (bytes "see http://c.com and http://a.com"))]
  = ([(py "http://a.com", {[py "texts/a.txt"]} ∪ {[py "texts/c.txt"]});
      (py "http://c.com", {[py "texts/c.txt"]})],
     [CouldNotRead (py "texts/b.txt") (py "Permission denied")]).
Proof. vm_compute. reflexivity. Qed.

(** ** C1: the order of the occurrence table *)

(** Within one URL the files come in ascending order. *)
Lemma occurrence_table_files_sorted (u : str) (s : gset str) :
  StronglySorted record_le (occurrence_table [(u, s)]).
Proof.
  unfold occurrence_table. simpl. rewrite app_nil_r.
  induction (sorted_StronglySorted (elements s)) as [|f fs Hfs IH Hf];
    constructor; [done|].
  apply Forall_forall. intros r Hr.
  apply list_elem_of_In, in_map_iff in Hr as (f' & <- & Hin).
  right. split; [done|]. rewrite Forall_forall in Hf.
  by apply Hf, list_elem_of_In.
Qed.

(** The URLs come in the order of the dictionary, which is the order in
    which they were first matched. *)
Lemma occurrence_table_urls (occ : dict) :
  (occurrence_table occ).*1 = flat_map (λ kv, replicate (size kv.2) kv.1) occ.
Proof.
  induction occ as [|[u s] occ IH]; [done|].
  rewrite occurrence_table_cons, fmap_app, IH. simpl. f_equal.
  unfold size, set_size. simpl. rewrite <- (length_sorted (elements s)).
  induction (sorted (elements s)) as [|f fs IHf]; simpl; [done|].
  f_equal. apply IHf.
Qed.

(** C1. The occurrence table of a file in which [http://b.com] is matched
    before [http://a.com]: the records come in the order of the first match
    of their URL, here descending, and not in ascending order of URL. *)
Theorem occurrence_table_in_match_order :
  let d : directory :=
    [(py "a.txt", inr (bytes "http://b.com http://a.com"))] in
  let occ := (scan_directory URL_REGEX (py "texts") d).1 in
  occurrence_table occ
  = [(py "http://b.com", py "texts/a.txt");
     (py "http://a.com", py "texts/a.txt")]
  ∧ ¬ Sorted record_le (occurrence_table occ)
  ∧ (extract_urls_from_directory d (py "texts") (py "urls.json") false).2
    = json_dump [(py "http://b.com", py "texts/a.txt");
                 (py "http://a.com", py "texts/a.txt")]
  ∧ (extract_urls_from_directory d (py "texts") (py "urls.txt") false).2
    = py "http://a.com" ++ Ch.nl :: py "http://b.com" ++ [Ch.nl].
Proof.
  intros d occ.
  assert (occurrence_table occ
          = [(py "http://b.com", py "texts/a.txt");
             (py "http://a.com", py "texts/a.txt")]) as Htab.
  { vm_compute. reflexivity. }
  split; [exact Htab|]. split; [|split; vm_compute; reflexivity].
  rewrite Htab. intros Hs. inversion Hs as [|r rs _ Hhd]; subst.
  inversion Hhd as [|r rs Hle]; subst.
  destruct Hle as [[Hle _]|[Heq _]]; [vm_compute in Hle | vm_compute in Heq];
    done.
Qed.

(** ** C6: the order in which the files are processed *)

Section processing_order.
Variable find : str → list str.
Implicit Types files : list (str * str).

Lemma found_in_perm files1 files2 u f :
  files1 ≡ₚ files2 → found_in find files1 u f ↔ found_in find files2 u f.
Proof. intros Hp. unfold found_in. by setoid_rewrite Hp. Qed.

(** As a mapping the index does not depend on the order of the files. *)
Lemma get_build_index_perm files1 files2 u :
  files1 ≡ₚ files2 →
  get (build_index find files1) u = get (build_index find files2) u.
Proof.
  intros Hp.
  pose proof (get_build_index find files1 u) as H1.
  pose proof (get_build_index find files2 u) as H2.
  destruct (get (build_index find files1) u) as [s1|],
           (get (build_index find files2) u) as [s2|]; try done.
  - f_equal. apply set_eq. intros f.
    destruct H1 as [_ ->], H2 as [_ ->]. by apply found_in_perm.
  - destruct H1 as [[f Hf]%set_choose_L H1].
    apply H1, (found_in_perm _ _ _ _ Hp) in Hf. by apply H2 in Hf.
  - destruct H2 as [[f Hf]%set_choose_L H2].
    apply H2, (found_in_perm _ _ _ _ Hp) in Hf. by apply H1 in Hf.
Qed.

Lemma keys_build_index_perm files1 files2 :
  files1 ≡ₚ files2 →
  keys (build_index find files1) ≡ₚ keys (build_index find files2).
Proof.
  intros Hp. apply NoDup_Permutation; try apply NoDup_build_index.
  intros u. rewrite !elem_of_keys_build_index.
  by setoid_rewrite (found_in_perm _ _ u _ Hp).
Qed.

(** The unique list does not depend on the order of the files either. *)
Lemma unique_list_perm files1 files2 :
  files1 ≡ₚ files2 →
  unique_list (build_index find files1) = unique_list (build_index find files2).
Proof.
  intros Hp. unfold unique_list.
  by rewrite (sorted_perm_eq _ _ (keys_build_index_perm _ _ Hp)).
Qed.
End processing_order.

Lemma readable_perm input_dir (d1 d2 : directory) :
  d1 ≡ₚ d2 → readable input_dir d1 ≡ₚ readable input_dir d2.
Proof. intros Hp. unfold readable. by rewrite Hp. Qed.

(** ** What is written to the output file *)

Ltac bool_to_prop :=
  repeat (rewrite ?negb_true_iff, ?negb_false_iff, ?orb_true_iff,
            ?orb_false_iff, ?andb_true_iff, ?andb_false_iff, ?N.eqb_eq,
            ?N.eqb_neq, ?N.leb_le, ?N.leb_gt, ?N.ltb_lt, ?N.ltb_ge in *).

Ltac by_decide := apply (bool_decide_unpack _); vm_compute; exact I.

Ltac decode_step IH :=
  match goal with
  | |- Forall _ [] => constructor
  | |- Forall _ (on_error Ignore) => constructor
  | |- Forall _ (on_error Ignore ++ _) =>
      change (on_error Ignore) with (@nil N); cbn [app]
  | |- Forall _ (if ?b then _ else _) => destruct b eqn:?
  | |- Forall _ (match ?l with [] => _ | _ :: _ => _ end) => destruct l
  | |- Forall _ (utf8_decode Ignore _) =>
      apply IH;
        [ cbn [length] in *; lia
        | repeat match goal with
            | H : Forall _ (_ :: _) |- _ => apply Forall_cons in H as [? H]
            end;
          repeat (apply Forall_cons; split; [assumption|]); assumption ]
  | |- Forall _ (_ :: utf8_decode Ignore _) => constructor
  end.

(** With the handler [ignore] the decoder gives Unicode scalar values
    only. *)
Lemma utf8_decode_scalar (bs : list N) :
  Forall (λ b, (b < 256)%N) bs → Forall scalar (utf8_decode Ignore bs).
Proof.
  assert (∀ n bs, length bs ≤ n → Forall (λ b, (b < 256)%N) bs →
                  Forall scalar (utf8_decode Ignore bs)) as Hn.
  { clear bs. induction n as [|n IH]; intros bs Hlen Hb.
    - destruct bs; [constructor | simpl in Hlen; lia].
    - destruct bs as [|b0 r0]; [constructor|].
      cbn [utf8_decode]. repeat decode_step IH.
      all: repeat match goal with
             | H : Forall _ (_ :: _) |- _ => apply Forall_cons in H as [? H]
             end;
           unfold scalar, is_continuation in *; bool_to_prop; lia. }
  by apply (Hn (length bs)).
Qed.

Lemma universal_newlines_scalar t :
  Forall scalar t → Forall scalar (universal_newlines t).
Proof.
  assert (∀ n t, length t ≤ n → Forall scalar t →
                 Forall scalar (universal_newlines t)) as Hn.
  { clear t. induction n as [|n IH]; intros t Hlen Ht.
    - destruct t; [constructor | simpl in Hlen; lia].
    - destruct t as [|c t]; [constructor|].
      apply Forall_cons in Ht as [Hc Ht]. simpl in Hlen. simpl.
      destruct (c =? Ch.cr)%N.
      + constructor; [by_decide|]. destruct t as [|c' t]; [constructor|].
        apply Forall_cons in Ht as [Hc' Ht']. simpl in Hlen.
        destruct (c' =? Ch.nl)%N; apply IH; simpl; try lia; [done|].
        by constructor.
      + constructor; [done|]. apply IH; [lia|done]. }
  by apply (Hn (length t)).
Qed.

Lemma read_text_scalar bs : Forall scalar (read_text bs).
Proof.
  apply universal_newlines_scalar, utf8_decode_scalar, Forall_forall.
  intros b (x & <- & _)%list_elem_of_In%in_map_iff.
  pose proof (Byte.to_N_bounded x). lia.
Qed.

Lemma scan_Forall (P : N → Prop) r s n :
  Forall P s → Forall (Forall P) (scan r s n).
Proof.
  revert n. induction s as [|a s IH]; intros n Hs; [constructor|].
  pose proof Hs as [_ Hs']%Forall_cons. simpl.
  destruct n as [|n]; [|by apply IH].
  destruct (match_at r (a :: s)) as [[|b w]|] eqn:Hm; try by apply IH.
  constructor; [|by apply IH].
  unfold match_at in Hm. apply fmap_Some in Hm as (t & _ & ->).
  by apply Forall_take.
Qed.

Lemma keys_scalar regex input_dir (d : directory) :
  Forall (Forall scalar)
    (keys (build_index (findall regex) (readable input_dir d))).
Proof.
  apply Forall_forall. intros u Hu.
  apply elem_of_keys_build_index in Hu as (f & c & Hc & Hu).
  apply elem_of_readable in Hc as (_ & bs & _ & _ & _ & ->).
  pose proof (scan_Forall scalar regex (read_text bs) 0 (read_text_scalar bs))
    as Hall.
  rewrite Forall_forall in Hall. by apply Hall.
Qed.

Lemma encodable_scalar chunk : encodable chunk = true ↔ Forall scalar chunk.
Proof.
  unfold encodable, scalar. induction chunk as [|c chunk IH]; simpl.
  - split; [constructor | done].
  - rewrite andb_true_iff, IH, Forall_cons. bool_to_prop. tauto.
Qed.

Lemma write_chunks_encodable chunks :
  Forall (Forall scalar) chunks → write_chunks chunks = (concat chunks, true).
Proof.
  induction 1 as [|chunk chunks Hc _ IH]; [done|].
  simpl. apply encodable_scalar in Hc. by rewrite Hc, IH.
Qed.

(** A call of [write] that raises leaves in the file what the calls before
    it wrote. *)
Lemma write_chunks_raises chunks :
  (write_chunks chunks).2 = false →
  ∃ before chunk after,
    chunks = before ++ chunk :: after
    ∧ Forall (Forall scalar) before ∧ ¬ Forall scalar chunk
    ∧ (write_chunks chunks).1 = concat before.
Proof.
  induction chunks as [|chunk chunks IH]; [done|]. simpl.
  destruct (encodable chunk) eqn:Hc.
  - destruct (write_chunks chunks) as [text ok]. simpl in *. intros ->.
    destruct (IH eq_refl) as (before & bad & after & -> & Hbefore & Hbad & ->).
    exists (chunk :: before), bad, after. split; [done|].
    split; [constructor; [by apply encodable_scalar | done]|]. by split.
  - intros _. exists [], chunk, chunks. split; [done|]. split; [constructor|].
    split; [|done]. rewrite <- encodable_scalar. by rewrite Hc.
Qed.

Lemma write_chunks_returns chunks :
  (write_chunks chunks).2 = true → Forall (Forall scalar) chunks.
Proof.
  induction chunks as [|chunk chunks IH]; [constructor|]. simpl.
  destruct (encodable chunk) eqn:Hc; [|done].
  destruct (write_chunks chunks) as [text ok]. simpl. intros ->.
  constructor; [by apply encodable_scalar | by apply IH].
Qed.

Lemma concat_unique_chunks occ : concat (unique_chunks occ) = unique_list occ.
Proof. unfold unique_chunks, unique_list. by rewrite flat_map_concat_map. Qed.

Lemma concat_record_chunks r :
  py "  " ++ concat (record_chunks r) = json_record r.
Proof.
  unfold record_chunks, json_record.
  generalize (json_string r.1) (json_string r.2) (json_string (py "url"))
    (json_string (py "file")).
  intros j1 j2 ju jf. vm_compute. reflexivity.
Qed.

Lemma json_items_chunks r rest :
  json_items (r :: rest) = json_record r ++ concat (items_chunks false rest).
Proof.
  revert r. induction rest as [|r' rest IH]; intros r.
  - simpl. by rewrite app_nil_r.
  - change (json_items (r :: r' :: rest))
      with (json_record r ++ py "," ++ Ch.nl :: json_items (r' :: rest)).
    rewrite IH. cbn [items_chunks concat].
    rewrite concat_app, <- (concat_record_chunks r').
    by rewrite <- !app_assoc.
Qed.

Lemma concat_json_chunks data : concat (json_chunks data) = json_dump data.
Proof.
  destruct data as [|r rest]; [done|].
  unfold json_chunks, json_dump. rewrite json_items_chunks.
  cbn [items_chunks]. rewrite concat_app, concat_cons, concat_app.
  rewrite <- (concat_record_chunks r).
  generalize (concat (record_chunks r)) (concat (items_chunks false rest)).
  intros x y. cbn [concat]. rewrite <- !app_assoc. reflexivity.
Qed.

(** The URLs of an index built from files that were read can all be
    encoded: every call of [write] of the plain branch returns. *)
Lemma plain_written regex input_dir (d : directory) :
  write_chunks
    (unique_chunks (build_index (findall regex) (readable input_dir d)))
  = (unique_list (build_index (findall regex) (readable input_dir d)), true).
Proof.
  rewrite <- concat_unique_chunks. apply write_chunks_encodable.
  unfold unique_chunks. apply Forall_forall.
  intros chunk (u & <- & Hu)%list_elem_of_In%in_map_iff.
  apply list_elem_of_In in Hu. rewrite elem_of_sorted in Hu.
  pose proof (keys_scalar regex input_dir d) as Hall.
  rewrite Forall_forall in Hall. apply Forall_app. split; [by apply Hall|].
  constructor; [by_decide | constructor].
Qed.

Lemma write_chunks_prefix chunks :
  (write_chunks chunks).1 `prefix_of` concat chunks.
Proof.
  induction chunks as [|chunk chunks IH]; [done|]. simpl.
  destruct (encodable chunk); [|apply prefix_nil].
  destruct (write_chunks chunks) as [text ok]. simpl in *.
  by apply prefix_app.
Qed.

Lemma json_escape_scalar c : scalar c ↔ Forall scalar (json_escape c).
Proof.
  unfold json_escape.
  destruct (N.eqb_spec c Ch.dquote) as [->|H1]; [split; intros _; by_decide|].
  destruct (N.eqb_spec c Ch.backslash) as [->|H2]; [split; intros _; by_decide|].
  destruct (N.eqb_spec c 8) as [->|H3]; [split; intros _; by_decide|].
  destruct (N.eqb_spec c 12) as [->|H4]; [split; intros _; by_decide|].
  destruct (N.eqb_spec c 10) as [->|H5]; [split; intros _; by_decide|].
  destruct (N.eqb_spec c 13) as [->|H6]; [split; intros _; by_decide|].
  destruct (N.eqb_spec c 9) as [->|H7]; [split; intros _; by_decide|].
  destruct (N.ltb_spec c 32) as [Hc|Hc].
  - split; [intros _ | intros _; unfold scalar; lia].
    assert (scalar (hex_digit (c / 16)) ∧ scalar (hex_digit (c mod 16)))
      as [Hd1 Hd2].
    { unfold hex_digit, scalar.
      split; destruct (_ <? _)%N;
        (zify; Z.to_euclidean_division_equations; lia). }
    change (Forall scalar
              (Ch.backslash :: py "u00"
               ++ [hex_digit (c / 16); hex_digit (c mod 16)])).
    constructor; [by_decide|]. apply Forall_app. split; [by_decide|].
    constructor; [done|]. constructor; [done|]. constructor.
  - split; [intros ?; constructor; [done|constructor]
           | by intros [? _]%Forall_cons].
Qed.

Lemma json_string_scalar s : Forall scalar s ↔ Forall scalar (json_string s).
Proof.
  unfold json_string. rewrite Forall_cons, Forall_app.
  assert (Forall scalar s ↔ Forall scalar (flat_map json_escape s)) as <-.
  { induction s as [|c s IH]; [done|]. simpl.
    by rewrite Forall_cons, Forall_app, <- IH, <- json_escape_scalar. }
  split; [intros Hs; split; [by_decide|]; split; [done | by_decide]|].
  by intros (_ & Hs & _).
Qed.

Lemma record_chunks_scalar r :
  Forall (Forall scalar) (record_chunks r)
  ↔ Forall scalar r.1 ∧ Forall scalar r.2.
Proof.
  unfold record_chunks. rewrite !Forall_cons, (json_string_scalar r.1),
    (json_string_scalar r.2). split.
  - intros (_ & _ & _ & _ & H1 & _ & _ & _ & H2 & _). by split.
  - intros [H1 H2]. split_and!; try done; try by_decide.
Qed.

Lemma json_chunks_scalar data :
  Forall (Forall scalar) (json_chunks data)
  ↔ Forall (λ r, Forall scalar r.1 ∧ Forall scalar r.2) data.
Proof.
  assert (∀ first, Forall (Forall scalar) (items_chunks first data)
                   ↔ Forall (λ r, Forall scalar r.1 ∧ Forall scalar r.2) data)
    as Hitems.
  { induction data as [|r data IH]; intros first; [done|].
    cbn [items_chunks].
    rewrite !Forall_cons, Forall_app, record_chunks_scalar, IH.
    split; [by intros [_ ?] | intros ?; split; [|done]].
    destruct first; by_decide. }
  destruct data as [|r data].
  - split; [constructor | intros _; repeat constructor; by_decide].
  - unfold json_chunks. rewrite Forall_app, Hitems. split; [by intros [? _]|].
    intros ?. split; [done|]. repeat constructor; by_decide.
Qed.

(** The URLs of the records come from files that were read and can be
    encoded: [json.dump] returns exactly when the file paths can. *)
Lemma json_written regex input_dir (d : directory) :
  let data := occurrence_table
                (build_index (findall regex) (readable input_dir d)) in
  if (write_chunks (json_chunks data)).2
  then write_chunks (json_chunks data) = (json_dump data, true)
       ∧ Forall (λ r, Forall scalar r.2) data
  else (write_chunks (json_chunks data)).1 `prefix_of` json_dump data
       ∧ (write_chunks (json_chunks data)).1 ≠ json_dump data
       ∧ ¬ Forall (λ r, Forall scalar r.2) data.
Proof.
  intros data.
  assert (Forall (λ r, Forall scalar r.1) data) as Hurls.
  { apply Forall_forall. intros [u f] (files & Hin & _)%elem_of_occurrence_table.
    pose proof (keys_scalar regex input_dir d) as Hall.
    rewrite Forall_forall in Hall. apply Hall, elem_of_keys. by exists files. }
  assert (Forall (λ r, Forall scalar r.2) data
          ↔ Forall (Forall scalar) (json_chunks data)) as Hpaths.
  { rewrite json_chunks_scalar, !Forall_forall. split.
    - intros Hp r Hr. split; [|by apply Hp].
      rewrite Forall_forall in Hurls. by apply Hurls.
    - intros Hp r Hr. by apply Hp. }
  destruct (write_chunks (json_chunks data)).2 eqn:Hok.
  - apply write_chunks_returns in Hok as Hall.
    split; [|by apply Hpaths].
    by rewrite (write_chunks_encodable _ Hall), concat_json_chunks.
  - pose proof (write_chunks_prefix (json_chunks data)) as Hpre.
    rewrite concat_json_chunks in Hpre. split; [done|].
    apply write_chunks_raises in Hok
      as (before & chunk & after & Heq & Hbefore & Hchunk & Htext).
    split.
    + rewrite Htext, <- concat_json_chunks, Heq, concat_app. simpl.
      intros Habs. apply (f_equal length) in Habs.
      rewrite !length_app in Habs. destruct chunk; [|simpl in Habs; lia].
      by destruct Hchunk.
    + rewrite Hpaths, Heq, Forall_app, Forall_cons. by intros (_ & ? & _).
Qed.

(** The run with a plain output. *)
Lemma extract_plain (d : directory) (input_dir output_file : str)
    (use_lenient : bool) :
  endswith (lower output_file) (py ".json") = false →
  extract_urls_from_directory d input_dir output_file use_lenient
  = (unreadable input_dir d
       ++ [ExtractedUnique
             (length (build_index (findall (pattern_of use_lenient))
                        (readable input_dir d))) output_file],
     unique_list (build_index (findall (pattern_of use_lenient))
                    (readable input_dir d))).
Proof.
  intros Hout. unfold extract_urls_from_directory.
  fold (pattern_of use_lenient). rewrite scan_directory_readable, Hout.
  by rewrite plain_written.
Qed.

(** The run with a JSON output. *)
Lemma extract_json (d : directory) (input_dir output_file : str)
    (use_lenient : bool) :
  endswith (lower output_file) (py ".json") = true →
  extract_urls_from_directory d input_dir output_file use_lenient
  = let data := occurrence_table
                  (build_index (findall (pattern_of use_lenient))
                     (readable input_dir d)) in
    match write_chunks (json_chunks data) with
    | (text, true) =>
        (unreadable input_dir d
           ++ [ExtractedOccurrences (length data) output_file], text)
    | (text, false) => (unreadable input_dir d ++ [UnicodeEncodeError], text)
    end.
Proof.
  intros Hout. unfold extract_urls_from_directory.
  fold (pattern_of use_lenient). by rewrite scan_directory_readable, Hout.
Qed.

(** With the plain output the text written is the same for every order in
    which [os.listdir] returns the files. *)
Lemma plain_output_order_independent (d1 d2 : directory)
    (input_dir output_file : str) (use_lenient : bool) :
  d1 ≡ₚ d2 →
  endswith (lower output_file) (py ".json") = false →
  (extract_urls_from_directory d1 input_dir output_file use_lenient).2
  = (extract_urls_from_directory d2 input_dir output_file use_lenient).2.
Proof.
  intros Hp Hout. rewrite !extract_plain by done. cbn [snd].
  by apply unique_list_perm, readable_perm.
Qed.

(** C6. The same two files, listed in one order and in the other, with the
    JSON output: the index is the same mapping, and the text written is not
    the same, because the records follow the order of the first match. *)
Theorem json_output_depends_on_listing_order :
  let f1 : str * (OSError + list Byte.byte) :=
    (py "f1.txt", inr (bytes "http://b.com")) in
  let f2 : str * (OSError + list Byte.byte) :=
    (py "f2.txt", inr (bytes "http://a.com")) in
  let run d := extract_urls_from_directory d (py "texts") (py "urls.json") false in
  [f1; f2] ≡ₚ [f2; f1]
  ∧ (∀ u, get (scan_directory URL_REGEX (py "texts") [f1; f2]).1 u
          = get (scan_directory URL_REGEX (py "texts") [f2; f1]).1 u)
  ∧ (run [f1; f2]).2
    = json_dump [(py "http://b.com", py "texts/f1.txt");
                 (py "http://a.com", py "texts/f2.txt")]
  ∧ (run [f2; f1]).2
    = json_dump [(py "http://a.com", py "texts/f2.txt");
                 (py "http://b.com", py "texts/f1.txt")]
  ∧ (run [f1; f2]).2 ≠ (run [f2; f1]).2.
Proof.
  intros f1 f2 run. split; [apply Permutation_swap|]. split.
  - intros u. rewrite !scan_directory_readable. cbn [fst].
    apply get_build_index_perm, readable_perm, Permutation_swap.
  - split; [vm_compute; reflexivity|]. split; [vm_compute; reflexivity|].
    vm_compute. intros [=].
Qed.

(** ** C10: the two suffix tests *)

Lemma lower_app s1 s2 : lower (s1 ++ s2) = lower s1 ++ lower s2.
Proof. unfold lower. apply flat_map_app. Qed.

Lemma lower1_cases c :
  (∃ y, lower1 c = [y] ∧ ∀ x, plain x → x = y ↔ same_ci x c = true)
  ∨ (lower1 c = [0x69; 0x307]%N ∧ ∀ x, plain x → same_ci x c = false).
Proof.
  unfold lower1, same_ci, plain, is_upper, is_lower.
  destruct (decide (c = 0x130%N)) as [->|H130]; [right; split; [done|]|left].
  - intros x (Hx & _). apply orb_false_iff. split.
    + apply N.eqb_neq. lia.
    + apply andb_false_iff. right. apply N.eqb_neq. lia.
  - destruct ((0x41 <=? c)%N && (c <=? 0x5a)%N) eqn:Hup.
    + exists (c + 0x20)%N. split; [done|]. intros x (Hx & Hnu & _).
      apply andb_true_iff in Hup as [?%N.leb_le ?%N.leb_le].
      rewrite orb_true_iff, !andb_true_iff, !N.eqb_eq, !N.leb_le.
      apply andb_false_iff in Hnu. rewrite !N.leb_gt in Hnu. lia.
    + rewrite (proj2 (N.eqb_neq c 0x130)) by done.
      destruct (decide (c = 0x212a%N)) as [->|H212a].
      * exists 0x6b%N. split; [done|]. intros x (Hx & _ & _ & Hk).
        rewrite orb_true_iff, !andb_true_iff, !N.eqb_eq. lia.
      * rewrite (proj2 (N.eqb_neq c 0x212a)) by done.
        exists c. split; [done|]. intros x (Hx & Hnu & _).
        apply andb_false_iff in Hup. rewrite !N.leb_gt in Hup.
        rewrite orb_true_iff, !andb_true_iff, !N.eqb_eq, !N.leb_le. lia.
Qed.

Lemma suffix_lower_snoc w x s :
  plain x →
  w ++ [x] `suffix_of` lower s
  ↔ ∃ s' c, s = s' ++ [c] ∧ same_ci x c = true ∧ w `suffix_of` lower s'.
Proof.
  intros Hx. destruct s as [|c s' _] using rev_ind.
  - split.
    + intros Hsuf%suffix_nil_inv. by destruct w.
    + intros (s' & c & Hs & _). by destruct s'.
  - rewrite lower_app. unfold lower at 1. simpl. rewrite app_nil_r.
    destruct (lower1_cases c) as [(y & -> & Hy)|[-> Hy]].
    + split.
      * intros Hsuf. pose proof (suffix_snoc_inv_1 _ _ _ _ Hsuf) as ->.
        apply suffix_snoc_inv_2 in Hsuf. exists s', c.
        split; [done|]. split; [by apply Hy|done].
      * intros (s'' & c' & [-> ->]%app_inj_tail & Hc & Hsuf).
        apply Hy in Hc; [|done]. subst. by apply suffix_snoc.
    + split.
      * intros Hsuf. change [0x69; 0x307]%N with ([0x69] ++ [0x307])%N in Hsuf.
        rewrite app_assoc in Hsuf. apply suffix_snoc_inv_1 in Hsuf.
        destruct Hx as (Hx & _). subst. lia.
      * intros (s'' & c' & [-> ->]%app_inj_tail & Hc & _).
        rewrite Hy in Hc; done.
Qed.

Lemma ends_with_ci_snoc s w x :
  ends_with_ci s (w ++ [x])
  ↔ ∃ s' c, s = s' ++ [c] ∧ same_ci x c = true ∧ ends_with_ci s' w.
Proof.
  unfold ends_with_ci. split.
  - intros (stem & t & -> & Hall).
    apply Forall2_app_inv_l in Hall as (t1 & t2 & Ht1 & Ht2 & ->).
    apply Forall2_cons_inv_l in Ht2 as (c & t3 & Hc & ->%Forall2_nil_inv_l & ->).
    exists (stem ++ t1), c. rewrite app_assoc.
    split; [done|]. split; [done|]. by exists stem, t1.
  - intros (s' & c & -> & Hc & stem & t & -> & Hall).
    exists stem, (t ++ [c]). rewrite app_assoc. split; [done|].
    apply Forall2_app; [done|]. by constructor.
Qed.

(** The test [s.lower().endswith(w)] for a word of plain characters. *)
Lemma endswith_lower s w :
  Forall plain w → endswith (lower s) w = true ↔ ends_with_ci s w.
Proof.
  unfold endswith. rewrite bool_decide_eq_true.
  revert s. induction w as [|x w IH] using rev_ind; intros s Hw.
  - split; [|intros _; apply suffix_nil].
    intros _. exists s, []. rewrite app_nil_r. split; [done|constructor].
  - apply Forall_app in Hw as [Hw Hx]. apply Forall_inv in Hx.
    rewrite suffix_lower_snoc, ends_with_ci_snoc by done.
    by setoid_rewrite (IH _ Hw).
Qed.

Lemma plain_txt : Forall plain (py ".txt").
Proof. repeat constructor; try done; unfold N.lt; done. Qed.

Lemma plain_json : Forall plain (py ".json").
Proof. repeat constructor; try done; unfold N.lt; done. Qed.

(** C10. Both suffix tests ignore case. A file of the directory is scanned
    exactly when its name ends with [.txt] in any mix of cases, so [DOC.TXT]
    is scanned; the occurrence table is written as JSON exactly when the name
    of the output file ends with [.json] in any mix of cases, so [out.JSON]
    selects it, and every other name selects the unique list. *)
Theorem suffix_tests_ignore_case :
  (∀ filename, is_text_file filename = true ↔ ends_with_ci filename (py ".txt"))
  ∧ (∀ regex input_dir st filename opened,
       ¬ ends_with_ci filename (py ".txt") →
       scan_entry regex input_dir st (filename, opened) = st)
  ∧ (∀ regex input_dir occ out filename bs,
       ends_with_ci filename (py ".txt") →
       scan_entry regex input_dir (occ, out) (filename, inr bs)
       = (add_found (path_join input_dir filename)
            (findall regex (read_text bs)) occ, out))
  ∧ (∀ d input_dir output_file use_lenient,
       let occ := (scan_directory (pattern_of use_lenient) input_dir d).1 in
       (ends_with_ci output_file (py ".json") →
        (extract_urls_from_directory d input_dir output_file use_lenient).2
          `prefix_of` json_dump (occurrence_table occ)
        ∧ ((extract_urls_from_directory d input_dir output_file use_lenient).2
           = json_dump (occurrence_table occ)
           ↔ Forall (λ r, Forall scalar r.2) (occurrence_table occ)))
       ∧ (¬ ends_with_ci output_file (py ".json") →
          (extract_urls_from_directory d input_dir output_file use_lenient).2
          = unique_list occ))
  ∧ is_text_file (py "DOC.TXT") = true
  ∧ endswith (lower (py "out.JSON")) (py ".json") = true.
Proof.
  split_and!.
  - intros filename. apply endswith_lower, plain_txt.
  - intros regex input_dir [occ out] filename opened Hno.
    unfold scan_entry. fold (is_text_file filename).
    destruct (is_text_file filename) eqn:Htxt; [|done].
    destruct Hno. by apply (endswith_lower _ _ plain_txt).
  - intros regex input_dir occ out filename bs Hyes.
    apply (endswith_lower _ _ plain_txt) in Hyes.
    unfold scan_entry. by rewrite Hyes.
  - intros d input_dir output_file use_lenient occ.
    subst occ. rewrite scan_directory_readable. cbn [fst].
    pose proof (endswith_lower output_file _ plain_json) as Hjson.
    destruct (endswith (lower output_file) (py ".json")) eqn:Hout.
    + split; [intros _ | intros Hno; destruct Hno; by apply Hjson].
      rewrite extract_json by done. cbn zeta.
      pose proof (json_written (pattern_of use_lenient) input_dir d) as Hw.
      cbn zeta in Hw.
      destruct (write_chunks (json_chunks _)) as [text [|]]; simpl in *.
      * destruct Hw as [[= ->] Hpaths]. done.
      * destruct Hw as (Hpre & Hne & Hpaths). done.
    + split; [intros Hyes; apply Hjson in Hyes; done | intros _].
      by rewrite extract_plain.
  - vm_compute. reflexivity.
  - vm_compute. reflexivity.
Qed.

(** ** The matcher is sound for the language of a pattern *)

Section soundness.
Context {A : Type}.
Implicit Types (k : str → option A) (s w t : str).

Lemma rep_sound p lo hi s k x :
  rep p lo hi s k = Some x →
  ∃ w t, s = w ++ t ∧ Forall (λ c, p c = true) w ∧ lo ≤ length w
         ∧ within hi (length w) ∧ k t = Some x.
Proof.
  revert lo hi. induction s as [|c s IH]; intros lo hi Hrep.
  - simpl in Hrep. destruct lo; [|done].
    exists [], []. split_and!; try done. destruct hi; simpl; lia.
  - assert (match lo with O => k (c :: s) | S _ => None end = Some x →
            ∃ w t, c :: s = w ++ t ∧ Forall (λ c, p c = true) w
                   ∧ lo ≤ length w ∧ within hi (length w) ∧ k t = Some x)
      as Hstop.
    { destruct lo; [|done]. intros Hk. exists [], (c :: s).
      split_and!; try done. destruct hi; simpl; lia. }
    simpl in Hrep. destruct (p c) eqn:Hpc; [|by apply Hstop].
    destruct (may_repeat hi) eqn:Hhi; [|by apply Hstop]. simpl in Hrep.
    destruct (rep p (pred lo) (pred <$> hi) s k) as [y|] eqn:Hin;
      [|by apply Hstop].
    injection Hrep as ->.
    apply IH in Hin as (w & t & -> & Hw & Hlo & Hwithin & Hk).
    exists (c :: w), t. split_and!; try done.
    + by constructor.
    + simpl. lia.
    + destruct hi as [[|h]|]; simpl in *; try done. lia.
Qed.

Lemma bt_sound r s k x :
  bt r s k = Some x → ∃ w t, s = w ++ t ∧ lang r w ∧ k t = Some x.
Proof.
  revert s k. induction r as [|p|r1 IH1 r2 IH2|r1 IH1 r2 IH2|r IH|p lo hi];
  intros s k Hbt; simpl in Hbt.
  - by exists [], s.
  - destruct s as [|c s]; [done|]. destruct (p c) eqn:Hpc; [|done].
    exists [c], s. split_and!; try done. by exists c.
  - apply IH1 in Hbt as (w1 & t1 & -> & Hw1 & Hbt).
    apply IH2 in Hbt as (w2 & t2 & -> & Hw2 & Hk).
    exists (w1 ++ w2), t2. rewrite <- app_assoc. split_and!; try done.
    by exists w1, w2.
  - destruct (bt r1 s k) as [y|] eqn:H1.
    + injection Hbt as ->. apply IH1 in H1 as (w & t & -> & Hw & Hk).
      exists w, t. split_and!; try done. by left.
    + apply IH2 in Hbt as (w & t & -> & Hw & Hk).
      exists w, t. split_and!; try done. by right.
  - destruct (bt r s k) as [y|] eqn:H1.
    + injection Hbt as ->. apply IH in H1 as (w & t & -> & Hw & Hk).
      exists w, t. split_and!; try done. by right.
    + exists [], s. split_and!; try done. by left.
  - apply rep_sound in Hbt as (w & t & -> & Hw & Hlo & Hhi & Hk).
    exists w, t. split_and!; done.
Qed.
End soundness.

Lemma match_at_sound r s m :
  match_at r s = Some m → lang r m ∧ ∃ t, s = m ++ t.
Proof.
  unfold match_at. intros Hm.
  destruct (bt r s Some) as [t|] eqn:Hbt; [|done]. injection Hm as <-.
  apply bt_sound in Hbt as (w & t' & -> & Hw & [= ->]).
  rewrite length_app, Nat.add_sub, take_app_length. eauto.
Qed.

(** Every string [findall] returns is matched in full by the pattern. *)
Lemma scan_sound r s n : Forall (lang r) (scan r s n).
Proof.
  revert n. induction s as [|c s IH]; intros n; simpl; [constructor|].
  destruct n as [|n]; [|apply IH].
  destruct (match_at r (c :: s)) as [[|c' m]|] eqn:Hm; try apply IH.
  constructor; [|apply IH]. by apply match_at_sound in Hm as [? _].
Qed.

Lemma findall_sound r s : Forall (lang r) (findall r s).
Proof. apply scan_sound. Qed.

Lemma lang_literal (w t : str) :
  lang (foldr (λ c r, Seq (Chr (ic c)) r) Eps w) t ↔ eq_ci w t.
Proof.
  unfold eq_ci. revert t. induction w as [|x w IH]; intros t; simpl.
  - split; [intros ->; constructor | by intros ->%Forall2_nil_inv_l].
  - split.
    + intros (w1 & w2 & -> & (c & -> & Hc) & Hw2). constructor; [done|].
      by apply IH.
    + intros (c & t' & Hc & Ht' & ->)%Forall2_cons_inv_l.
      exists [c], t'. split_and!; try done; [by exists c | by apply IH].
Qed.

Lemma lang_lit (w : string) (t : str) : lang (lit w) t ↔ eq_ci (py w) t.
Proof. apply lang_literal. Qed.

(** ** C8: the shape of a lenient match *)

Lemma ic_dot c : ic Ch.dot c = true ↔ c = Ch.dot.
Proof.
  unfold ic. change (is_lower Ch.dot) with false.
  change (Ch.dot =? 0x73)%N with false. change (Ch.dot =? 0x6b)%N with false.
  change (Ch.dot =? 0x69)%N with false. simpl.
  rewrite !orb_false_r. apply N.eqb_eq.
Qed.

Lemma ic_slash c : ic Ch.slash c = true ↔ c = Ch.slash.
Proof.
  unfold ic. change (is_lower Ch.slash) with false.
  change (Ch.slash =? 0x73)%N with false. change (Ch.slash =? 0x6b)%N with false.
  change (Ch.slash =? 0x69)%N with false. simpl.
  rewrite !orb_false_r. apply N.eqb_eq.
Qed.

Lemma lang_http_scheme w :
  lang (Seq (lit "http") (Seq (Opt (Chr (ic 0x73))) (lit "://"))) w →
  eq_ci (py "http://") w ∨ eq_ci (py "https://") w.
Proof.
  intros (w1 & w2 & -> & H1%lang_lit & w3 & w4 & -> & Hs & H4%lang_lit).
  destruct Hs as [->|(c & -> & Hc)].
  - left. simpl. change (py "http://") with (py "http" ++ py "://").
    by apply Forall2_app.
  - right. change (py "https://") with (py "http" ++ [0x73%N] ++ py "://").
    apply Forall2_app; [done|]. apply Forall2_app; [|done].
    by repeat constructor.
Qed.

Lemma lang_LENIENT_SCHEME w :
  lang LENIENT_SCHEME w → w = [] ∨ prefix_among lenient_prefixes w.
Proof.
  unfold prefix_among, lenient_prefixes.
  intros [->|[Hhttp|[Hwww%lang_lit|Hftp%lang_lit]]]; [by left|right..].
  - apply lang_http_scheme in Hhttp as [H|H];
      [exists (py "http://") | exists (py "https://")]; split; try done;
      set_solver.
  - exists (py "www."). split; [set_solver | done].
  - exists (py "ftp://"). split; [set_solver | done].
Qed.

Lemma lang_LENIENT_PATH w : lang LENIENT_PATH w → path_part w.
Proof.
  intros [->|(w1 & w2 & -> & (c & -> & Hc%ic_slash) & Hw2 & _)]; [by left|].
  right. subst. by exists w2.
Qed.

Lemma lang_LENIENT_URL_REGEX m : lang LENIENT_URL_REGEX m → lenient_shape m.
Proof.
  intros (sch & w & -> & Hsch%lang_LENIENT_SCHEME & w1 & path & ->
          & Hdom & Hpath%lang_LENIENT_PATH).
  destruct Hdom as (dom & w2 & -> & (Hdom & Hlen & _) & w3 & tld & ->
                    & (c & -> & ->%ic_dot) & Htld & Hlo & Hhi).
  exists sch, dom, tld, path. rewrite <- !app_assoc. split_and!; try done.
  intros ->. simpl in Hlen. lia.
Qed.

(** C8. Every string the lenient matcher returns is made of an optional
    prefix among [http://], [https://], [www.] and [ftp://] in any mix of
    cases, then a run of one or more letters, digits, dots and hyphens, then a
    dot and a top-level label of two to six letters, then an optional path
    that starts with a slash and holds no white space, quote or angle
    bracket. The run before the last dot may hold dots anywhere: the labels
    it is cut into may be empty. *)
Theorem lenient_matches_shape (text : str) :
  Forall lenient_shape (matchLenient text).
Proof.
  eapply Forall_impl; [apply findall_sound|]. apply lang_LENIENT_URL_REGEX.
Qed.

Lemma eq_ci_head w sch :
  eq_ci w sch → w ≠ [] →
  ∃ x w' c sch', w = x :: w' ∧ sch = c :: sch' ∧ ic x c = true.
Proof.
  intros Hci Hw. destruct Hci as [|x c w' sch' Hc _]; [done|].
  by exists x, w', c, sch'.
Qed.

(** The lenient matcher returns [a..com], in which the label between the two
    dots is empty. *)
Lemma lenient_match_with_empty_label :
  matchLenient (py "a..com") = [py "a..com"]
  ∧ ¬ Forall labelled_shape (matchLenient (py "a..com")).
Proof.
  assert (matchLenient (py "a..com") = [py "a..com"]) as Hm
    by (vm_compute; reflexivity).
  split; [exact Hm|]. rewrite Hm. intros Hall. apply Forall_inv in Hall.
  destruct Hall as (sch & labels & tld & path & Heq & Hsch & Hne & Hlab
                    & [Htld Hletters] & _).
  assert (py "a..com" = [0x61; 0x2e; 0x2e; 0x63; 0x6f; 0x6d]%N) as Hpy
    by (vm_compute; reflexivity).
  rewrite Hpy in Heq. clear Hpy Hm.
  destruct Hsch as [->|(w & Hw & Hci)].
  - destruct labels as [|l ls]; [done|].
    apply Forall_cons in Hlab as [[Hl Hlc] Hls].
    destruct l as [|c l]; [done|]. simpl in Heq. injection Heq as Hc0 Heq; subst c.
    apply Forall_cons in Hlc as [_ Hlc].
    destruct l as [|c l].
    + simpl in Heq. injection Heq as Heq.
      destruct ls as [|l2 ls].
      * simpl in Heq. destruct tld as [|c tld]; [simpl in Htld; lia|].
        injection Heq as Hc0 _; subst c. apply Forall_cons in Hletters as [Hc _]. done.
      * apply Forall_cons in Hls as [[Hl2 Hl2c] _].
        destruct l2 as [|c l2]; [done|]. simpl in Heq. injection Heq as Hc0 _; subst c.
        apply Forall_cons in Hl2c as [Hc _]. done.
    + simpl in Heq. injection Heq as Hc0 _; subst c.
      apply Forall_cons in Hlc as [Hc _]. done.
  - assert (w ≠ []) as Hwne.
    { unfold lenient_prefixes in Hw. set_unfold.
      destruct Hw as [-> | [-> | [-> | [-> | []]]]]; done. }
    destruct (eq_ci_head _ _ Hci Hwne) as (x & w' & c & sch' & -> & -> & Hc).
    simpl in Heq. injection Heq as Hc0 _; subst c.
    unfold lenient_prefixes in Hw. set_unfold.
    destruct Hw as [Hw|[Hw|[Hw|[Hw|[]]]]]; injection Hw as Hx _; subst x; done.
Qed.

(** ** The characters of a match *)


Lemma body_char_spec c :
  body_char c = true ↔
  is_space c = false ∧ c ≠ Ch.dquote ∧ c ≠ Ch.squote ∧ c ≠ Ch.lt ∧ c ≠ Ch.gt.
Proof. unfold body_char. bool_to_prop. tauto. Qed.

Lemma letter_body_char c : letter c = true → body_char c = true.
Proof.
  unfold letter, body_char, is_space, is_lower, is_upper, Ch.dquote, Ch.squote,
    Ch.lt, Ch.gt.
  bool_to_prop. lia.
Qed.

Lemma domain_char_body_char c : domain_char c = true → body_char c = true.
Proof.
  unfold domain_char. rewrite !orb_true_iff.
  intros [[[?|Hd]|Hd]|Hd]; [by apply letter_body_char|..]; revert Hd;
    unfold body_char, is_space, is_digit, Ch.dquote, Ch.squote, Ch.lt, Ch.gt,
      Ch.dot, Ch.minus;
    bool_to_prop; lia.
Qed.

Lemma ic_body_char x c :
  ic x c = true → body_char x = true → body_char c = true.
Proof.
  unfold ic. rewrite !orb_true_iff, !andb_true_iff.
  intros [[[[->%N.eqb_eq|[Hlow Hc]]|[_ Hc]]|[_ Hc]]|[_ Hc]] Hx; [done|..];
    revert Hc; try revert Hlow;
    unfold body_char, is_space, is_lower, Ch.dquote, Ch.squote, Ch.lt, Ch.gt;
    bool_to_prop; lia.
Qed.

Lemma eq_ci_body_char w t :
  eq_ci w t → Forall (λ c, body_char c = true) w →
  Forall (λ c, body_char c = true) t.
Proof.
  induction 1 as [|x c w t Hc _ IH]; intros Hw; [constructor|].
  apply Forall_cons in Hw as [Hx Hw]. constructor; eauto using ic_body_char.
Qed.

Lemma prefix_among_body_char sch :
  prefix_among lenient_prefixes sch → Forall (λ c, body_char c = true) sch.
Proof.
  intros (w & Hw & Hci). apply (eq_ci_body_char _ _ Hci).
  unfold lenient_prefixes in Hw. set_unfold.
  destruct Hw as [-> | [-> | [-> | [-> | []]]]];
    apply (bool_decide_unpack _); vm_compute; exact I.
Qed.

Lemma path_part_body_char path :
  path_part path → Forall (λ c, body_char c = true) path.
Proof.
  intros [->|(p & -> & Hp)]; constructor; [|done]. vm_compute. reflexivity.
Qed.

Lemma lenient_shape_body_char m :
  lenient_shape m → Forall (λ c, body_char c = true) m.
Proof.
  intros (sch & dom & tld & path & -> & Hsch & _ & Hdom & [_ Htld] & Hpath).
  rewrite !Forall_app, Forall_cons, Forall_app. split_and!.
  - destruct Hsch as [->|Hsch]; [constructor|by apply prefix_among_body_char].
  - eapply Forall_impl; [exact Hdom|]. apply domain_char_body_char.
  - vm_compute. reflexivity.
  - eapply Forall_impl; [exact Htld|]. apply letter_body_char.
  - by apply path_part_body_char.
Qed.

Lemma lang_STRICT_SCHEME w :
  lang STRICT_SCHEME w → prefix_among strict_prefixes w.
Proof.
  unfold prefix_among, strict_prefixes. intros [Hhttp|Hwww%lang_lit].
  - apply lang_http_scheme in Hhttp as [H|H];
      [exists (py "http://") | exists (py "https://")]; split; try done;
      set_solver.
  - exists (py "www."). split; [set_solver | done].
Qed.

Lemma lang_URL_REGEX m : lang URL_REGEX m → strict_shape m.
Proof.
  intros (sch & body & -> & Hsch%lang_STRICT_SCHEME & Hbody & Hlen & _).
  exists sch, body. split_and!; try done. intros ->. simpl in Hlen. lia.
Qed.

Lemma strict_prefix_lenient sch :
  prefix_among strict_prefixes sch → prefix_among lenient_prefixes sch.
Proof.
  intros (w & Hw & Hci). exists w. split; [|done].
  unfold strict_prefixes, lenient_prefixes in *. set_solver.
Qed.

Lemma strict_shape_body_char m :
  strict_shape m → Forall (λ c, body_char c = true) m.
Proof.
  intros (sch & body & -> & Hsch & _ & Hbody). apply Forall_app. split; [|done].
  by apply prefix_among_body_char, strict_prefix_lenient.
Qed.

(** Under either pattern a match holds no white space, quote or angle
    bracket. *)
Lemma findall_body_char use_lenient text :
  Forall (Forall (λ c, body_char c = true))
    (findall (pattern_of use_lenient) text).
Proof.
  eapply Forall_impl; [apply findall_sound|]. intros m Hm.
  destruct use_lenient.
  - by apply lenient_shape_body_char, lang_LENIENT_URL_REGEX.
  - by apply strict_shape_body_char, lang_URL_REGEX.
Qed.

(** The keys of an index the script builds hold no line feed: each is
    written on one line of the unique list. *)
Lemma keys_no_line_feed use_lenient files :
  Forall (λ u, Ch.nl ∉ u)
    (keys (build_index (findall (pattern_of use_lenient)) files)).
Proof.
  apply Forall_forall. intros u Hu.
  apply elem_of_keys_build_index in Hu as (f & c & _ & Hu).
  pose proof (findall_body_char use_lenient c) as Hall.
  rewrite Forall_forall in Hall. apply Hall in Hu.
  intros Hnl. rewrite Forall_forall in Hu. apply Hu in Hnl. done.
Qed.

(** ** How the matcher runs on a text of known shape *)

Section running.
Context {A : Type}.
Implicit Types (k : str → option A) (s w rest : str).










End running.

Lemma ic_colon c : ic 0x3a c = true ↔ c = 0x3a%N.
Proof.
  unfold ic. change (is_lower 0x3a) with false.
  change (0x3a =? 0x73)%N with false. change (0x3a =? 0x6b)%N with false.
  change (0x3a =? 0x69)%N with false. simpl.
  rewrite !orb_false_r. apply N.eqb_eq.
Qed.











(** ** C2: the strict and the lenient matcher on the same text *)

Lemma eq_ci_elem w t x :
  eq_ci w t → x ∈ w → (∀ c, ic x c = true → c = x) → x ∈ t.
Proof.
  induction 1 as [|y c w t Hc _ IH]; intros Hx Hic.
  - by apply elem_of_nil in Hx.
  - apply elem_of_cons in Hx as [->|Hx].
    + apply Hic in Hc as ->. apply list_elem_of_here.
    + apply list_elem_of_further. by apply IH.
Qed.

Lemma prefix_among_mark sch :
  prefix_among lenient_prefixes sch → Ch.dot ∈ sch ∨ colon ∈ sch.
Proof.
  intros (w & Hw & Hci). unfold lenient_prefixes in Hw.
  assert (Ch.dot ∈ w ∨ colon ∈ w) as [Hm|Hm].
  { repeat (apply elem_of_cons in Hw as [->|Hw]);
      [right|right|left|right|by apply elem_of_nil in Hw];
      apply (bool_decide_unpack _); vm_compute; exact I. }
  - left. apply (eq_ci_elem _ _ _ Hci Hm). intros c. apply ic_dot.
  - right. apply (eq_ci_elem _ _ _ Hci Hm). intros c. apply ic_colon.
Qed.

(** What either pattern matches at the start of a text: a string that is not
    empty, of body characters, with a dot or a colon in it. *)
Lemma match_at_mark use_lenient s m :
  match_at (pattern_of use_lenient) s = Some m →
  m ≠ [] ∧ Forall (λ c, body_char c = true) m
  ∧ (Ch.dot ∈ m ∨ colon ∈ m) ∧ ∃ t, s = m ++ t.
Proof.
  intros [Hlang Hpre]%match_at_sound. destruct use_lenient; simpl in Hlang.
  - apply lang_LENIENT_URL_REGEX in Hlang.
    split_and!; [| by apply lenient_shape_body_char | | done];
      destruct Hlang as (sch & dom & tld & path & -> & _ & Hne & _).
    + destruct sch, dom; done.
    + left. set_solver.
  - apply lang_URL_REGEX in Hlang.
    split_and!; [| by apply strict_shape_body_char | | done];
      destruct Hlang as (sch & body & -> & Hsch & Hne & _).
    + destruct sch, body; done.
    + apply strict_prefix_lenient, prefix_among_mark in Hsch. set_solver.
Qed.






Lemma scan_delimiter use_lenient c s :
  body_char c = false →
  scan (pattern_of use_lenient) (c :: s) 0 = scan (pattern_of use_lenient) s 0.
Proof.
  intros Hc. simpl.
  destruct (match_at _ (c :: s)) as [m|] eqn:Hm; [|done].
  apply match_at_mark in Hm as (Hne & Hmb & _ & t & Heq).
  destruct m as [|c' m]; [done|]. injection Heq as <- _.
  apply Forall_cons in Hmb as [Hc' _]. congruence.
Qed.








(** ** C9: malformed UTF-8 *)

Ltac lia_div := zify; Z.to_euclidean_division_equations; lia.

Ltac decide_cmp :=
  repeat match goal with
    | |- context [(?a <? ?b)%N] =>
        first [ rewrite (proj2 (N.ltb_lt a b)) by lia_div
              | rewrite (proj2 (N.ltb_ge a b)) by lia_div ]
    | |- context [(?a <=? ?b)%N] =>
        first [ rewrite (proj2 (N.leb_le a b)) by lia_div
              | rewrite (proj2 (N.leb_gt a b)) by lia_div ]
    | |- context [(?a =? ?b)%N] =>
        first [ rewrite (proj2 (N.eqb_eq a b)) by lia_div
              | rewrite (proj2 (N.eqb_neq a b)) by lia_div ]
    end.

(** Decoding gives back an encoded scalar value, whatever the handler. *)
Lemma utf8_decode_encode_char h c rest :
  scalar c →
  utf8_decode h (utf8_encode_char c ++ rest) = c :: utf8_decode h rest.
Proof.
  unfold scalar, utf8_encode_char. intros Hc.
  destruct (N.ltb_spec c 0x80) as [H1|H1];
    [|destruct (N.ltb_spec c 0x800) as [H2|H2];
      [|destruct (N.ltb_spec c 0x10000) as [H3|H3]]];
    cbn [app utf8_decode]; unfold is_continuation; decide_cmp;
    cbn [negb andb orb];
    repeat match goal with
      | |- context [if ?b then _ else _] =>
          let H := fresh in
          assert (b = false) as H by (bool_to_prop; lia_div);
          rewrite H; clear H
      end;
    f_equal; lia_div.
Qed.

Lemma utf8_decode_encode h t rest :
  Forall scalar t →
  utf8_decode h (utf8_encode t ++ rest) = t ++ utf8_decode h rest.
Proof.
  induction 1 as [|c t Hc _ IH]; [done|].
  unfold utf8_encode. simpl. rewrite <- app_assoc.
  rewrite utf8_decode_encode_char by done. f_equal. apply IH.
Qed.

(** An encoded text starts with a lead byte, never with a continuation
    byte. *)
Lemma utf8_encode_stops t : stops is_continuation (utf8_encode t).
Proof.
  destruct t as [|c t]; [done|].
  unfold utf8_encode. simpl. unfold utf8_encode_char.
  destruct (N.ltb_spec c 0x80) as [H1|H1];
    [|destruct (N.ltb_spec c 0x800) as [H2|H2];
      [|destruct (N.ltb_spec c 0x10000) as [H3|H3]]];
    simpl; unfold is_continuation; bool_to_prop; lia_div.
Qed.

(** *** The encodings, byte by byte *)

Lemma utf8_encode_char_2 b0 b1 :
  (0xc2 ≤ b0 < 0xe0)%N → is_continuation b1 = true →
  scalar ((b0 - 0xc0) * 0x40 + (b1 - 0x80))%N
  ∧ utf8_encode_char ((b0 - 0xc0) * 0x40 + (b1 - 0x80))%N = [b0; b1].
Proof.
  unfold is_continuation, scalar, utf8_encode_char. bool_to_prop.
  intros Hb0 Hb1. split; [lia|]. decide_cmp. f_equal; [|f_equal]; lia_div.
Qed.

Lemma utf8_encode_char_3 b0 b1 b2 :
  (0xe0 ≤ b0 < 0xf0)%N → unfit3 b0 b1 = false → is_continuation b2 = true →
  scalar ((b0 - 0xe0) * 0x1000 + (b1 - 0x80) * 0x40 + (b2 - 0x80))%N
  ∧ utf8_encode_char
      ((b0 - 0xe0) * 0x1000 + (b1 - 0x80) * 0x40 + (b2 - 0x80))%N
    = [b0; b1; b2].
Proof.
  unfold unfit3, is_continuation, scalar, utf8_encode_char. bool_to_prop.
  intros Hb0 Hb1 Hb2. split; [lia|]. decide_cmp.
  f_equal; [|f_equal; [|f_equal]]; lia_div.
Qed.

Lemma utf8_encode_char_4 b0 b1 b2 b3 :
  (0xf0 ≤ b0 < 0xf5)%N → unfit4 b0 b1 = false →
  is_continuation b2 = true → is_continuation b3 = true →
  scalar ((b0 - 0xf0) * 0x40000 + (b1 - 0x80) * 0x1000 + (b2 - 0x80) * 0x40
          + (b3 - 0x80))%N
  ∧ utf8_encode_char
      ((b0 - 0xf0) * 0x40000 + (b1 - 0x80) * 0x1000 + (b2 - 0x80) * 0x40
       + (b3 - 0x80))%N
    = [b0; b1; b2; b3].
Proof.
  unfold unfit4, is_continuation, scalar, utf8_encode_char. bool_to_prop.
  intros Hb0 Hb1 Hb2 Hb3. split; [lia|]. decide_cmp.
  f_equal; [|f_equal; [|f_equal; [|f_equal]]]; lia_div.
Qed.

(** The four forms of the encoding of a scalar value. *)
Lemma utf8_encode_char_cases c :
  scalar c →
  ((c < 0x80)%N ∧ utf8_encode_char c = [c])
  ∨ (∃ b0 b1,
       utf8_encode_char c = [b0; b1] ∧ (0xc2 ≤ b0 < 0xe0)%N
       ∧ is_continuation b1 = true)
  ∨ (∃ b0 b1 b2,
       utf8_encode_char c = [b0; b1; b2] ∧ (0xe0 ≤ b0 < 0xf0)%N
       ∧ unfit3 b0 b1 = false ∧ is_continuation b2 = true)
  ∨ (∃ b0 b1 b2 b3,
       utf8_encode_char c = [b0; b1; b2; b3] ∧ (0xf0 ≤ b0 < 0xf5)%N
       ∧ unfit4 b0 b1 = false ∧ is_continuation b2 = true
       ∧ is_continuation b3 = true).
Proof.
  unfold scalar, utf8_encode_char. intros Hc.
  destruct (N.ltb_spec c 0x80) as [H1|H1]; [by left|]. right.
  destruct (N.ltb_spec c 0x800) as [H2|H2].
  { left. eexists _, _. split; [done|].
    unfold is_continuation. bool_to_prop. lia_div. }
  right. destruct (N.ltb_spec c 0x10000) as [H3|H3].
  { left. eexists _, _, _. split; [done|].
    unfold unfit3, is_continuation. bool_to_prop. lia_div. }
  right. eexists _, _, _, _. split; [done|].
  unfold unfit4, is_continuation. bool_to_prop. lia_div.
Qed.

(** *** The decoder in front of a malformed sequence *)

Lemma utf8_decode_stray_byte h b rest :
  stray b → utf8_decode h (b :: rest) = on_error h ++ utf8_decode h rest.
Proof.
  unfold stray. intros Hb. cbn [utf8_decode]. destruct Hb as [Hb|Hb].
  - by rewrite (proj2 (N.ltb_ge b 0x80)), (proj2 (N.ltb_lt b 0xc2)) by lia.
  - by rewrite (proj2 (N.ltb_ge b 0x80)), (proj2 (N.ltb_ge b 0xc2)),
      (proj2 (N.ltb_ge b 0xe0)), (proj2 (N.ltb_ge b 0xf0)),
      (proj2 (N.ltb_ge b 0xf5)) by lia.
Qed.

Lemma utf8_decode_cut_2 h b0 rest :
  (0xc2 ≤ b0 < 0xe0)%N → stops is_continuation rest →
  utf8_decode h (b0 :: rest) = on_error h ++ utf8_decode h rest.
Proof.
  intros Hb0 Hrest. cbn [utf8_decode].
  rewrite (proj2 (N.ltb_ge b0 0x80)), (proj2 (N.ltb_ge b0 0xc2)),
    (proj2 (N.ltb_lt b0 0xe0)) by lia.
  destruct rest as [|b1 r1]; [by rewrite app_nil_r|].
  simpl in Hrest. by rewrite Hrest.
Qed.

Lemma utf8_decode_cut_3 h b0 rest :
  (0xe0 ≤ b0 < 0xf0)%N →
  match rest with [] => True | b1 :: _ => unfit3 b0 b1 = true end →
  utf8_decode h (b0 :: rest) = on_error h ++ utf8_decode h rest.
Proof.
  intros Hb0 Hrest. cbn [utf8_decode].
  rewrite (proj2 (N.ltb_ge b0 0x80)), (proj2 (N.ltb_ge b0 0xc2)),
    (proj2 (N.ltb_ge b0 0xe0)), (proj2 (N.ltb_lt b0 0xf0)) by lia.
  destruct rest as [|b1 r1]; [by rewrite app_nil_r|].
  unfold unfit3 in Hrest. by rewrite Hrest.
Qed.

Lemma utf8_decode_cut_3_2 h b0 b1 rest :
  (0xe0 ≤ b0 < 0xf0)%N → unfit3 b0 b1 = false →
  stops is_continuation rest →
  utf8_decode h (b0 :: b1 :: rest) = on_error h ++ utf8_decode h rest.
Proof.
  intros Hb0 Hb1 Hrest. cbn [utf8_decode].
  rewrite (proj2 (N.ltb_ge b0 0x80)), (proj2 (N.ltb_ge b0 0xc2)),
    (proj2 (N.ltb_ge b0 0xe0)), (proj2 (N.ltb_lt b0 0xf0)) by lia.
  unfold unfit3 in Hb1. rewrite Hb1.
  destruct rest as [|b2 r2]; [by rewrite app_nil_r|].
  simpl in Hrest. by rewrite Hrest.
Qed.

Lemma utf8_decode_cut_4 h b0 rest :
  (0xf0 ≤ b0 < 0xf5)%N →
  match rest with [] => True | b1 :: _ => unfit4 b0 b1 = true end →
  utf8_decode h (b0 :: rest) = on_error h ++ utf8_decode h rest.
Proof.
  intros Hb0 Hrest. cbn [utf8_decode].
  rewrite (proj2 (N.ltb_ge b0 0x80)), (proj2 (N.ltb_ge b0 0xc2)),
    (proj2 (N.ltb_ge b0 0xe0)), (proj2 (N.ltb_ge b0 0xf0)),
    (proj2 (N.ltb_lt b0 0xf5)) by lia.
  destruct rest as [|b1 r1]; [by rewrite app_nil_r|].
  unfold unfit4 in Hrest. by rewrite Hrest.
Qed.

Lemma utf8_decode_cut_4_2 h b0 b1 rest :
  (0xf0 ≤ b0 < 0xf5)%N → unfit4 b0 b1 = false →
  stops is_continuation rest →
  utf8_decode h (b0 :: b1 :: rest) = on_error h ++ utf8_decode h rest.
Proof.
  intros Hb0 Hb1 Hrest. cbn [utf8_decode].
  rewrite (proj2 (N.ltb_ge b0 0x80)), (proj2 (N.ltb_ge b0 0xc2)),
    (proj2 (N.ltb_ge b0 0xe0)), (proj2 (N.ltb_ge b0 0xf0)),
    (proj2 (N.ltb_lt b0 0xf5)) by lia.
  unfold unfit4 in Hb1. rewrite Hb1.
  destruct rest as [|b2 r2]; [by rewrite app_nil_r|].
  simpl in Hrest. by rewrite Hrest.
Qed.

Lemma utf8_decode_cut_4_3 h b0 b1 b2 rest :
  (0xf0 ≤ b0 < 0xf5)%N → unfit4 b0 b1 = false →
  is_continuation b2 = true → stops is_continuation rest →
  utf8_decode h (b0 :: b1 :: b2 :: rest) = on_error h ++ utf8_decode h rest.
Proof.
  intros Hb0 Hb1 Hb2 Hrest. cbn [utf8_decode].
  rewrite (proj2 (N.ltb_ge b0 0x80)), (proj2 (N.ltb_ge b0 0xc2)),
    (proj2 (N.ltb_ge b0 0xe0)), (proj2 (N.ltb_ge b0 0xf0)),
    (proj2 (N.ltb_lt b0 0xf5)) by lia.
  unfold unfit4 in Hb1. rewrite Hb1, Hb2. cbn [negb].
  destruct rest as [|b3 r3]; [by rewrite app_nil_r|].
  simpl in Hrest. by rewrite Hrest.
Qed.

Lemma utf8_decode_malformed h m rest :
  malformed m rest →
  utf8_decode h (m ++ rest) = on_error h ++ utf8_decode h rest.
Proof.
  intros [(b & -> & Hb)|[(Hne & c & tail & Hc & Htail & Henc) Hcut]].
  { by apply utf8_decode_stray_byte. }
  destruct (utf8_encode_char_cases c Hc)
    as [[_ He]|[(b0 & b1 & He & Hb0 & Hb1)
               |[(b0 & b1 & b2 & He & Hb0 & Hb1 & Hb2)
                |(b0 & b1 & b2 & b3 & He & Hb0 & Hb1 & Hb2 & Hb3)]]];
    rewrite He in Henc.
  - destruct m as [|x0 [|x1 m]]; destruct tail; simplify_eq/=.
  - destruct m as [|x0 [|x1 [|x2 m]]]; destruct tail; simplify_eq/=.
    apply utf8_decode_cut_2; [done|].
    destruct rest as [|b rest']; [done|]. simpl.
    destruct (is_continuation b) eqn:Hb; [|done]. exfalso.
    apply (Hcut b rest' eq_refl).
    destruct (utf8_encode_char_2 x0 b Hb0 Hb) as [Hs He2].
    eexists _, []. split; [exact Hs|]. by rewrite He2.
  - destruct m as [|x0 [|x1 [|x2 [|x3 m]]]]; destruct tail; simplify_eq/=.
    + apply utf8_decode_cut_3; [done|].
      destruct rest as [|b rest']; [done|].
      destruct (unfit3 x0 b) eqn:Hb; [done|]. exfalso.
      apply (Hcut b rest' eq_refl).
      destruct (utf8_encode_char_3 x0 b 0x80 Hb0 Hb eq_refl) as [Hs He3].
      eexists _, [0x80%N]. split; [exact Hs|]. by rewrite He3.
    + apply utf8_decode_cut_3_2; [done..|].
      destruct rest as [|b rest']; [done|]. simpl.
      destruct (is_continuation b) eqn:Hb; [|done]. exfalso.
      apply (Hcut b rest' eq_refl).
      destruct (utf8_encode_char_3 x0 x1 b Hb0 Hb1 Hb) as [Hs He3].
      eexists _, []. split; [exact Hs|]. by rewrite He3.
  - destruct m as [|x0 [|x1 [|x2 [|x3 [|x4 m]]]]]; destruct tail;
      simplify_eq/=.
    + apply utf8_decode_cut_4; [done|].
      destruct rest as [|b rest']; [done|].
      destruct (unfit4 x0 b) eqn:Hb; [done|]. exfalso.
      apply (Hcut b rest' eq_refl).
      destruct (utf8_encode_char_4 x0 b 0x80 0x80 Hb0 Hb eq_refl eq_refl)
        as [Hs He4].
      eexists _, [0x80%N; 0x80%N]. split; [exact Hs|]. by rewrite He4.
    + apply utf8_decode_cut_4_2; [done..|].
      destruct rest as [|b rest']; [done|]. simpl.
      destruct (is_continuation b) eqn:Hb; [|done]. exfalso.
      apply (Hcut b rest' eq_refl).
      destruct (utf8_encode_char_4 x0 x1 b 0x80 Hb0 Hb1 Hb eq_refl)
        as [Hs He4].
      eexists _, [0x80%N]. split; [exact Hs|]. by rewrite He4.
    + apply utf8_decode_cut_4_3; [done..|].
      destruct rest as [|b rest']; [done|]. simpl.
      destruct (is_continuation b) eqn:Hb; [|done]. exfalso.
      apply (Hcut b rest' eq_refl).
      destruct (utf8_encode_char_4 x0 x1 x2 b Hb0 Hb1 Hb2 Hb) as [Hs He4].
      eexists _, []. split; [exact Hs|]. by rewrite He4.
Qed.

(** Decoding the pieces: the texts come back and every malformed sequence
    gives what the handler puts for it. *)
Lemma utf8_decode_segments h segs :
  segmented segs →
  utf8_decode h (segments_bytes segs) = segments_text (on_error h) segs.
Proof.
  induction segs as [|[t|m] segs IH]; [done|..]; intros [Hhead Htail];
    unfold segments_bytes, segments_text in *; cbn [flat_map segment_bytes
      segment_text].
  - by rewrite utf8_decode_encode, IH.
  - by rewrite utf8_decode_malformed, IH.
Qed.

(** *** Every list of bytes is made of such pieces *)

Lemma begins_encoding_inv b0 b1 m :
  begins_encoding (b0 :: b1 :: m) →
  ((0xc2 ≤ b0 < 0xe0)%N ∧ is_continuation b1 = true)
  ∨ ((0xe0 ≤ b0 < 0xf0)%N ∧ unfit3 b0 b1 = false
     ∧ match m with [] => True | b2 :: _ => is_continuation b2 = true end)
  ∨ ((0xf0 ≤ b0 < 0xf5)%N ∧ unfit4 b0 b1 = false
     ∧ match m with
       | [] => True
       | b2 :: m' =>
           is_continuation b2 = true
           ∧ match m' with
             | [] => True
             | b3 :: _ => is_continuation b3 = true
             end
       end).
Proof.
  intros (c & tail & Hc & He).
  destruct (utf8_encode_char_cases c Hc)
    as [[_ He']|[(x0 & x1 & He' & Hx0 & Hx1)
                |[(x0 & x1 & x2 & He' & Hx0 & Hx1 & Hx2)
                 |(x0 & x1 & x2 & x3 & He' & Hx0 & Hx1 & Hx2 & Hx3)]]];
    rewrite He' in He; simplify_eq/=.
  - by left.
  - right. left. split; [done|]. split; [done|].
    destruct m as [|y2 m]; [done|]. by simplify_eq/=.
  - right. right. split; [done|]. split; [done|].
    destruct m as [|y2 m]; [done|]. simplify_eq/=. split; [done|].
    destruct m as [|y3 m]; [done|]. by simplify_eq/=.
Qed.

Lemma truncated_2 b0 : (0xc2 ≤ b0 < 0xe0)%N → truncated [b0].
Proof.
  intros Hb0. split; [done|].
  destruct (utf8_encode_char_2 b0 0x80 Hb0 eq_refl) as [Hs He].
  eexists _, [0x80%N]. by split_and!.
Qed.

Lemma truncated_3_2 b0 b1 :
  (0xe0 ≤ b0 < 0xf0)%N → unfit3 b0 b1 = false → truncated [b0; b1].
Proof.
  intros Hb0 Hb1. split; [done|].
  destruct (utf8_encode_char_3 b0 b1 0x80 Hb0 Hb1 eq_refl) as [Hs He].
  eexists _, [0x80%N]. by split_and!.
Qed.

Lemma truncated_3 b0 : (0xe0 ≤ b0 < 0xf0)%N → truncated [b0].
Proof.
  intros Hb0. split; [done|].
  assert (∃ b1, unfit3 b0 b1 = false) as [b1 Hb1].
  { destruct (N.eqb_spec b0 0xe0) as [->|Hne]; [by exists 0xa0%N|].
    exists 0x80%N. unfold unfit3, is_continuation. bool_to_prop. lia. }
  destruct (utf8_encode_char_3 b0 b1 0x80 Hb0 Hb1 eq_refl) as [Hs He].
  eexists _, [b1; 0x80%N]. by split_and!.
Qed.

Lemma truncated_4_3 b0 b1 b2 :
  (0xf0 ≤ b0 < 0xf5)%N → unfit4 b0 b1 = false → is_continuation b2 = true →
  truncated [b0; b1; b2].
Proof.
  intros Hb0 Hb1 Hb2. split; [done|].
  destruct (utf8_encode_char_4 b0 b1 b2 0x80 Hb0 Hb1 Hb2 eq_refl) as [Hs He].
  eexists _, [0x80%N]. by split_and!.
Qed.

Lemma truncated_4_2 b0 b1 :
  (0xf0 ≤ b0 < 0xf5)%N → unfit4 b0 b1 = false → truncated [b0; b1].
Proof.
  intros Hb0 Hb1. split; [done|].
  destruct (utf8_encode_char_4 b0 b1 0x80 0x80 Hb0 Hb1 eq_refl eq_refl)
    as [Hs He].
  eexists _, [0x80%N; 0x80%N]. by split_and!.
Qed.

Lemma truncated_4 b0 : (0xf0 ≤ b0 < 0xf5)%N → truncated [b0].
Proof.
  intros Hb0. split; [done|].
  assert (∃ b1, unfit4 b0 b1 = false) as [b1 Hb1].
  { destruct (N.eqb_spec b0 0xf0) as [->|Hne]; [by exists 0x90%N|].
    exists 0x80%N. unfold unfit4, is_continuation. bool_to_prop. lia. }
  destruct (utf8_encode_char_4 b0 b1 0x80 0x80 Hb0 Hb1 eq_refl eq_refl)
    as [Hs He].
  eexists _, [b1; 0x80%N; 0x80%N]. by split_and!.
Qed.

(** Whatever the bytes, they are the encodings of texts with malformed
    sequences in between. *)
Lemma bytes_segmented (bs : list N) :
  ∃ segs, segmented segs ∧ segments_bytes segs = bs.
Proof.
  assert (∀ n bs, length bs ≤ n →
            ∃ segs, segmented segs ∧ segments_bytes segs = bs) as Hall;
    [|by apply (Hall (length bs))].
  clear bs. induction n as [|n IH]; intros [|b rest] Hlen; simpl in Hlen;
    try lia; try (by exists []).
  assert (∀ c r, scalar c → length r ≤ n →
            ∃ segs, segmented segs
                    ∧ segments_bytes segs = utf8_encode_char c ++ r) as Htext.
  { intros c r Hc Hr. destruct (IH r Hr) as (segs & Hsegs & Hbytes).
    exists (Text [c] :: segs). split; [split; [by constructor|done]|].
    unfold segments_bytes in *. cbn [flat_map segment_bytes].
    unfold utf8_encode. simpl. by rewrite app_nil_r, Hbytes. }
  assert (∀ m r, malformed m r → length r ≤ n →
            ∃ segs, segmented segs ∧ segments_bytes segs = m ++ r) as Hmal.
  { intros m r Hm Hr. destruct (IH r Hr) as (segs & Hsegs & Hbytes).
    exists (Malformed m :: segs). split; [split; [by rewrite Hbytes|done]|].
    unfold segments_bytes in *. cbn [flat_map segment_bytes].
    by rewrite Hbytes. }
  destruct (N.ltb_spec b 0x80) as [H1|H1].
  { destruct (Htext b rest) as (segs & Hsegs & Hbytes);
      [unfold scalar; lia|lia|].
    exists segs. split; [done|]. rewrite Hbytes. unfold utf8_encode_char.
    by rewrite (proj2 (N.ltb_lt b 0x80)). }
  destruct (N.ltb_spec b 0xc2) as [H2|H2].
  { apply (Hmal [b] rest); [|lia]. left. exists b. split; [done|].
    unfold stray. lia. }
  destruct (N.ltb_spec b 0xe0) as [H3|H3].
  { assert (0xc2 ≤ b < 0xe0)%N as Hb by lia.
    destruct rest as [|b1 r1].
    { apply (Hmal [b] []); [|simpl; lia]. right.
      split; [by apply truncated_2|done]. }
    simpl in Hlen. destruct (is_continuation b1) eqn:Hb1.
    - destruct (utf8_encode_char_2 b b1 Hb Hb1) as [Hs He].
      destruct (Htext _ r1 Hs) as (segs & Hsegs & Hbytes); [lia|].
      exists segs. split; [done|]. by rewrite Hbytes, He.
    - apply (Hmal [b] (b1 :: r1)); [|simpl; lia]. right.
      split; [by apply truncated_2|]. intros ? ? [= <- <-] Hbeg.
      apply begins_encoding_inv in Hbeg.
      destruct Hbeg as [[_ ?]|[[? _]|[? _]]]; [congruence|lia..]. }
  destruct (N.ltb_spec b 0xf0) as [H4|H4].
  { assert (0xe0 ≤ b < 0xf0)%N as Hb by lia.
    destruct rest as [|b1 r1].
    { apply (Hmal [b] []); [|simpl; lia]. right.
      split; [by apply truncated_3|done]. }
    simpl in Hlen. destruct (unfit3 b b1) eqn:Hb1.
    { apply (Hmal [b] (b1 :: r1)); [|simpl; lia]. right.
      split; [by apply truncated_3|]. intros ? ? [= <- <-] Hbeg.
      apply begins_encoding_inv in Hbeg.
      destruct Hbeg as [[? _]|[(_ & ? & _)|[? _]]]; [lia|congruence|lia]. }
    destruct r1 as [|b2 r2].
    { apply (Hmal [b; b1] []); [|simpl; lia]. right.
      split; [by apply truncated_3_2|done]. }
    simpl in Hlen. destruct (is_continuation b2) eqn:Hb2.
    - destruct (utf8_encode_char_3 b b1 b2 Hb Hb1 Hb2) as [Hs He].
      destruct (Htext _ r2 Hs) as (segs & Hsegs & Hbytes); [lia|].
      exists segs. split; [done|]. by rewrite Hbytes, He.
    - apply (Hmal [b; b1] (b2 :: r2)); [|simpl; lia]. right.
      split; [by apply truncated_3_2|]. intros ? ? [= <- <-] Hbeg.
      apply begins_encoding_inv in Hbeg.
      destruct Hbeg as [[? _]|[(_ & _ & ?)|[? _]]]; [lia|congruence|lia]. }
  destruct (N.ltb_spec b 0xf5) as [H5|H5].
  { assert (0xf0 ≤ b < 0xf5)%N as Hb by lia.
    destruct rest as [|b1 r1].
    { apply (Hmal [b] []); [|simpl; lia]. right.
      split; [by apply truncated_4|done]. }
    simpl in Hlen. destruct (unfit4 b b1) eqn:Hb1.
    { apply (Hmal [b] (b1 :: r1)); [|simpl; lia]. right.
      split; [by apply truncated_4|]. intros ? ? [= <- <-] Hbeg.
      apply begins_encoding_inv in Hbeg.
      destruct Hbeg as [[? _]|[[? _]|(_ & ? & _)]]; [lia|lia|congruence]. }
    destruct r1 as [|b2 r2].
    { apply (Hmal [b; b1] []); [|simpl; lia]. right.
      split; [by apply truncated_4_2|done]. }
    simpl in Hlen. destruct (is_continuation b2) eqn:Hb2; cycle 1.
    { apply (Hmal [b; b1] (b2 :: r2)); [|simpl; lia]. right.
      split; [by apply truncated_4_2|]. intros ? ? [= <- <-] Hbeg.
      apply begins_encoding_inv in Hbeg.
      destruct Hbeg as [[? _]|[[? _]|(_ & _ & ? & _)]];
        [lia|lia|congruence]. }
    destruct r2 as [|b3 r3].
    { apply (Hmal [b; b1; b2] []); [|simpl; lia]. right.
      split; [by apply truncated_4_3|done]. }
    simpl in Hlen. destruct (is_continuation b3) eqn:Hb3.
    - destruct (utf8_encode_char_4 b b1 b2 b3 Hb Hb1 Hb2 Hb3) as [Hs He].
      destruct (Htext _ r3 Hs) as (segs & Hsegs & Hbytes); [lia|].
      exists segs. split; [done|]. by rewrite Hbytes, He.
    - apply (Hmal [b; b1; b2] (b3 :: r3)); [|simpl; lia]. right.
      split; [by apply truncated_4_3|]. intros ? ? [= <- <-] Hbeg.
      apply begins_encoding_inv in Hbeg.
      destruct Hbeg as [[? _]|[[? _]|(_ & _ & _ & ?)]];
        [lia|lia|congruence]. }
  apply (Hmal [b] rest); [|lia]. left. exists b. split; [done|].
  unfold stray. lia.
Qed.

(** C9. When the bytes of a file hold malformed UTF-8 sequences, reading
    does not fail and the sequences are left out of the decoded content, not
    replaced. Whatever the bytes of the file, they are the encodings of
    texts with malformed sequences in between: stray bytes and truncated
    sequences of one, two or three bytes, cut by the end of the file or by a
    byte that does not go on with them. However the bytes are cut in such
    pieces, the content read is the texts put together with nothing in the
    place of the malformed sequences (and line ends translated), where the
    handler that replaces would put U+FFFD for each of them; and a text file
    with these bytes is read without a message and gives the index the
    matches of that content, and no other key, each with the path of the
    file. *)
Theorem malformed_utf8_ignored (bs : list Byte.byte) :
  (∃ segs, segmented segs ∧ segments_bytes segs = map Byte.to_N bs)
  ∧ ∀ segs,
      segmented segs → segments_bytes segs = map Byte.to_N bs →
      read_text bs = universal_newlines (segments_text [] segs)
      ∧ decode Replace bs
        = universal_newlines (segments_text [0xfffd%N] segs)
      ∧ ∀ regex input_dir filename,
          is_text_file filename = true →
          (scan_directory regex input_dir [(filename, inr bs)]).2 = []
          ∧ ∀ u,
              get (scan_directory regex input_dir [(filename, inr bs)]).1 u
              = if decide (u ∈ findall regex
                             (universal_newlines (segments_text [] segs)))
                then Some {[path_join input_dir filename]}
                else None.
Proof.
  split; [apply bytes_segmented|]. intros segs Hsegs Hbytes.
  assert (∀ h, decode h bs
               = universal_newlines (segments_text (on_error h) segs))
    as Hdecode.
  { intros h. unfold decode. by rewrite <- Hbytes, utf8_decode_segments. }
  split; [exact (Hdecode Ignore)|]. split; [exact (Hdecode Replace)|].
  intros regex input_dir filename Htxt.
  rewrite scan_directory_readable. unfold readable, unreadable. simpl.
  rewrite Htxt. unfold build_index. simpl. split; [done|]. intros u.
  unfold read_text. rewrite (Hdecode Ignore), get_add_found. simpl.
  destruct (decide _); [|done]. by rewrite (left_id_L ∅ (∪)).
Qed.

Lemma segments_of_file_segmented :
  segmented segments_of_file
  ∧ segments_bytes segments_of_file
    = map Byte.to_N file_with_malformed_sequences.
Proof.
  split; [|vm_compute; reflexivity].
  split; [by_decide|]. split.
  { left. exists 0x80%N. split; [done|]. unfold stray. lia. }
  split; [by_decide|]. split.
  { right. split; [apply truncated_3_2; [lia|by vm_compute]|].
    intros b rest' [= <- <-] Hbeg. apply begins_encoding_inv in Hbeg.
    destruct Hbeg as [[? _]|[(_ & _ & ?)|[? _]]]; [lia|done|lia]. }
  split; [by_decide|]. split; [|done].
  right. split; [apply truncated_2; lia|done].
Qed.

Lemma malformed_utf8_ignored_witness :
  segmented segments_of_file
  ∧ segments_bytes segments_of_file
    = map Byte.to_N file_with_malformed_sequences
  ∧ read_text file_with_malformed_sequences
    = universal_newlines (segments_text [] segments_of_file)
  ∧ decode Replace file_with_malformed_sequences
    = universal_newlines (segments_text [0xfffd%N] segments_of_file)
  ∧ ∀ regex input_dir filename,
      is_text_file filename = true →
      (scan_directory regex input_dir
         [(filename, inr file_with_malformed_sequences)]).2 = []
      ∧ ∀ u,
          get (scan_directory regex input_dir
                 [(filename, inr file_with_malformed_sequences)]).1 u
          = if decide (u ∈ findall regex
                         (universal_newlines
                            (segments_text [] segments_of_file)))
            then Some {[path_join input_dir filename]}
            else None.
Proof.
  destruct segments_of_file_segmented as [H1 H2].
  split; [exact H1|]. split; [exact H2|].
  exact (proj2 (malformed_utf8_ignored file_with_malformed_sequences)
           segments_of_file H1 H2).
Defined.

(** The file with three malformed sequences: what the script reads and
    finds, and what the handler [Replace] would give. *)
Example read_file_with_malformed_sequences :
  read_text file_with_malformed_sequences = py "http://a.com "
  ∧ matchStrict (read_text file_with_malformed_sequences)
    = [py "http://a.com"]
  ∧ decode Replace file_with_malformed_sequences
    = py "http://a" ++ 0xfffd%N :: py ".c" ++ 0xfffd%N :: py "om "
      ++ [0xfffd%N].
Proof. split_and!; vm_compute; reflexivity. Qed.

(** The stray byte of this file is left out by the script, where the handler
    [Replace] would put U+FFFD: the URL in the index is not the same. *)
Lemma malformed_utf8_not_replaced :
  read_text file_with_stray_byte = py "http://a.com"
  ∧ decode Replace file_with_stray_byte
    = py "http://a.c" ++ 0xfffd%N :: py "om"
  ∧ read_text file_with_stray_byte ≠ decode Replace file_with_stray_byte
  ∧ matchStrict (read_text file_with_stray_byte) = [py "http://a.com"]
  ∧ matchStrict (decode Replace file_with_stray_byte)
    = [py "http://a.c" ++ 0xfffd%N :: py "om"].
Proof.
  split_and!; try (vm_compute; reflexivity).
  vm_compute. intros [=].
Qed.

(** * More properties of the extraction script *)

(** ** The strict pattern *)

(** X1. Every string the strict matcher returns is made of one of the
    prefixes [http://], [https://] and [www.], in any mix of cases, followed
    by one or more characters, and holds no white space, quote or angle
    bracket anywhere. *)
Theorem strict_matches_shape (text : str) :
  Forall (λ m, strict_shape m ∧ Forall (λ c, body_char c = true) m)
    (matchStrict text).
Proof.
  eapply Forall_impl; [apply findall_sound|]. intros m Hm.
  apply lang_URL_REGEX in Hm. split; [done|]. by apply strict_shape_body_char.
Qed.

(** ** Matches are pieces of the text *)

Lemma scan_weave use_lenient s n :
  ∃ gaps, length gaps = S (length (scan (pattern_of use_lenient) s n))
          ∧ drop n s = weave gaps (scan (pattern_of use_lenient) s n).
Proof.
  revert n. induction s as [|c s IH]; intros n.
  - exists [[]]. by destruct n.
  - destruct n as [|n]; [|apply IH]. simpl.
    destruct (match_at _ (c :: s)) as [m|] eqn:Hm.
    + pose proof Hm as Hmark. apply match_at_mark in Hmark as (Hne & _ & _ & t & Heq).
      destruct m as [|c' m]; [done|]. injection Heq as <- ->.
      destruct (IH (pred (length (c :: m)))) as (gaps & Hlen & Hdrop).
      simpl in Hlen, Hdrop. rewrite ?drop_app_length in Hdrop.
      exists ([] :: gaps). simpl. split; [by rewrite Hlen|]. by rewrite <- Hdrop.
    + destruct (IH 0) as (gaps & Hlen & Hdrop).
      change (drop 0 s) with s in Hdrop.
      remember (scan (pattern_of use_lenient) s 0) as ms eqn:Hms. clear Hms.
      destruct gaps as [|g gaps]; [done|].
      exists ((c :: g) :: gaps). split; [done|]. rewrite Hdrop.
      by destruct ms.
Qed.

(** X2. Under either pattern the matches are pieces of the text, in the
    order of the text and without overlap: the text is a gap, the first match,
    a gap, the second match and so on up to a last gap; and no match is
    empty. *)
Theorem matches_interleave (use_lenient : bool) (text : str) :
  let ms := findall (pattern_of use_lenient) text in
  Forall (λ m, m ≠ []) ms
  ∧ ∃ gaps, length gaps = S (length ms) ∧ text = weave gaps ms.
Proof.
  intros ms. split.
  - eapply Forall_impl; [apply findall_sound|]. intros m Hm.
    destruct use_lenient; simpl in Hm.
    + apply lang_LENIENT_URL_REGEX in Hm
        as (sch & dom & tld & path & -> & _ & Hne & _). by destruct sch, dom.
    + apply lang_URL_REGEX in Hm as (sch & body & -> & _ & Hne & _).
      by destruct sch, body.
  - apply (scan_weave use_lenient text 0).
Qed.

(** ** Where a record comes from *)


Lemma weave_piece gaps ms1 u ms2 :
  length gaps = S (length (ms1 ++ u :: ms2)) →
  ∃ before after, weave gaps (ms1 ++ u :: ms2) = before ++ u ++ after.
Proof.
  revert gaps. induction ms1 as [|m ms1 IH]; intros [|g gaps] Hlen; try done.
  - simpl. by exists g, (weave gaps ms2).
  - simpl in Hlen. injection Hlen as Hlen.
    destruct (IH gaps Hlen) as (b & a & Heq). simpl. rewrite Heq.
    exists (g ++ m ++ b), a. by rewrite <- !app_assoc.
Qed.

(** X3. The occurrence table of a scan holds the record (url, file) exactly
    when the directory lists a file, with a name that ends in [.txt] in any
    case and that can be read, whose path is [file] and in whose content the
    pattern matches [url]; and then [url] is a piece of that content. *)
Theorem record_provenance (use_lenient : bool) (input_dir : str)
    (d : directory) (u f : str) :
  (u, f) ∈ occurrence_table
             (scan_directory (pattern_of use_lenient) input_dir d).1
  ↔ ∃ filename bs,
      (filename, inr bs) ∈ d ∧ is_text_file filename = true
      ∧ f = path_join input_dir filename
      ∧ u ∈ findall (pattern_of use_lenient) (read_text bs)
      ∧ ∃ before after, read_text bs = before ++ u ++ after.
Proof.
  rewrite scan_directory_readable. cbn [fst].
  rewrite elem_of_occurrence_table. split.
  - intros (s & Hin & Hf). apply elem_of_build_index in Hin as [_ Hs].
    apply Hs in Hf as (content & Hfc & Hu).
    apply elem_of_readable in Hfc as (filename & bs & Hin & Htxt & -> & ->).
    exists filename, bs. split_and!; try done.
    apply list_elem_of_In, in_split in Hu as (ms1 & ms2 & Hms).
    destruct (scan_weave use_lenient (read_text bs) 0) as (gaps & Hlen & Hw).
    change (drop 0 (read_text bs)) with (read_text bs) in Hw.
    fold (findall (pattern_of use_lenient) (read_text bs)) in Hlen, Hw.
    rewrite Hms in Hlen. rewrite Hw, Hms. by apply weave_piece.
  - intros (filename & bs & Hin & Htxt & -> & Hu & _).
    pose proof (get_build_index (findall (pattern_of use_lenient))
                  (readable input_dir d) u) as Hget.
    assert (found_in (findall (pattern_of use_lenient)) (readable input_dir d)
              u (path_join input_dir filename)) as Hfound.
    { exists (read_text bs). split; [|done].
      apply elem_of_readable. by exists filename, bs. }
    destruct (get _ u) as [s|] eqn:Hs; [|by apply Hget in Hfound].
    exists s. split; [|by apply Hget].
    apply get_Some; [apply NoDup_build_index | done].
Qed.

(** ** The plain output *)

(** X4. With an output file whose name does not end in [.json], the text
    written is the same for every order in which the directory lists the
    same files. *)
Theorem plain_output_listing_order (d1 d2 : directory)
    (input_dir output_file : str) (use_lenient : bool) :
  d1 ≡ₚ d2 →
  endswith (lower output_file) (py ".json") = false →
  (extract_urls_from_directory d1 input_dir output_file use_lenient).2
  = (extract_urls_from_directory d2 input_dir output_file use_lenient).2.
Proof. apply plain_output_order_independent. Qed.

Lemma plain_output_listing_order_witness :
  two_listed_files ≡ₚ reverse two_listed_files
  ∧ endswith (lower OUTPUT_FILE) (py ".json") = false
  ∧ (extract_urls_from_directory two_listed_files INPUT_DIR OUTPUT_FILE
       false).2
    = (extract_urls_from_directory (reverse two_listed_files) INPUT_DIR
         OUTPUT_FILE false).2.
Proof.
  assert (two_listed_files ≡ₚ reverse two_listed_files) as H1
    by apply Permutation_swap.
  assert (endswith (lower OUTPUT_FILE) (py ".json") = false) as H2
    by (vm_compute; reflexivity).
  split; [exact H1|]. split; [exact H2|].
  exact (plain_output_listing_order _ _ INPUT_DIR OUTPUT_FILE false H1 H2).
Defined.








(** ** A directory without a match *)





(** ** File identifiers *)

Lemma startswith_slash_false b :
  startswith b [Ch.slash] = false → ∀ b', b ≠ Ch.slash :: b'.
Proof.
  unfold startswith. intros Hb b' ->. apply bool_decide_eq_false in Hb.
  apply Hb. by exists b'.
Qed.

(** X7. The path of a file always ends with its name, and for names that do
    not start with a slash, as the names of a directory listing, two
    different names give two different paths: the file identifiers of the
    index tell the files of the directory apart. *)
Theorem path_join_injective (input_dir n1 n2 : str) :
  startswith n1 [Ch.slash] = false → startswith n2 [Ch.slash] = false →
  n1 `suffix_of` path_join input_dir n1
  ∧ (path_join input_dir n1 = path_join input_dir n2 → n1 = n2).
Proof.
  intros H1 H2. unfold path_join. rewrite H1, H2.
  destruct (bool_decide (input_dir = []) || endswith input_dir [Ch.slash]).
  - split; [by apply suffix_app_r|]. by intros ?%app_inv_head.
  - split.
    + apply suffix_app_r, suffix_cons_r. done.
    + intros Heq%app_inv_head. by injection Heq.
Qed.

Lemma path_join_injective_witness :
  startswith (py "a.txt") [Ch.slash] = false
  ∧ startswith (py "b.txt") [Ch.slash] = false
  ∧ py "a.txt" `suffix_of` path_join INPUT_DIR (py "a.txt")
  ∧ (path_join INPUT_DIR (py "a.txt") = path_join INPUT_DIR (py "b.txt") →
     py "a.txt" = py "b.txt").
Proof.
  assert (startswith (py "a.txt") [Ch.slash] = false) as H1
    by (vm_compute; reflexivity).
  assert (startswith (py "b.txt") [Ch.slash] = false) as H2
    by (vm_compute; reflexivity).
  split; [exact H1|]. split; [exact H2|].
  exact (path_join_injective INPUT_DIR (py "a.txt") (py "b.txt") H1 H2).
Defined.

(** ** Reading well-formed UTF-8 *)

Lemma universal_newlines_no_cr t :
  Ch.cr ∉ t → universal_newlines t = t.
Proof.
  induction t as [|c t IH]; [done|]. intros [Hc Ht]%not_elem_of_cons.
  simpl. rewrite (proj2 (N.eqb_neq c Ch.cr)) by done. by rewrite IH.
Qed.

Lemma universal_newlines_cr_free t : Ch.cr ∉ universal_newlines t.
Proof.
  assert (∀ n t, length t ≤ n → Ch.cr ∉ universal_newlines t) as Hn.
  { clear t. induction n as [|n IH]; intros [|c t] Hlen;
      try apply not_elem_of_nil; [simpl in Hlen; lia|].
    simpl in Hlen. simpl. destruct (N.eqb_spec c Ch.cr) as [->|Hc].
    - apply not_elem_of_cons. split; [done|].
      destruct t as [|c' t]; [apply not_elem_of_nil|]. simpl in Hlen.
      destruct (c' =? Ch.nl)%N; apply IH; simpl; lia.
    - apply not_elem_of_cons. split; [done|]. apply IH. lia. }
  by apply (Hn (length t)).
Qed.

(** X8. A file that holds the UTF-8 encoding of a text is read as that text,
    with each line end (a carriage return, alone or before a line feed) read
    as one line feed: nothing is lost or changed, and a text without carriage
    return is read as it is. The content read never holds a carriage
    return. *)
Theorem valid_utf8_read_exactly (t : str) (bs : list Byte.byte) :
  Forall scalar t → map Byte.to_N bs = utf8_encode t →
  read_text bs = universal_newlines t
  ∧ (Ch.cr ∉ t → read_text bs = t)
  ∧ Ch.cr ∉ read_text bs.
Proof.
  intros Ht Hbs.
  assert (read_text bs = universal_newlines t) as Hread.
  { unfold read_text, decode. rewrite Hbs. f_equal.
    rewrite <- (app_nil_r (utf8_encode t)), utf8_decode_encode by done.
    by rewrite app_nil_r. }
  split; [done|]. split.
  - intros Hcr. by rewrite Hread, universal_newlines_no_cr.
  - rewrite Hread. apply universal_newlines_cr_free.
Qed.

Lemma valid_utf8_read_exactly_witness :
  Forall scalar [0x68; 0xe9; 0x20ac; 0x1f600]%N
  ∧ map Byte.to_N sample_utf8 = utf8_encode [0x68; 0xe9; 0x20ac; 0x1f600]%N
  ∧ read_text sample_utf8 = universal_newlines [0x68; 0xe9; 0x20ac; 0x1f600]%N
  ∧ (Ch.cr ∉ [0x68; 0xe9; 0x20ac; 0x1f600]%N →
     read_text sample_utf8 = [0x68; 0xe9; 0x20ac; 0x1f600]%N)
  ∧ Ch.cr ∉ read_text sample_utf8.
Proof.
  assert (Forall scalar [0x68; 0xe9; 0x20ac; 0x1f600]%N) as H1 by by_decide.
  assert (map Byte.to_N sample_utf8
          = utf8_encode [0x68; 0xe9; 0x20ac; 0x1f600]%N) as H2
    by (vm_compute; reflexivity).
  split; [exact H1|]. split; [exact H2|].
  exact (valid_utf8_read_exactly _ _ H1 H2).
Defined.

(** * Properties of the search *)

Section search_properties.
Variable str_lower : str → str.
Implicit Types (data matches : list json) (entry : json).

Lemma search_loop_Return search_value cs sf data acc ms :
  search_loop str_lower search_value cs sf data acc = Return ms
  ↔ Forall (λ entry,
              returned (entry_matches str_lower search_value cs sf entry)) data
    ∧ ms = acc ++ filter (λ entry, hits str_lower search_value cs sf entry = true)
                    data.
Proof.
  revert acc. induction data as [|entry data IH]; intros acc.
  - simpl. rewrite filter_nil, app_nil_r.
    split; [intros [= <-]; by split | by intros [_ ->]].
  - cbn [search_loop]. rewrite Forall_cons.
    destruct (entry_matches _ _ _ _ entry) as [[|]|e|code] eqn:Hentry; simpl.
    + rewrite filter_cons_True by (unfold hits; by rewrite Hentry).
      rewrite IH, <- app_assoc. simpl. split.
      * intros [Hall ->]. split; [|done]. split; [by exists true | done].
      * by intros [[_ Hall] ->].
    + rewrite filter_cons_False by (unfold hits; by rewrite Hentry).
      rewrite IH. split.
      * intros [Hall ->]. split; [|done]. split; [by exists false | done].
      * by intros [[_ Hall] ->].
    + split; [done|]. intros [[[b Hb] _] _]. congruence.
    + split; [done|]. intros [[[b Hb] _] _]. congruence.
Qed.

Lemma hits_is_dict search_value cs sf entry :
  hits str_lower search_value cs sf entry = true → is_dict entry = true.
Proof. unfold hits. by destruct entry. Qed.

Lemma hits_returned search_value cs sf entry :
  hits str_lower search_value cs sf entry = true →
  returned (entry_matches str_lower search_value cs sf entry).
Proof.
  unfold hits. destruct (entry_matches _ _ _ _ entry) as [[|]|e|code]; try done.
  intros _. by exists true.
Qed.

Lemma filter_all {A} (P : A → Prop) `{!∀ x, Decision (P x)} (l : list A) :
  Forall P l → filter P l = l.
Proof.
  induction 1 as [|x l Hx _ IH]; [done|].
  by rewrite filter_cons_True, IH by done.
Qed.

(** X9. When a search returns, the matches are entries of the data, as they
    are and in the order of the data, and each of them is a dictionary. *)
Theorem search_urls_sublist (items : list json) (search_term : str)
    (case_sensitive search_files : bool) (ms : list json) :
  search_urls str_lower (JList items) search_term case_sensitive search_files
  = Return ms →
  ms `sublist_of` items ∧ Forall (λ entry, is_dict entry = true) ms.
Proof.
  unfold search_urls. intros [_ ->]%search_loop_Return. simpl. split.
  - apply sublist_filter.
  - apply Forall_forall. intros entry [Hhit _]%list_elem_of_filter.
    by apply hits_is_dict in Hhit.
Qed.

(** X10. Searching the matches of a search again, for the same term and with
    the same options, returns them all: the search keeps what it found. *)
Theorem search_urls_idempotent (items : list json) (search_term : str)
    (case_sensitive search_files : bool) (ms : list json) :
  search_urls str_lower (JList items) search_term case_sensitive search_files
  = Return ms →
  search_urls str_lower (JList ms) search_term case_sensitive search_files
  = Return ms.
Proof.
  unfold search_urls. intros [_ ->]%search_loop_Return. simpl.
  apply search_loop_Return. simpl. split.
  - apply Forall_forall. intros entry [Hhit _]%list_elem_of_filter.
    by apply hits_returned in Hhit.
  - symmetry. apply filter_all, Forall_forall.
    by intros entry [Hhit _]%list_elem_of_filter.
Qed.

(** X11. A search through two lists of entries put end to end returns
    exactly when the search through each of them returns, and its matches are
    the matches of the first followed by those of the second. *)
Theorem search_urls_app (items1 items2 : list json) (search_term : str)
    (case_sensitive search_files : bool) (ms : list json) :
  search_urls str_lower (JList (items1 ++ items2)) search_term case_sensitive
    search_files = Return ms
  ↔ ∃ ms1 ms2,
      search_urls str_lower (JList items1) search_term case_sensitive
        search_files = Return ms1
      ∧ search_urls str_lower (JList items2) search_term case_sensitive
          search_files = Return ms2
      ∧ ms = ms1 ++ ms2.
Proof.
  unfold search_urls. setoid_rewrite search_loop_Return. simpl.
  rewrite Forall_app, filter_app. split.
  - intros [[H1 H2] ->]. by eexists _, _.
  - by intros (ms1 & ms2 & [H1 ->] & [H2 ->] & ->).
Qed.
End search_properties.

Lemma search_urls_sample :
  search_urls lower (JList sample_entries) (py "doi") false false
  = Return [record_json (py "https://doi.org/10.1", py "texts/a.txt");
            record_json (py "http://EXAMPLE.org/DOI", py "texts/b.txt")].
Proof. vm_compute. reflexivity. Qed.

Lemma search_urls_sublist_witness :
  search_urls lower (JList sample_entries) (py "doi") false false
  = Return [record_json (py "https://doi.org/10.1", py "texts/a.txt");
            record_json (py "http://EXAMPLE.org/DOI", py "texts/b.txt")]
  ∧ [record_json (py "https://doi.org/10.1", py "texts/a.txt");
     record_json (py "http://EXAMPLE.org/DOI", py "texts/b.txt")]
      `sublist_of` sample_entries
  ∧ Forall (λ entry, is_dict entry = true)
      [record_json (py "https://doi.org/10.1", py "texts/a.txt");
       record_json (py "http://EXAMPLE.org/DOI", py "texts/b.txt")].
Proof.
  split; [exact search_urls_sample|].
  exact (search_urls_sublist lower sample_entries (py "doi") false false _
           search_urls_sample).
Defined.

Lemma search_urls_idempotent_witness :
  search_urls lower (JList sample_entries) (py "doi") false false
  = Return [record_json (py "https://doi.org/10.1", py "texts/a.txt");
            record_json (py "http://EXAMPLE.org/DOI", py "texts/b.txt")]
  ∧ search_urls lower
      (JList [record_json (py "https://doi.org/10.1", py "texts/a.txt");
              record_json (py "http://EXAMPLE.org/DOI", py "texts/b.txt")])
      (py "doi") false false
    = Return [record_json (py "https://doi.org/10.1", py "texts/a.txt");
              record_json (py "http://EXAMPLE.org/DOI", py "texts/b.txt")].
Proof.
  split; [exact search_urls_sample|].
  exact (search_urls_idempotent lower sample_entries (py "doi") false false _
           search_urls_sample).
Defined.

Section search_without_case.
Variable str_lower : str → str.

Lemma entry_matches_ci search_value search_files fields :
  entry_matches str_lower search_value false search_files (JDict fields)
  = if searchable (JDict fields)
    then Return
           (str_in search_value (str_lower (field_text fields (py "url")))
            || search_files
               && str_in search_value
                    (str_lower (field_text fields (py "file"))))
    else Raise AttributeError.
Proof.
  unfold entry_matches, searchable, field_is_str, field_text.
  destruct (dict_get fields (py "url")) as [[| | | |url| |]|];
    destruct (dict_get fields (py "file")) as [[| | | |file| |]|];
    simpl; try done;
    by destruct (str_in search_value _), search_files.
Qed.

(** X12. A search without regard to case returns exactly when, in every
    entry that is a dictionary, [url] and [file] are strings or are missing;
    it then returns the dictionaries in which the term, in lower case, is a
    piece of the URL in lower case or, when files are searched too, of the
    file in lower case, a missing field counting as the empty string. If one
    entry has another value there, the whole search raises [AttributeError],
    whatever the other entries hold. Data that is not a list ends the program
    with status 1. *)
Theorem search_urls_ignoring_case (data : json) (search_term : str)
    (search_files : bool) :
  search_urls str_lower data search_term false search_files
  = match data with
    | JList items =>
        if forallb searchable items
        then Return (filter (λ entry,
                               matches_ci str_lower search_term search_files
                                 entry = true) items)
        else Raise AttributeError
    | _ => SysExit 1
    end.
Proof.
  destruct data as [| | | | |items|]; try done. unfold search_urls.
  assert (∀ acc,
    search_loop str_lower (str_lower search_term) false search_files items acc
    = if forallb searchable items
      then Return (acc ++ filter (λ entry,
                                    matches_ci str_lower search_term
                                      search_files entry = true) items)
      else Raise AttributeError) as Hloop; [|by rewrite Hloop].
  induction items as [|entry items IH]; intros acc.
  - simpl. by rewrite filter_nil, app_nil_r.
  - cbn [search_loop forallb]. rewrite filter_cons.
    destruct entry as [| | | | | |fields];
      try (simpl; rewrite IH; by destruct (forallb searchable items)).
    rewrite entry_matches_ci. destruct (searchable (JDict fields)); [|done].
    cbn [mbind result_bind andb]. rewrite IH.
    destruct (forallb searchable items); [|done].
    change (str_in (str_lower search_term)
              (str_lower (field_text fields (py "url")))
            || search_files
               && str_in (str_lower search_term)
                    (str_lower (field_text fields (py "file"))))
      with (matches_ci str_lower search_term search_files (JDict fields)).
    destruct (matches_ci str_lower search_term search_files (JDict fields)).
    + rewrite decide_True by done. by rewrite <- app_assoc.
    + by rewrite decide_False by done.
Qed.
End search_without_case.

Section search_more.
Variable str_lower : str → str.
Implicit Types (entry : json) (r : str * str) (cs sf : bool).

Lemma hits_search_files search_value cs entry :
  hits str_lower search_value cs false entry = true →
  hits str_lower search_value cs true entry = true.
Proof.
  unfold hits, entry_matches. destruct entry as [| | | | | |fields]; try done.
  destruct (search_field _ cs (default _ (dict_get fields (py "url"))))
    as [url| |]; try done.
  destruct (search_field _ cs (default _ (dict_get fields (py "file"))))
    as [file| |]; try done.
  simpl. by destruct (contains search_value url) as [[|]| |].
Qed.

Lemma filter_sublist_impl {A} (P Q : A → Prop) `{!∀ x, Decision (P x)}
    `{!∀ x, Decision (Q x)} (l : list A) :
  (∀ x, P x → Q x) → filter P l `sublist_of` filter Q l.
Proof.
  intros HPQ. induction l as [|x l IH]; [done|]. rewrite !filter_cons.
  destruct (decide (P x)) as [HP|HP].
  - rewrite decide_True by auto. by apply sublist_skip.
  - destruct (decide (Q x)); [by apply sublist_cons | done].
Qed.

(** X13. Searching the files too only adds matches: when the search of the
    URLs alone and the search of URLs and files both return, the matches of
    the first are among the matches of the second, in the same order. *)
Theorem search_files_adds_matches (items : list json) (search_term : str)
    (case_sensitive : bool) (ms0 ms1 : list json) :
  search_urls str_lower (JList items) search_term case_sensitive false
  = Return ms0 →
  search_urls str_lower (JList items) search_term case_sensitive true
  = Return ms1 →
  ms0 `sublist_of` ms1.
Proof.
  unfold search_urls. intros [_ ->]%search_loop_Return [_ ->]%search_loop_Return.
  simpl. apply filter_sublist_impl. intros entry. apply hits_search_files.
Qed.

Lemma dict_get_record_url r :
  dict_get [(py "url", JStr r.1); (py "file", JStr r.2)] (py "url")
  = Some (JStr r.1).
Proof. unfold dict_get. by rewrite decide_True. Qed.

Lemma dict_get_record_file r :
  dict_get [(py "url", JStr r.1); (py "file", JStr r.2)] (py "file")
  = Some (JStr r.2).
Proof.
  unfold dict_get. rewrite decide_False by (by vm_compute).
  by rewrite decide_True.
Qed.

Lemma entry_matches_record search_term cs sf r :
  entry_matches str_lower (if cs then search_term else str_lower search_term)
    cs sf (record_json r)
  = Return (record_matches str_lower search_term cs sf r).
Proof.
  unfold entry_matches, record_json, record_matches.
  rewrite dict_get_record_url, dict_get_record_file.
  destruct cs; simpl; by destruct (str_in _ _), sf.
Qed.

(** X14. A search through the table the extraction script writes never
    fails: it returns the records in which the term is a piece of the URL or,
    when files are searched too, of the file path (all in lower case unless
    the search is case sensitive), in the order of the table; and
    [count_items] counts no more matches than the table has records. *)
Theorem search_urls_table (table : list (str * str)) (search_term : str)
    (case_sensitive search_files : bool) :
  search_urls str_lower (table_json table) search_term case_sensitive
    search_files
  = Return (record_json
              <$> filter (λ r, record_matches str_lower search_term
                                 case_sensitive search_files r = true) table)
  ∧ count_items
      (JList (record_json
                <$> filter (λ r, record_matches str_lower search_term
                                   case_sensitive search_files r = true) table))
    ≤ count_items (table_json table).
Proof.
  split.
  - unfold search_urls, table_json.
    set (v := if case_sensitive then search_term else str_lower search_term).
    apply search_loop_Return. simpl. split.
    + apply Forall_fmap, Forall_forall. intros r _. subst v.
      unfold compose. rewrite entry_matches_record. by eexists.
    + induction table as [|r table IH]; [done|].
      rewrite fmap_cons, !filter_cons, <- IH.
      assert (hits str_lower v case_sensitive search_files (record_json r)
              = record_matches str_lower search_term case_sensitive
                  search_files r) as ->.
      { unfold hits. subst v. rewrite entry_matches_record.
        by destruct (record_matches _ _ _ _ r). }
      by destruct (decide _).
  - simpl. rewrite !length_fmap. apply length_filter.
Qed.
End search_more.

(** A case-sensitive search that returns for the URLs alone and raises
    [TypeError] when the files, here numbers, are searched too. *)
Example search_files_type_error :
  search_urls lower (JList entries_with_numbers) (py "doi") true false
  = Return [JDict [(py "url", JStr (py "http://a.org/doi")); (py "file", JInt 1)]]
  ∧ search_urls lower (JList entries_with_numbers) (py "doi") true true
    = Raise TypeError.
Proof. split; vm_compute; reflexivity. Qed.

Lemma search_files_adds_matches_witness :
  search_urls lower (JList sample_entries) (py "texts/b") false false
  = Return []
  ∧ search_urls lower (JList sample_entries) (py "texts/b") false true
    = Return [record_json (py "http://EXAMPLE.org/DOI", py "texts/b.txt")]
  ∧ [] `sublist_of`
      [record_json (py "http://EXAMPLE.org/DOI", py "texts/b.txt")].
Proof.
  assert (search_urls lower (JList sample_entries) (py "texts/b") false false
          = Return []) as H0 by (vm_compute; reflexivity).
  assert (search_urls lower (JList sample_entries) (py "texts/b") false true
          = Return [record_json (py "http://EXAMPLE.org/DOI", py "texts/b.txt")])
    as H1 by (vm_compute; reflexivity).
  split; [exact H0|]. split; [exact H1|].
  exact (search_files_adds_matches lower sample_entries (py "texts/b") false
           _ _ H0 H1).
Defined.

(** ** Dictionaries *)

Lemma dict_get_None fields key :
  dict_get fields key = None ↔ key ∉ fields.*1.
Proof.
  induction fields as [|[k v] fields IH]; simpl.
  - split; [intros _; apply not_elem_of_nil | done].
  - rewrite not_elem_of_cons. destruct (decide (k = key)) as [->|Hk].
    + split; [done | by intros [? _]].
    + rewrite IH. split; [by split | by intros [_ ?]].
Qed.

Lemma dict_set_keys fields key v :
  (dict_set fields key v).*1
  = if decide (key ∈ fields.*1) then fields.*1 else fields.*1 ++ [key].
Proof.
  induction fields as [|[k w] fields IH]; csimpl.
  - done.
  - destruct (decide (k = key)) as [->|Hk]; csimpl.
    + by rewrite decide_True by left.
    + rewrite IH. destruct (decide (key ∈ fields.*1)) as [Hin|Hin].
      * by rewrite decide_True by (by right).
      * rewrite decide_False; [done|]. rewrite not_elem_of_cons. by split.
Qed.

Lemma dict_get_set fields key v key' :
  dict_get (dict_set fields key v) key'
  = if decide (key = key') then Some v else dict_get fields key'.
Proof.
  induction fields as [|[k w] fields IH]; simpl.
  - by destruct (decide (key = key')).
  - destruct (decide (k = key)) as [->|Hk]; simpl.
    + by destruct (decide (key = key')).
    + rewrite IH. destruct (decide (k = key')) as [->|Hk'];
        [by rewrite decide_False by done | done].
Qed.

Lemma dict_set_NoDup fields key v :
  NoDup fields.*1 → NoDup (dict_set fields key v).*1.
Proof.
  intros Hnd. rewrite dict_set_keys. destruct (decide (key ∈ fields.*1)); [done|].
  apply NoDup_app. split; [done|]. split; [|apply NoDup_singleton].
  intros k Hk ->%list_elem_of_singleton. done.
Qed.

Lemma dict_set_fresh fields key v :
  key ∉ fields.*1 → dict_set fields key v = fields ++ [(key, v)].
Proof.
  induction fields as [|[k w] fields IH]; simpl; [done|].
  rewrite not_elem_of_cons. intros [Hk Hin].
  by rewrite decide_False, IH by done.
Qed.

Lemma dict_set_set fields key v w :
  dict_set (dict_set fields key v) key w = dict_set fields key w.
Proof.
  induction fields as [|[k u] fields IH]; simpl.
  - by rewrite decide_True.
  - destruct (decide (k = key)) as [->|Hk]; simpl.
    + by rewrite decide_True.
    + by rewrite decide_False, IH by done.
Qed.

Lemma dict_set_comm fields key v key' w :
  key ≠ key' → key ∈ fields.*1 →
  dict_set (dict_set fields key' w) key v
  = dict_set (dict_set fields key v) key' w.
Proof.
  intros Hne. induction fields as [|[k u] fields IH]; intros Hin.
  - by apply elem_of_nil in Hin.
  - apply elem_of_cons in Hin. simpl in *.
    repeat (case_decide; simplify_eq/=); try done.
    f_equal. apply IH. by destruct Hin.
Qed.

Lemma dict_update_cons combined k v data :
  dict_update combined ((k, v) :: data)
  = dict_update (dict_set combined k v) data.
Proof. done. Qed.

Lemma dict_update_snoc combined data k v :
  dict_update combined (data ++ [(k, v)])
  = dict_set (dict_update combined data) k v.
Proof. unfold dict_update. by rewrite foldl_app. Qed.

Lemma dict_update_keys combined data key :
  key ∈ (dict_update combined data).*1 ↔ key ∈ combined.*1 ∨ key ∈ data.*1.
Proof.
  revert combined. induction data as [|[k v] data IH]; intros combined.
  - simpl. split; [by left | by intros [?|?%elem_of_nil]].
  - rewrite dict_update_cons, IH, dict_set_keys, fmap_cons, elem_of_cons. simpl.
    destruct (decide (k ∈ combined.*1)) as [Hin|Hin].
    + split; [intros [?|?]; auto | intros [?|[->|?]]; auto].
    + rewrite elem_of_app, list_elem_of_singleton.
      split; [intros [[?|?]|?]; auto | intros [?|[?|?]]; auto].
Qed.

Lemma dict_update_NoDup combined data :
  NoDup combined.*1 → NoDup (dict_update combined data).*1.
Proof.
  revert combined. induction data as [|[k v] data IH]; intros combined Hnd;
    [done|].
  rewrite dict_update_cons. by apply IH, dict_set_NoDup.
Qed.

Lemma dict_get_update combined data key :
  NoDup data.*1 →
  dict_get (dict_update combined data) key
  = match dict_get data key with
    | Some v => Some v
    | None => dict_get combined key
    end.
Proof.
  revert combined. induction data as [|[k v] data IH]; intros combined Hnd;
    [done|].
  apply NoDup_cons in Hnd as [Hk Hnd]. simpl in Hk.
  rewrite dict_update_cons, IH by done.
  simpl. destruct (decide (k = key)) as [->|Hne].
  - apply dict_get_None in Hk. rewrite Hk, dict_get_set. by rewrite decide_True.
  - rewrite dict_get_set. by rewrite decide_False by done.
Qed.

Lemma dict_update_fresh combined data :
  NoDup (combined ++ data).*1 → dict_update combined data = combined ++ data.
Proof.
  revert combined. induction data as [|[k v] data IH]; intros combined Hnd.
  - by rewrite app_nil_r.
  - rewrite dict_update_cons, dict_set_fresh.
    + rewrite IH; rewrite <- app_assoc; done.
    + rewrite fmap_app in Hnd. apply NoDup_app in Hnd as (_ & Hnd & _).
      intros Hin. apply (Hnd k Hin). left.
Qed.

(** A key that stands in [combined] keeps its place, so that setting it
    commutes with the update by a dictionary that does not have it. *)
Lemma dict_set_update combined data key v :
  key ∈ combined.*1 → key ∉ data.*1 →
  dict_set (dict_update combined data) key v
  = dict_update (dict_set combined key v) data.
Proof.
  revert combined. induction data as [|[k w] data IH]; intros combined Hin Hout;
    [done|].
  apply not_elem_of_cons in Hout as [Hne Hout]. simpl in Hne.
  rewrite !dict_update_cons, IH.
  - by rewrite dict_set_comm.
  - rewrite dict_set_keys. destruct (decide _); [done|].
    apply elem_of_app. by left.
  - done.
Qed.

Lemma dict_update_set combined data key v :
  NoDup data.*1 →
  dict_update combined (dict_set data key v)
  = dict_set (dict_update combined data) key v.
Proof.
  revert combined. induction data as [|[k w] data IH]; intros combined Hnd;
    [done|].
  apply NoDup_cons in Hnd as [Hk Hnd]. simpl in Hk. simpl.
  destruct (decide (k = key)) as [->|Hne].
  - rewrite !dict_update_cons, dict_set_update, dict_set_set; [done| |done].
    rewrite dict_set_keys. destruct (decide _); [done|].
    apply elem_of_app. right. by apply list_elem_of_singleton.
  - by rewrite !dict_update_cons, IH.
Qed.

Lemma dict_update_update combined data more :
  NoDup data.*1 →
  dict_update combined (dict_update data more)
  = dict_update (dict_update combined data) more.
Proof.
  intros Hnd. induction more as [|[k v] more IH] using rev_ind; [done|].
  rewrite !dict_update_snoc, dict_update_set, IH; [done|].
  by apply dict_update_NoDup.
Qed.

(** ** Combining files *)

Lemma load_all_Some data_list : load_all (Some <$> data_list) = Return data_list.
Proof.
  induction data_list as [|data data_list IH]; [done|]. csimpl. by rewrite IH.
Qed.

Lemma load_all_cases loaded :
  (None ∈ loaded ∧ load_all loaded = SysExit 1)
  ∨ (∃ data_list, loaded = Some <$> data_list).
Proof.
  induction loaded as [|[data|] loaded IH]; simpl.
  - right. by exists [].
  - destruct IH as [[Hin ->]|[data_list ->]].
    + left. split; [by right | done].
    + right. by exists (data :: data_list).
  - left. split; [by left | done].
Qed.

Lemma foldl_extend combined (lists : list (list json)) :
  foldl extend combined (JList <$> lists) = combined ++ concat lists.
Proof.
  revert combined. induction lists as [|l lists IH]; intros combined; simpl.
  - by rewrite app_nil_r.
  - by rewrite IH, app_assoc.
Qed.

Lemma foldl_update combined (dicts : list (list (str * json))) :
  foldl update combined (JDict <$> dicts) = foldl dict_update combined dicts.
Proof.
  revert combined. induction dicts as [|d dicts IH]; intros combined; simpl;
    by rewrite ?IH.
Qed.

Lemma forallb_is_list (lists : list (list json)) :
  forallb is_list (JList <$> lists) = true.
Proof. by induction lists. Qed.

Lemma forallb_is_dict (dicts : list (list (str * json))) :
  forallb is_dict (JDict <$> dicts) = true.
Proof. by induction dicts. Qed.

Lemma combine_json_files_Some data data_list :
  combine_json_files (Some <$> data :: data_list)
  = Return (if forallb is_list (data :: data_list)
            then JList (foldl extend [] (data :: data_list))
            else if forallb is_dict (data :: data_list)
            then JDict (foldl update [] (data :: data_list))
            else JList (data :: data_list)).
Proof.
  unfold combine_json_files. rewrite load_all_Some. rewrite fmap_cons.
  unfold mbind, result_bind.
  destruct (forallb is_list _); [done|]. by destruct (forallb is_dict _).
Qed.

Lemma combine_lists_Return (lists : list (list json)) :
  lists ≠ [] →
  combine_json_files (Some ∘ JList <$> lists) = Return (JList (concat lists)).
Proof.
  intros Hne. destruct lists as [|l lists]; [done|].
  rewrite list_fmap_compose, fmap_cons, combine_json_files_Some.
  by rewrite <- fmap_cons, forallb_is_list, foldl_extend.
Qed.

Lemma combine_dicts_Return (dicts : list (list (str * json))) :
  dicts ≠ [] →
  combine_json_files (Some ∘ JDict <$> dicts)
  = Return (JDict (foldl dict_update [] dicts)).
Proof.
  intros Hne. destruct dicts as [|d dicts]; [done|].
  rewrite list_fmap_compose, fmap_cons, combine_json_files_Some.
  rewrite <- fmap_cons, forallb_is_dict, foldl_update. done.
Qed.

Lemma foldl_dict_update_NoDup combined (dicts : list (list (str * json))) :
  NoDup combined.*1 → NoDup (foldl dict_update combined dicts).*1.
Proof.
  revert combined. induction dicts as [|d dicts IH]; intros combined Hnd;
    [done|].
  simpl. by apply IH, dict_update_NoDup.
Qed.

Lemma foldl_dict_update_keys combined (dicts : list (list (str * json))) key :
  key ∈ (foldl dict_update combined dicts).*1
  ↔ key ∈ combined.*1 ∨ ∃ d, d ∈ dicts ∧ key ∈ d.*1.
Proof.
  revert combined. induction dicts as [|d dicts IH]; intros combined; simpl.
  - split; [by left | intros [?|(d & ?%elem_of_nil & _)]; done].
  - rewrite IH, dict_update_keys. split.
    + intros [[?|?]|(d' & ? & ?)]; [by left | right; exists d | right; exists d'];
        split; try done; by constructor.
    + intros [?|(d' & [->|?]%elem_of_cons & ?)]; [by left; left | by left; right |].
      right. by exists d'.
Qed.

Lemma foldl_dict_update_snoc combined (dicts : list (list (str * json))) d :
  foldl dict_update combined (dicts ++ [d])
  = dict_update (foldl dict_update combined dicts) d.
Proof. by rewrite foldl_app. Qed.

(** X15. When every input file holds a list, the combination is the
    concatenation of the lists in the order of the files, and [count_items]
    of the combination is the sum of [count_items] of the files. *)
Theorem combine_lists (lists : list (list json)) :
  lists ≠ [] →
  combine_json_files (Some ∘ JList <$> lists) = Return (JList (concat lists))
  ∧ count_items (JList (concat lists))
    = sum_list_with (λ l, count_items (JList l)) lists.
Proof.
  intros Hne. split; [by apply combine_lists_Return|].
  simpl. clear Hne. induction lists as [|l lists IH]; simpl; [done|].
  by rewrite length_app, IH.
Qed.

Lemma combine_lists_witness :
  sample_lists ≠ []
  ∧ combine_json_files (Some ∘ JList <$> sample_lists)
    = Return (JList (concat sample_lists))
  ∧ count_items (JList (concat sample_lists))
    = sum_list_with (λ l, count_items (JList l)) sample_lists.
Proof.
  assert (sample_lists ≠ []) as Hne by done.
  split; [exact Hne|]. exact (combine_lists sample_lists Hne).
Defined.

(** X16. When every input file holds a dictionary, the combination is a
    dictionary in which a key has the value of the last file that has the
    key: later files override earlier ones, and a key that no later file has
    keeps its value. *)
Theorem combine_dicts_last_wins (dicts : list (list (str * json))) :
  dicts ≠ [] → Forall (λ d, NoDup d.*1) dicts →
  ∃ merged,
    combine_json_files (Some ∘ JDict <$> dicts) = Return (JDict merged)
    ∧ ∀ key v,
        dict_get merged key = Some v
        ↔ ∃ before d after,
            dicts = before ++ d :: after
            ∧ dict_get d key = Some v
            ∧ Forall (λ d', dict_get d' key = None) after.
Proof.
  intros Hne Hnd. eexists. split; [by apply combine_dicts_Return|].
  clear Hne. intros key v.
  induction dicts as [|d dicts IH] using rev_ind.
  - simpl. split; [done|]. intros (before & d & after & Heq & _).
    by destruct before.
  - apply Forall_app in Hnd as [Hnd [Hd _]%Forall_cons].
    rewrite foldl_dict_update_snoc, dict_get_update by done.
    destruct (dict_get d key) as [w|] eqn:Hget.
    + split.
      * intros [= ->]. by exists dicts, d, [].
      * intros (before & d0 & after & Heq & Hd0 & Hafter).
        destruct after as [|d1 after _] using rev_ind.
        -- apply app_inj_tail in Heq as [_ ->]. congruence.
        -- rewrite app_comm_cons, app_assoc in Heq.
           apply app_inj_tail in Heq as [_ ->].
           apply Forall_app in Hafter as [_ [Hd1 _]%Forall_cons]. congruence.
    + rewrite IH by done. split.
      * intros (before & d0 & after & -> & Hd0 & Hafter).
        exists before, d0, (after ++ [d]). rewrite <- app_assoc. split; [done|].
        split; [done|]. apply Forall_app. split; [done|]. by constructor.
      * intros (before & d0 & after & Heq & Hd0 & Hafter).
        destruct after as [|d1 after _] using rev_ind.
        -- apply app_inj_tail in Heq as [_ ->]. congruence.
        -- rewrite app_comm_cons, app_assoc in Heq.
           apply app_inj_tail in Heq as [-> ->].
           apply Forall_app in Hafter as [Hafter _]. by exists before, d0, after.
Qed.

Lemma combine_dicts_last_wins_witness :
  sample_dicts ≠ [] ∧ Forall (λ d, NoDup d.*1) sample_dicts
  ∧ ∃ merged,
      combine_json_files (Some ∘ JDict <$> sample_dicts) = Return (JDict merged)
      ∧ ∀ key v,
          dict_get merged key = Some v
          ↔ ∃ before d after,
              sample_dicts = before ++ d :: after
              ∧ dict_get d key = Some v
              ∧ Forall (λ d', dict_get d' key = None) after.
Proof.
  assert (sample_dicts ≠ []) as Hne by done.
  assert (Forall (λ d, NoDup d.*1) sample_dicts) as Hnd.
  { repeat constructor; by_decide. }
  split; [exact Hne|]. split; [exact Hnd|].
  exact (combine_dicts_last_wins sample_dicts Hne Hnd).
Defined.

(** X17. The keys of the combination of dictionaries are distinct and are
    the keys of the input files, so that [count_items] of the combination is
    the number of different keys in the files. *)
Theorem combine_dicts_keys (dicts : list (list (str * json))) :
  dicts ≠ [] →
  ∃ merged,
    combine_json_files (Some ∘ JDict <$> dicts) = Return (JDict merged)
    ∧ NoDup merged.*1
    ∧ (∀ key, key ∈ merged.*1 ↔ ∃ d, d ∈ dicts ∧ key ∈ d.*1)
    ∧ count_items (JDict merged)
      = size (⋃ ((λ d, list_to_set d.*1) <$> dicts) : gset str).
Proof.
  intros Hne. eexists. split; [by apply combine_dicts_Return|].
  assert (NoDup (foldl dict_update [] dicts).*1) as Hnd
    by apply foldl_dict_update_NoDup, NoDup_nil_2.
  assert (∀ key, key ∈ (foldl dict_update [] dicts).*1
                 ↔ ∃ d, d ∈ dicts ∧ key ∈ d.*1) as Hkeys.
  { intros key. rewrite foldl_dict_update_keys.
    split; [by intros [?%elem_of_nil|?] | by right]. }
  split; [done|]. split; [done|]. simpl.
  rewrite <- (length_fmap fst), <- (size_list_to_set (C:=gset str)) by done.
  f_equal. apply set_eq. intros key.
  rewrite elem_of_list_to_set, Hkeys, elem_of_union_list. split.
  - intros (d & Hd & Hin). exists (list_to_set d.*1).
    split; [|by apply elem_of_list_to_set].
    apply list_elem_of_fmap. by exists d.
  - intros (X & (d & -> & Hd)%list_elem_of_fmap & Hin%elem_of_list_to_set).
    by exists d.
Qed.

Lemma combine_dicts_keys_witness :
  sample_dicts ≠ []
  ∧ ∃ merged,
      combine_json_files (Some ∘ JDict <$> sample_dicts) = Return (JDict merged)
      ∧ NoDup merged.*1
      ∧ (∀ key, key ∈ merged.*1 ↔ ∃ d, d ∈ sample_dicts ∧ key ∈ d.*1)
      ∧ count_items (JDict merged)
        = size (⋃ ((λ d, list_to_set d.*1) <$> sample_dicts) : gset str).
Proof.
  assert (sample_dicts ≠ []) as Hne by done.
  split; [exact Hne|]. exact (combine_dicts_keys sample_dicts Hne).
Defined.

(** X18. The combination leaves through [sys.exit(1)] exactly when there is
    no input file or one of the files cannot be loaded, whatever the other
    files hold; otherwise it returns. It raises no exception. *)
Theorem combine_json_files_exit (loaded : list (option json)) :
  (combine_json_files loaded = SysExit 1 ↔ loaded = [] ∨ None ∈ loaded)
  ∧ (returned (combine_json_files loaded) ↔ loaded ≠ [] ∧ None ∉ loaded).
Proof.
  destruct loaded as [|first rest].
  { split; (split; [by left | done]) || (split; [by intros [? ?] | by intros [? _]]). }
  destruct (load_all_cases (first :: rest)) as [[Hin Hexit]|[data_list Heq]].
  - unfold combine_json_files. rewrite Hexit. simpl. split.
    + split; [by right | done].
    + split; [by intros [? ?] | by intros [_ ?]].
  - assert (None ∉ first :: rest) as Hout.
    { rewrite Heq. by intros (? & ? & _)%list_elem_of_fmap. }
    assert (returned (combine_json_files (first :: rest))) as [v Hv].
    { unfold combine_json_files. rewrite Heq, load_all_Some. simpl.
      destruct (forallb is_list data_list); [by eexists|].
      destruct (forallb is_dict data_list); by eexists. }
    split.
    + rewrite Hv. split; [done | by intros [?|?]].
    + split; [done | intros _; by exists v].
Qed.

(** X19. A single input file that holds a list or a dictionary is returned
    as it is; any other value comes back wrapped in a list of one item. *)
Theorem combine_single_file (data : json) :
  (∀ fields, data = JDict fields → NoDup fields.*1) →
  combine_json_files [Some data]
  = Return (if is_list data || is_dict data then data else JList [data]).
Proof.
  intros Hnd. destruct data as [| | | | |items|fields]; try done.
  unfold combine_json_files. simpl.
  by rewrite (dict_update_fresh [] fields) by (by apply Hnd).
Qed.

Lemma combine_single_file_witness :
  (∀ fields, JDict [(py "a", JNull)] = JDict fields → NoDup fields.*1)
  ∧ combine_json_files [Some (JDict [(py "a", JNull)])]
    = Return (JDict [(py "a", JNull)]).
Proof.
  assert (∀ fields, JDict [(py "a", JNull)] = JDict fields → NoDup fields.*1)
    as Hnd.
  { intros fields [= <-]. by_decide. }
  split; [exact Hnd|]. exact (combine_single_file _ Hnd).
Defined.

Lemma filter_concat {A} (P : A → Prop) `{!∀ x, Decision (P x)}
    (ls : list (list A)) :
  filter P (concat ls) = concat (filter P <$> ls).
Proof. induction ls as [|l ls IH]; [done|]. simpl. by rewrite filter_app, IH. Qed.

(** X20. Searching the combination of files that hold lists gives the
    matches of the files one after the other: when the search of each file
    returns, the search of the combined list returns the concatenation of
    these results, in the order of the files. *)
Theorem search_combined_lists (str_lower : str → str)
    (lists mss : list (list json)) (search_term : str)
    (case_sensitive search_files : bool) :
  lists ≠ [] →
  Forall2 (λ l ms, search_urls str_lower (JList l) search_term case_sensitive
                     search_files = Return ms) lists mss →
  (combined ← combine_json_files (Some ∘ JList <$> lists);
   search_urls str_lower combined search_term case_sensitive search_files)
  = Return (concat mss).
Proof.
  intros Hne Hall. rewrite combine_lists_Return by done. simpl.
  clear Hne. apply search_loop_Return. simpl.
  induction Hall as [|l ms lists mss Hl Hall [IH1 IH2]]; [done|].
  unfold search_urls in Hl. apply search_loop_Return in Hl as [Hl ->].
  simpl. split; [by apply Forall_app|]. by rewrite filter_app, IH2.
Qed.

Lemma search_combined_lists_witness :
  [sample_entries; sample_entries] ≠ []
  ∧ Forall2 (λ l ms, search_urls lower (JList l) (py "doi") false false
                     = Return ms)
      [sample_entries; sample_entries]
      [[record_json (py "https://doi.org/10.1", py "texts/a.txt");
        record_json (py "http://EXAMPLE.org/DOI", py "texts/b.txt")];
       [record_json (py "https://doi.org/10.1", py "texts/a.txt");
        record_json (py "http://EXAMPLE.org/DOI", py "texts/b.txt")]]
  ∧ (combined ← combine_json_files
                  (Some ∘ JList <$> [sample_entries; sample_entries]);
     search_urls lower combined (py "doi") false false)
    = Return
        (concat
           [[record_json (py "https://doi.org/10.1", py "texts/a.txt");
             record_json (py "http://EXAMPLE.org/DOI", py "texts/b.txt")];
            [record_json (py "https://doi.org/10.1", py "texts/a.txt");
             record_json (py "http://EXAMPLE.org/DOI", py "texts/b.txt")]]).
Proof.
  assert ([sample_entries; sample_entries] ≠ []) as Hne by done.
  assert (Forall2 (λ l ms, search_urls lower (JList l) (py "doi") false false
                           = Return ms)
            [sample_entries; sample_entries]
            [[record_json (py "https://doi.org/10.1", py "texts/a.txt");
              record_json (py "http://EXAMPLE.org/DOI", py "texts/b.txt")];
             [record_json (py "https://doi.org/10.1", py "texts/a.txt");
              record_json (py "http://EXAMPLE.org/DOI", py "texts/b.txt")]])
    as Hall.
  { repeat constructor; vm_compute; reflexivity. }
  split; [exact Hne|]. split; [exact Hall|].
  exact (search_combined_lists lower _ _ (py "doi") false false Hne Hall).
Defined.

(** X21. Files that hold lists can be combined in stages: combining two
    groups of files and then the two results gives what combining all the
    files at once gives. *)
Theorem combine_lists_in_stages (la lb : list (list json)) :
  la ≠ [] → lb ≠ [] →
  (va ← combine_json_files (Some ∘ JList <$> la);
   vb ← combine_json_files (Some ∘ JList <$> lb);
   combine_json_files [Some va; Some vb])
  = combine_json_files (Some ∘ JList <$> (la ++ lb)).
Proof.
  intros Ha Hb. rewrite !combine_lists_Return by (done || by destruct la).
  simpl. etrans; [by apply (combine_lists_Return [concat la; concat lb])|].
  simpl. by rewrite concat_app, app_nil_r.
Qed.

Lemma combine_lists_in_stages_witness :
  sample_lists ≠ [] ∧ [[JBool true]] ≠ []
  ∧ (va ← combine_json_files (Some ∘ JList <$> sample_lists);
     vb ← combine_json_files (Some ∘ JList <$> [[JBool true]]);
     combine_json_files [Some va; Some vb])
    = combine_json_files (Some ∘ JList <$> (sample_lists ++ [[JBool true]])).
Proof.
  assert (sample_lists ≠ []) as Ha by done.
  assert ([[JBool true]] ≠ []) as Hb by done.
  split; [exact Ha|]. split; [exact Hb|].
  exact (combine_lists_in_stages sample_lists [[JBool true]] Ha Hb).
Defined.

(** X22. Files that hold dictionaries can be combined in stages too: the
    combination of the combinations of two groups is the combination of all
    the files, with the same keys in the same order and the same values. *)
Theorem combine_dicts_in_stages (da db : list (list (str * json))) :
  da ≠ [] → db ≠ [] →
  Forall (λ d, NoDup d.*1) da → Forall (λ d, NoDup d.*1) db →
  (va ← combine_json_files (Some ∘ JDict <$> da);
   vb ← combine_json_files (Some ∘ JDict <$> db);
   combine_json_files [Some va; Some vb])
  = combine_json_files (Some ∘ JDict <$> (da ++ db)).
Proof.
  intros Ha Hb Hda Hdb. rewrite !combine_dicts_Return by (done || by destruct da).
  simpl.
  etrans; [by apply (combine_dicts_Return
                       [foldl dict_update [] da; foldl dict_update [] db])|].
  simpl. f_equal. f_equal. rewrite foldl_app.
  rewrite (dict_update_fresh [] (foldl dict_update [] da))
    by apply foldl_dict_update_NoDup, NoDup_nil_2.
  generalize (foldl dict_update [] da) as combined. clear Ha Hda.
  induction db as [|d db IH] using rev_ind; [done|]. intros combined.
  apply Forall_app in Hdb as [Hdb [Hd _]%Forall_cons].
  rewrite !foldl_dict_update_snoc.
  destruct db as [|d0 db].
  - simpl. by rewrite (dict_update_fresh [] d).
  - rewrite dict_update_update, IH; [done..|].
    by apply foldl_dict_update_NoDup, NoDup_nil_2.
Qed.

Lemma combine_dicts_in_stages_witness :
  sample_dicts ≠ [] ∧ [[(py "a", JNull)]] ≠ []
  ∧ Forall (λ d, NoDup d.*1) sample_dicts
  ∧ Forall (λ d, NoDup d.*1) [[(py "a", JNull)]]
  ∧ (va ← combine_json_files (Some ∘ JDict <$> sample_dicts);
     vb ← combine_json_files (Some ∘ JDict <$> [[(py "a", JNull)]]);
     combine_json_files [Some va; Some vb])
    = combine_json_files (Some ∘ JDict <$> (sample_dicts ++ [[(py "a", JNull)]])).
Proof.
  assert (sample_dicts ≠ []) as Ha by done.
  assert ([[(py "a", JNull)]] ≠ []) as Hb by done.
  assert (Forall (λ d, NoDup d.*1) sample_dicts) as Hda
    by (repeat constructor; by_decide).
  assert (Forall (λ d, NoDup d.*1) [[(py "a", JNull)]]) as Hdb
    by (repeat constructor; by_decide).
  split; [exact Ha|]. split; [exact Hb|]. split; [exact Hda|].
  split; [exact Hdb|].
  exact (combine_dicts_in_stages sample_dicts [[(py "a", JNull)]] Ha Hb Hda Hdb).
Defined.

(** Files of different kinds cannot be combined in stages: the first stage
    turns a group of mixed files into a list, which the second stage
    concatenates. *)
Example combine_mixed_in_stages :
  (va ← combine_json_files [Some (JList [JNull]); Some (JDict [])];
   vb ← combine_json_files [Some (JList [])];
   combine_json_files [Some va; Some vb])
  = Return (JList [JList [JNull]; JDict []])
  ∧ combine_json_files [Some (JList [JNull]); Some (JDict []); Some (JList [])]
    = Return (JList [JList [JNull]; JDict []; JList []]).
Proof. split; vm_compute; reflexivity. Qed.

(** ** The scan is local *)

Lemma rep_cut {A} p c lo hi s t (k k' : str → option A) :
  p c = false → (∀ u, k (u ++ c :: t) = k' u) →
  rep p lo hi (s ++ c :: t) k = rep p lo hi s k'.
Proof.
  intros Hc Hk. revert lo hi. induction s as [|a s IH]; intros lo hi; simpl.
  - rewrite Hc. simpl. destruct lo; [apply (Hk [])|done].
  - pose proof (Hk (a :: s)) as Hk'. simpl in Hk'. by rewrite IH, Hk'.
Qed.

Lemma bt_cut {A} r c t s (k k' : str → option A) :
  rejects c r = true → (∀ u, k (u ++ c :: t) = k' u) →
  bt r (s ++ c :: t) k = bt r s k'.
Proof.
  revert s k k'.
  induction r as [|p|r1 IH1 r2 IH2|r1 IH1 r2 IH2|r IH|p lo hi];
    intros s k k' Hr Hk; simpl in *.
  - apply Hk.
  - apply negb_true_iff in Hr. destruct s as [|a s]; simpl.
    + by rewrite Hr.
    + by rewrite Hk.
  - apply andb_true_iff in Hr as [Hr1 Hr2]. apply IH1; [done|].
    intros u. by apply IH2.
  - apply andb_true_iff in Hr as [Hr1 Hr2].
    by rewrite (IH1 s k k'), (IH2 s k k').
  - by rewrite (IH s k k'), Hk.
  - apply negb_true_iff in Hr. by apply rep_cut.
Qed.

Lemma rep_fmap {A B} (g : A → B) p lo hi s (k : str → option A) k' :
  (∀ u, k' u = g <$> k u) →
  rep p lo hi s k' = g <$> rep p lo hi s k.
Proof.
  intros Hk. revert lo hi. induction s as [|a s IH]; intros lo hi; simpl.
  - destruct lo; [apply Hk|done].
  - rewrite IH, Hk. destruct (p a && may_repeat hi); [|by destruct lo].
    destruct (rep p (pred lo) (pred <$> hi) s k); [done|]. by destruct lo.
Qed.

Lemma bt_fmap {A B} (g : A → B) r s (k : str → option A) k' :
  (∀ u, k' u = g <$> k u) →
  bt r s k' = g <$> bt r s k.
Proof.
  revert s k k'.
  induction r as [|p|r1 IH1 r2 IH2|r1 IH1 r2 IH2|r IH|p lo hi];
    intros s k k' Hk; simpl.
  - apply Hk.
  - destruct s as [|a s]; [done|]. destruct (p a); [apply Hk|done].
  - apply IH1. intros u. by apply IH2.
  - rewrite (IH1 s k k'), (IH2 s k k') by done. by destruct (bt r1 s k).
  - rewrite (IH s k k'), Hk by done. by destruct (bt r s k).
  - by apply rep_fmap.
Qed.

Lemma match_at_cut r c s t :
  rejects c r = true → match_at r (s ++ c :: t) = match_at r s.
Proof.
  intros Hr. unfold match_at.
  rewrite (bt_cut r c t s (@Some str)
             (λ u, (λ v : str, v ++ c :: t : str) <$> @Some str u)) by done.
  rewrite (bt_fmap (λ v : str, v ++ c :: t : str) r s (@Some str)) by done.
  destruct (bt r s Some) as [u|] eqn:Hbt; [|done]. simpl. f_equal.
  apply bt_sound in Hbt as (w & u' & -> & _ & [= ->]).
  rewrite !length_app. simpl.
  replace (length w + length u + S (length t) - (length u + S (length t)))
    with (length w) by lia.
  replace (length w + length u - length u) with (length w) by lia.
  by rewrite <- !app_assoc, !take_app_length.
Qed.

Lemma match_at_nil r : match_at r [] = None ∨ match_at r [] = Some [].
Proof. unfold match_at. destruct (bt r [] Some); [by right | by left]. Qed.

Lemma scan_cut r c s t n :
  rejects c r = true → n ≤ length s →
  scan r (s ++ c :: t) n = scan r s n ++ scan r t 0.
Proof.
  intros Hr. revert n. induction s as [|a s IH]; intros n Hn.
  - destruct n; [|simpl in Hn; lia].
    pose proof (match_at_cut r c [] t Hr) as Hcut. simpl in *. rewrite Hcut.
    by destruct (match_at_nil r) as [-> | ->].
  - destruct n as [|n].
    + pose proof (match_at_cut r c (a :: s) t Hr) as Hcut. simpl in *.
      rewrite Hcut.
      destruct (match_at r (a :: s)) as [[|b w]|] eqn:Hm; try (apply IH; lia).
      apply match_at_sound in Hm as [_ [u Heq]]. injection Heq as _ Heq.
      rewrite IH; [done|]. rewrite Heq, length_app. simpl. lia.
    + simpl in *. apply IH. lia.
Qed.

Lemma rejects_pattern use_lenient c :
  body_char c = false → rejects c (pattern_of use_lenient) = true.
Proof.
  intros Hc.
  assert (∀ x, body_char x = true → negb (ic x c) = true) as Hic.
  { intros x Hx. destruct (ic x c) eqn:Hxc; [|done].
    apply ic_body_char in Hxc; [congruence | done]. }
  assert (negb (letter c) = true) as Hletter.
  { destruct (letter c) eqn:Hl; [|done]. apply letter_body_char in Hl.
    congruence. }
  assert (negb (domain_char c) = true) as Hdom.
  { destruct (domain_char c) eqn:Hl; [|done].
    apply domain_char_body_char in Hl. congruence. }
  destruct use_lenient; simpl;
    rewrite ?Hic, ?Hletter, ?Hdom, ?Hc by (vm_compute; reflexivity); done.
Qed.

Lemma findall_cut use_lenient c s t :
  body_char c = false →
  findall (pattern_of use_lenient) (s ++ c :: t)
  = findall (pattern_of use_lenient) s ++ findall (pattern_of use_lenient) t.
Proof.
  intros Hc. apply scan_cut; [by apply rejects_pattern | lia].
Qed.

(** X23. A character that cannot stand in a URL (white space, a quote, an
    angle bracket) splits the text for both patterns: the matches of the
    whole text are the matches of the part before the character followed by
    the matches of the part after it. No match spans such a character, and
    what is found on one side does not depend on the other side. *)
Theorem findall_split (use_lenient : bool) (c : N) (s t : str) :
  body_char c = false →
  findall (pattern_of use_lenient) (s ++ c :: t)
  = findall (pattern_of use_lenient) s ++ findall (pattern_of use_lenient) t.
Proof. apply findall_cut. Qed.

Lemma findall_split_witness :
  body_char Ch.nl = false
  ∧ findall (pattern_of true)
      (py "see a.org/x" ++ Ch.nl :: py "and http://b.org")
    = findall (pattern_of true) (py "see a.org/x")
      ++ findall (pattern_of true) (py "and http://b.org").
Proof.
  assert (body_char Ch.nl = false) as Hc by (vm_compute; reflexivity).
  split; [exact Hc|].
  exact (findall_split true Ch.nl (py "see a.org/x") (py "and http://b.org") Hc).
Defined.

(** ** A match found again on its own *)

Lemma rep_isolate_None {A B} p lo hi s rest (k : str → option A)
    (k' : str → option B) :
  (∀ u, k (u ++ rest) = None → k' u = None) →
  rep p lo hi (s ++ rest) k = None → rep p lo hi s k' = None.
Proof.
  intros Hk. revert lo hi. induction s as [|a s IH]; intros lo hi Hrep.
  - simpl. destruct lo; [|done]. apply (Hk []). simpl.
    destruct rest as [|c rest]; simpl in Hrep; [done|].
    destruct (p c && may_repeat hi); [|done].
    by destruct (rep p 0 (pred <$> hi) rest k).
  - simpl in *. destruct (p a && may_repeat hi).
    + destruct (rep p (pred lo) (pred <$> hi) (s ++ rest) k) eqn:Hin; [done|].
      rewrite (IH _ _ Hin). destruct lo; [|done]. by apply (Hk (a :: s)).
    + destruct lo; [|done]. by apply (Hk (a :: s)).
Qed.

Lemma bt_isolate_None {A B} r s rest (k : str → option A)
    (k' : str → option B) :
  (∀ u, k (u ++ rest) = None → k' u = None) →
  bt r (s ++ rest) k = None → bt r s k' = None.
Proof.
  revert s k k'.
  induction r as [|p|r1 IH1 r2 IH2|r1 IH1 r2 IH2|r IH|p lo hi];
    intros s k k' Hk Hbt; simpl in *.
  - by apply Hk.
  - destruct s as [|a s]; [done|]. simpl in Hbt.
    destruct (p a); [by apply Hk | done].
  - apply (IH1 s (λ t, bt r2 t k)); [|done]. intros u. by apply IH2.
  - destruct (bt r1 (s ++ rest) k) eqn:H1; [done|].
    by rewrite (IH1 s k k'), (IH2 s k k').
  - destruct (bt r (s ++ rest) k) eqn:H1; [done|].
    rewrite (IH s k k') by done. by apply Hk.
  - by apply (rep_isolate_None p lo hi s rest k).
Qed.

Lemma rep_isolate_Some {A B} p lo hi s rest (k : str → option A)
    (k' : str → option B) x x' :
  (∀ u, k (u ++ rest) = None → k' u = None) →
  (∀ u, k (u ++ rest) = Some x → k' u = Some x') →
  (∀ t, k t = Some x → length rest ≤ length t) →
  rep p lo hi (s ++ rest) k = Some x → rep p lo hi s k' = Some x'.
Proof.
  intros Hnone Hsome Hlen. revert lo hi.
  induction s as [|a s IH]; intros lo hi Hrep.
  - apply rep_sound in Hrep as (w & t & Heq & _ & Hlo & _ & Hk). simpl in Heq.
    pose proof (Hlen t Hk) as Ht. rewrite Heq, length_app in Ht.
    destruct w as [|c w]; [|simpl in Ht; lia]. simpl in *. subst t.
    destruct lo; [|lia]. by apply (Hsome []).
  - simpl in *. destruct (p a && may_repeat hi).
    + destruct (rep p (pred lo) (pred <$> hi) (s ++ rest) k) as [y|] eqn:Hin.
      * injection Hrep as ->. by rewrite (IH _ _ Hin).
      * rewrite (rep_isolate_None p _ _ s rest k k' Hnone Hin).
        destruct lo; [|done]. by apply (Hsome (a :: s)).
    + destruct lo; [|done]. by apply (Hsome (a :: s)).
Qed.

Lemma bt_isolate_Some {A B} r s rest (k : str → option A)
    (k' : str → option B) x x' :
  (∀ u, k (u ++ rest) = None → k' u = None) →
  (∀ u, k (u ++ rest) = Some x → k' u = Some x') →
  (∀ t, k t = Some x → length rest ≤ length t) →
  bt r (s ++ rest) k = Some x → bt r s k' = Some x'.
Proof.
  revert s k k'.
  induction r as [|p|r1 IH1 r2 IH2|r1 IH1 r2 IH2|r IH|p lo hi];
    intros s k k' Hnone Hsome Hlen Hbt; simpl in *.
  - by apply Hsome.
  - destruct s as [|a s]; simpl in Hbt.
    + destruct rest as [|c rest]; [done|]. destruct (p c); [|done].
      apply Hlen in Hbt. simpl in Hbt. lia.
    + destruct (p a); [by apply Hsome | done].
  - apply (IH1 s (λ t, bt r2 t k)); [| | |done].
    + intros u. by apply bt_isolate_None.
    + intros u. by apply IH2.
    + intros t (w & t' & -> & _ & Hk)%bt_sound. apply Hlen in Hk.
      rewrite length_app. lia.
  - destruct (bt r1 (s ++ rest) k) as [y|] eqn:H1.
    + injection Hbt as ->. by rewrite (IH1 s k k').
    + rewrite (bt_isolate_None r1 s rest k k' Hnone H1). by apply (IH2 s k).
  - destruct (bt r (s ++ rest) k) as [y|] eqn:H1.
    + injection Hbt as ->. by rewrite (IH s k k').
    + rewrite (bt_isolate_None r s rest k k' Hnone H1). by apply Hsome.
  - by apply (rep_isolate_Some p lo hi s rest k k' x).
Qed.

(** The pattern takes [m] and no more at the start of some text. *)
Lemma match_at_isolate r m rest :
  match_at r (m ++ rest) = Some m → match_at r m = Some m.
Proof.
  unfold match_at. intros Hm.
  destruct (bt r (m ++ rest) Some) as [t|] eqn:Hbt; [|done].
  injection Hm as Hm.
  pose proof Hbt as (w & t' & Heq & _ & [= ->])%bt_sound.
  rewrite Heq, length_app, Nat.add_sub, take_app_length in Hm. subst w.
  apply app_inv_head in Heq as <-.
  rewrite (bt_isolate_Some r m rest Some Some rest [] ltac:(done)) ; simpl.
  - by rewrite Nat.sub_0_r, firstn_all.
  - intros u Hu. injection Hu as Hu.
    apply (f_equal length) in Hu. rewrite length_app in Hu.
    destruct u; [done | simpl in Hu; lia].
  - by intros t [= ->].
  - done.
Qed.

Lemma scan_all_skipped r s : scan r s (length s) = [].
Proof. by induction s. Qed.

Lemma findall_isolated r m :
  m ≠ [] → match_at r m = Some m → findall r m = [m].
Proof.
  intros Hne Hm. unfold findall. destruct m as [|a m]; [done|].
  simpl. rewrite Hm. simpl. by rewrite scan_all_skipped.
Qed.

Lemma scan_elem_match r s n m :
  m ∈ scan r s n → m ≠ [] ∧ ∃ rest, match_at r (m ++ rest) = Some m.
Proof.
  revert n. induction s as [|a s IH]; intros n; simpl.
  - by intros ?%elem_of_nil.
  - destruct n as [|n]; [|apply IH].
    destruct (match_at r (a :: s)) as [[|b w]|] eqn:Hm; try apply IH.
    intros [->|Hin]%elem_of_cons; [|by apply IH in Hin].
    split; [done|]. pose proof Hm as [_ [t Heq]]%match_at_sound.
    exists t. by rewrite <- Heq.
Qed.

Lemma findall_own_lines use_lenient (ls : list str) :
  Forall (λ m, m ≠ []
               ∧ ∃ rest, match_at (pattern_of use_lenient) (m ++ rest) = Some m)
    ls →
  findall (pattern_of use_lenient) (flat_map (λ l, l ++ [Ch.nl]) ls) = ls.
Proof.
  induction 1 as [|m ls [Hne [rest Hm]] Hls IH]; [done|]. simpl.
  rewrite <- app_assoc. simpl.
  rewrite findall_cut, IH by (vm_compute; reflexivity).
  by rewrite (findall_isolated _ m Hne (match_at_isolate _ m rest Hm)).
Qed.

Lemma keys_match_again use_lenient files :
  Forall (λ m, m ≠ []
               ∧ ∃ rest, match_at (pattern_of use_lenient) (m ++ rest) = Some m)
    (keys (build_index (findall (pattern_of use_lenient)) files)).
Proof.
  apply Forall_forall. intros u Hu.
  apply elem_of_keys_build_index in Hu as (f & c & _ & Hu).
  by apply scan_elem_match in Hu.
Qed.

Lemma findall_unique_list use_lenient files :
  findall (pattern_of use_lenient)
    (unique_list (build_index (findall (pattern_of use_lenient)) files))
  = sorted (keys (build_index (findall (pattern_of use_lenient)) files)).
Proof.
  apply findall_own_lines. rewrite sorted_Permutation. apply keys_match_again.
Qed.

(** X24. The plain output holds nothing but the URLs: extracting from the
    text the script writes, with the pattern it was written with, gives the
    lines of that text back, each line one URL, in the order of the lines. *)
Theorem plain_output_reextracted (d : directory)
    (input_dir output_file : str) (use_lenient : bool) :
  endswith (lower output_file) (py ".json") = false →
  lines (extract_urls_from_directory d input_dir output_file use_lenient).2
  = Some (findall (pattern_of use_lenient)
            (extract_urls_from_directory d input_dir output_file
               use_lenient).2).
Proof.
  intros Hplain. rewrite extract_plain by done.
  cbn [snd]. rewrite findall_unique_list. apply lines_flat_map.
  rewrite sorted_Permutation. apply keys_no_line_feed.
Qed.

Lemma plain_output_reextracted_witness :
  endswith (lower OUTPUT_FILE) (py ".json") = false
  ∧ lines (extract_urls_from_directory two_listed_files INPUT_DIR OUTPUT_FILE
             true).2
    = Some (findall (pattern_of true)
              (extract_urls_from_directory two_listed_files INPUT_DIR
                 OUTPUT_FILE true).2).
Proof.
  assert (endswith (lower OUTPUT_FILE) (py ".json") = false) as H
    by (vm_compute; reflexivity).
  split; [exact H|].
  exact (plain_output_reextracted two_listed_files INPUT_DIR OUTPUT_FILE true H).
Defined.

(** ** The output read again *)







Lemma keys_add_found file_path us occ :
  NoDup (keys occ ++ us) → keys (add_found file_path us occ) = keys occ ++ us.
Proof.
  revert occ. induction us as [|u us IH]; intros occ Hnd.
  - by rewrite app_nil_r.
  - unfold add_found in *. simpl. rewrite IH.
    + rewrite keys_setdefault_add, decide_False; [by rewrite <- app_assoc|].
      apply NoDup_app in Hnd as (_ & Hnd & _). intros Hin.
      apply (Hnd u Hin). left.
    + rewrite keys_setdefault_add, decide_False.
      * by rewrite <- app_assoc.
      * apply NoDup_app in Hnd as (_ & Hnd & _). intros Hin.
        apply (Hnd u Hin). left.
Qed.

Lemma unique_list_text use_lenient input_dir (d : directory) :
  let occ := build_index (findall (pattern_of use_lenient))
               (readable input_dir d) in
  Forall scalar (unique_list occ) ∧ Ch.cr ∉ unique_list occ.
Proof.
  intros occ. unfold unique_list.
  assert (Forall (λ u, Forall scalar u ∧ Ch.cr ∉ u) (sorted (keys occ))) as Hk.
  { rewrite sorted_Permutation. apply Forall_forall. intros u Hu. split.
    - pose proof (keys_scalar (pattern_of use_lenient) input_dir d) as Hall.
      rewrite Forall_forall in Hall. by apply Hall.
    - apply elem_of_keys_build_index in Hu as (f & c & _ & Hu).
      pose proof (findall_body_char use_lenient c) as Hall.
      rewrite Forall_forall in Hall. apply Hall in Hu.
      intros Hcr. rewrite Forall_forall in Hu. apply Hu in Hcr. done. }
  induction Hk as [|u us [Hu Hcr] _ [IH1 IH2]]; simpl.
  - split; [constructor | apply not_elem_of_nil].
  - split.
    + rewrite <- app_assoc. apply Forall_app. split; [done|].
      constructor; [by_decide | done].
    + rewrite <- app_assoc. simpl. rewrite elem_of_app, elem_of_cons.
      intros [?|[?|?]]; done.
Qed.

(** X25. The plain output is a fixed point of the extraction: when the text
    the script wrote is stored as it was written (UTF-8) in a text file that
    is alone in a directory, a run of the script on that directory with the
    same pattern writes the same text again and prints the same count. *)
Theorem plain_output_fixed_point (d : directory)
    (input_dir output_file : str) (use_lenient : bool)
    (filename again_dir : str) (bs : list Byte.byte) :
  endswith (lower output_file) (py ".json") = false →
  is_text_file filename = true →
  map Byte.to_N bs
  = utf8_encode
      (extract_urls_from_directory d input_dir output_file use_lenient).2 →
  (extract_urls_from_directory [(filename, inr bs)] again_dir output_file
     use_lenient).2
  = (extract_urls_from_directory d input_dir output_file use_lenient).2
  ∧ last (extract_urls_from_directory [(filename, inr bs)] again_dir
            output_file use_lenient).1
    = last (extract_urls_from_directory d input_dir output_file use_lenient).1.
Proof.
  intros Hplain Hname. rewrite !extract_plain by done.
  cbn [fst snd]. set (occ := build_index _ (readable input_dir d)).
  intros Hbs.
  destruct (unique_list_text use_lenient input_dir d) as [Hscalar Hcr].
  fold occ in Hscalar, Hcr.
  assert (read_text bs = unique_list occ) as Hread.
  { unfold read_text, decode. rewrite Hbs.
    rewrite <- (app_nil_r (utf8_encode _)), utf8_decode_encode by done.
    rewrite app_nil_r. by apply universal_newlines_no_cr. }
  assert (keys (build_index (findall (pattern_of use_lenient))
                  (readable again_dir [(filename, inr bs)]))
          = sorted (keys occ)) as Hkeys.
  { unfold readable. simpl. rewrite Hname. unfold build_index. simpl.
    rewrite Hread. rewrite keys_add_found.
    - apply findall_unique_list.
    - simpl. unfold occ. rewrite findall_unique_list.
      apply NoDup_sorted, NoDup_build_index. }
  split.
  - unfold unique_list. rewrite Hkeys.
    by rewrite (sorted_perm_eq _ _ (sorted_Permutation (keys occ))).
  - rewrite !last_snoc. f_equal. f_equal.
    rewrite <- (length_fmap fst). fold (keys (build_index
      (findall (pattern_of use_lenient))
      (readable again_dir [(filename, inr bs)]))).
    rewrite Hkeys, length_sorted. unfold keys. by rewrite length_fmap.
Qed.

Lemma plain_output_fixed_point_witness :
  endswith (lower OUTPUT_FILE) (py ".json") = false
  ∧ is_text_file OUTPUT_FILE = true
  ∧ map Byte.to_N two_lines_bytes
    = utf8_encode
        (extract_urls_from_directory two_listed_files INPUT_DIR OUTPUT_FILE
           false).2
  ∧ (extract_urls_from_directory [(OUTPUT_FILE, inr two_lines_bytes)]
       INPUT_DIR OUTPUT_FILE false).2
    = (extract_urls_from_directory two_listed_files INPUT_DIR OUTPUT_FILE
         false).2
  ∧ last (extract_urls_from_directory [(OUTPUT_FILE, inr two_lines_bytes)]
            INPUT_DIR OUTPUT_FILE false).1
    = last (extract_urls_from_directory two_listed_files INPUT_DIR OUTPUT_FILE
              false).1.
Proof.
  assert (endswith (lower OUTPUT_FILE) (py ".json") = false) as H1
    by (vm_compute; reflexivity).
  assert (is_text_file OUTPUT_FILE = true) as H2 by (vm_compute; reflexivity).
  assert (map Byte.to_N two_lines_bytes
          = utf8_encode
              (extract_urls_from_directory two_listed_files INPUT_DIR
                 OUTPUT_FILE false).2) as H3 by (vm_compute; reflexivity).
  split; [exact H1|]. split; [exact H2|]. split; [exact H3|].
  exact (plain_output_fixed_point two_listed_files INPUT_DIR OUTPUT_FILE false
           OUTPUT_FILE INPUT_DIR two_lines_bytes H1 H2 H3).
Defined.

(** ** The text of a PDF *)

Lemma scan_no_mark use_lenient s n :
  Ch.dot ∉ s → colon ∉ s → scan (pattern_of use_lenient) s n = [].
Proof.
  revert n. induction s as [|a s IH]; intros n Hdot Hcolon; [done|].
  pose proof Hdot as [_ Hdot']%not_elem_of_cons.
  pose proof Hcolon as [_ Hcolon']%not_elem_of_cons.
  simpl. destruct n as [|n]; [|by apply IH].
  destruct (match_at _ (a :: s)) as [m|] eqn:Hm; [|by apply IH].
  apply match_at_mark in Hm as (_ & _ & Hmark & t & Heq).
  destruct Hmark as [Hin|Hin]; [destruct Hdot | destruct Hcolon];
    rewrite Heq; apply elem_of_app; by left.
Qed.

Lemma uint_str_digits d : Forall (λ c, is_digit c = true) (uint_str d).
Proof. induction d; by constructor. Qed.

Lemma page_header_no_mark i :
  (Ch.dot ∉ py "PAGE " ++ decimal i) ∧ (colon ∉ py "PAGE " ++ decimal i).
Proof.
  pose proof (uint_str_digits (Nat.to_uint i)) as Hd. fold (decimal i) in Hd.
  rewrite Forall_forall in Hd.
  split; intros [Hin|Hin]%elem_of_app;
    solve [ revert Hin; by_decide
          | apply Hd in Hin; vm_compute in Hin; done ].
Qed.

Lemma findall_page use_lenient i (t rest : str) :
  findall (pattern_of use_lenient)
    (concat [Ch.nl :: RULE ++ [Ch.nl]; py "PAGE " ++ decimal i ++ [Ch.nl];
             RULE ++ [Ch.nl; Ch.nl]; t; [Ch.nl]] ++ rest)
  = findall (pattern_of use_lenient) t ++ findall (pattern_of use_lenient) rest.
Proof.
  assert (body_char Ch.nl = false) as Hnl by (vm_compute; reflexivity).
  transitivity
    (findall (pattern_of use_lenient)
       ([] ++ Ch.nl :: RULE ++ Ch.nl :: (py "PAGE " ++ decimal i)
        ++ Ch.nl :: RULE ++ Ch.nl :: [] ++ Ch.nl :: t ++ Ch.nl :: rest)).
  { apply (f_equal (findall (pattern_of use_lenient))). cbn [concat].
    rewrite <- !app_assoc. cbn [app]. rewrite <- !app_assoc. reflexivity. }
  rewrite !findall_cut by done.
  destruct (page_header_no_mark i) as [Hdot Hcolon].
  unfold findall at 1 2 3 4 5.
  rewrite (scan_no_mark _ []), (scan_no_mark _ RULE),
    (scan_no_mark _ (py "PAGE " ++ decimal i)); done || by_decide.
Qed.

Lemma findall_page_pieces use_lenient i pages :
  findall (pattern_of use_lenient) (concat (page_pieces i pages))
  = concat ((λ text, findall (pattern_of use_lenient) (default [] text))
              <$> pages).
Proof.
  revert i. induction pages as [|text pages IH]; intros i; [done|].
  rewrite fmap_cons. cbn [concat page_pieces]. rewrite <- (IH (S i)).
  destruct text as [[|a t]|]; try done.
  rewrite concat_app. apply findall_page.
Qed.

(** X26. The URLs found in the text extracted from a PDF are the URLs found
    in the texts of its pages, in the order of the pages: the page headings
    add no URL, no URL runs from one page into the next, and a page without
    text adds nothing. *)
Theorem extract_full_text_urls (use_lenient : bool) (pages : list (option str)) :
  findall (pattern_of use_lenient) (extract_full_text pages)
  = concat ((λ text, findall (pattern_of use_lenient) (default [] text))
              <$> pages).
Proof. apply findall_page_pieces. Qed.

(** ** Line ends *)

Lemma universal_newlines_first_cr s rest :
  Ch.cr ∉ s →
  universal_newlines (s ++ Ch.cr :: rest)
  = s ++ Ch.nl :: universal_newlines
                    (match rest with
                     | c :: rest' => if (c =? Ch.nl)%N then rest' else rest
                     | [] => []
                     end).
Proof.
  induction s as [|c s IH]; intros Hs.
  - simpl. f_equal. destruct rest as [|c rest]; [done|].
    by destruct (c =? Ch.nl)%N.
  - apply not_elem_of_cons in Hs as [Hc Hs]. cbn [app universal_newlines].
    fold (universal_newlines (s ++ Ch.cr :: rest)).
    rewrite (proj2 (N.eqb_neq c Ch.cr)) by done. by rewrite IH.
Qed.

Lemma findall_universal_newlines use_lenient t :
  findall (pattern_of use_lenient) (universal_newlines t)
  = findall (pattern_of use_lenient) t.
Proof.
  assert (∀ n t, length t ≤ n →
                 findall (pattern_of use_lenient) (universal_newlines t)
                 = findall (pattern_of use_lenient) t) as Hn.
  { clear t. induction n as [|n IH]; intros t Hlen.
    - destruct t; [done | simpl in Hlen; lia].
    - destruct (decide (Ch.cr ∈ t)) as [Hin|Hout];
        [|by rewrite universal_newlines_no_cr].
      apply list_elem_of_split_l in Hin as (s & rest & -> & Hs).
      rewrite length_app in Hlen. simpl in Hlen.
      rewrite universal_newlines_first_cr by done.
      rewrite !findall_cut by (vm_compute; reflexivity). f_equal.
      destruct rest as [|c rest]; [done|].
      destruct (N.eqb_spec c Ch.nl) as [->|Hc].
      + rewrite IH by (simpl in Hlen; lia). symmetry.
        apply scan_delimiter. vm_compute. reflexivity.
      + apply IH. lia. }
  by apply (Hn (length t)).
Qed.

(** X27. Line ends do not matter: the translation of line ends when a file
    is read (a carriage return, alone or before a line feed, becomes one line
    feed) changes nothing in the URLs that are found. *)
Theorem line_ends_do_not_matter (use_lenient : bool) (t : str) :
  findall (pattern_of use_lenient) (universal_newlines t)
  = findall (pattern_of use_lenient) t.
Proof. apply findall_universal_newlines. Qed.

(** ** From a PDF to the index *)

Lemma is_text_file_output_name stem : is_text_file (output_name stem) = true.
Proof.
  unfold is_text_file, output_name, endswith, lower.
  rewrite flat_map_app. apply bool_decide_eq_true.
  by exists (flat_map lower1 stem).
Qed.

Lemma decimal_scalar i : Forall scalar (decimal i).
Proof.
  eapply Forall_impl; [apply uint_str_digits|]. intros c Hc. unfold is_digit in Hc.
  unfold scalar. bool_to_prop. lia.
Qed.

Lemma page_pieces_scalar i pages :
  Forall (λ text, Forall scalar (default [] text)) pages →
  Forall scalar (concat (page_pieces i pages)).
Proof.
  intros Hpages. revert i.
  induction Hpages as [|text pages Htext _ IH]; intros i; [constructor|].
  cbn [page_pieces]. rewrite concat_app. apply Forall_app. split; [|apply IH].
  destruct text as [[|a t]|]; [constructor| |constructor]. cbn [concat].
  assert (Forall scalar RULE) as HR by by_decide.
  rewrite !Forall_app.
  split_and!;
    [ constructor; [by_decide|]; apply Forall_app; split; [done | by_decide]
    | by_decide | apply decimal_scalar | by_decide | done | by_decide
    | exact Htext | by_decide | constructor ].
Qed.

Lemma elem_of_concat {A} (x : A) (ls : list (list A)) :
  x ∈ concat ls ↔ ∃ l, x ∈ l ∧ l ∈ ls.
Proof.
  induction ls as [|l ls IH]; simpl.
  - split; [by intros ?%elem_of_nil | by intros (l & _ & ?%elem_of_nil)].
  - rewrite elem_of_app, IH. split.
    + intros [Hx|(l' & Hx & Hl')]; [exists l | exists l']; split; try done;
        by constructor.
    + intros (l' & Hx & [-> | Hl']%elem_of_cons); [by left|].
      right. by exists l'.
Qed.

Lemma keys_add_found_distinct file_path us occ :
  keys (add_found file_path us occ)
  = foldl (λ seen u, if decide (u ∈ seen) then seen else seen ++ [u])
      (keys occ) us.
Proof.
  revert occ. induction us as [|u us IH]; intros occ; [done|].
  unfold add_found in *. simpl. by rewrite IH, keys_setdefault_add.
Qed.

(** X28. From a PDF to the index: when the text extracted from a PDF is
    written as UTF-8 to the text file named after the stem of the PDF, the
    extraction script reads that file without a message, and the index it
    builds has for keys the distinct URLs of the pages of the PDF, in the
    order in which the pages first show them, each with the path of that
    text file and nothing else in its set; no other URL is a key. *)
Theorem pdf_text_indexed (use_lenient : bool) (pages : list (option str))
    (stem input_dir : str) (bs : list Byte.byte) :
  Forall (λ text, Forall scalar (default [] text)) pages →
  map Byte.to_N bs = utf8_encode (extract_full_text pages) →
  (scan_directory (pattern_of use_lenient) input_dir
     [(output_name stem, inr bs)]).2 = []
  ∧ keys (scan_directory (pattern_of use_lenient) input_dir
            [(output_name stem, inr bs)]).1
    = distinct (page_urls use_lenient pages)
  ∧ (∀ u, u ∈ keys (scan_directory (pattern_of use_lenient) input_dir
                      [(output_name stem, inr bs)]).1
          ↔ ∃ text, Some text ∈ pages
                    ∧ u ∈ findall (pattern_of use_lenient) text)
  ∧ ∀ u, get (scan_directory (pattern_of use_lenient) input_dir
                [(output_name stem, inr bs)]).1 u
         = if decide (u ∈ page_urls use_lenient pages)
           then Some {[path_join input_dir (output_name stem)]}
           else None.
Proof.
  intros Hpages Hbs.
  assert (scan_directory (pattern_of use_lenient) input_dir
            [(output_name stem, inr bs)]
          = (add_found (path_join input_dir (output_name stem))
               (page_urls use_lenient pages) [], [])) as ->.
  { rewrite scan_directory_readable.
    unfold readable, unreadable. simpl. rewrite is_text_file_output_name.
    unfold build_index. simpl. f_equal. f_equal.
    unfold read_text, decode. rewrite Hbs.
    rewrite <- (app_nil_r (utf8_encode _)), utf8_decode_encode
      by (by apply page_pieces_scalar).
    rewrite app_nil_r, findall_universal_newlines. apply findall_page_pieces. }
  cbn [fst snd]. split; [done|]. split; [apply keys_add_found_distinct|].
  assert (∀ u, get (add_found (path_join input_dir (output_name stem))
                      (page_urls use_lenient pages) []) u
               = if decide (u ∈ page_urls use_lenient pages)
                 then Some {[path_join input_dir (output_name stem)]}
                 else None) as Hget.
  { intros u. rewrite get_add_found. destruct (decide _); [|done].
    simpl. by rewrite (left_id_L ∅ (∪)). }
  split; [|exact Hget].
  intros u.
  assert (u ∈ keys (add_found (path_join input_dir (output_name stem))
                      (page_urls use_lenient pages) [])
          ↔ u ∈ page_urls use_lenient pages) as ->.
  { pose proof (get_None (add_found (path_join input_dir (output_name stem))
                            (page_urls use_lenient pages) []) u) as Hnone.
    rewrite Hget in Hnone. destruct (decide (u ∈ page_urls _ _)) as [Hin|Hout].
    - split; [done|]. intros _.
      destruct (decide (u ∈ keys (add_found (path_join input_dir (output_name stem))
                                    (page_urls use_lenient pages) [])));
        [done|]. by apply Hnone in n.
    - split; [|done]. intros Hin. by apply Hnone in Hin. }
  unfold page_urls. rewrite elem_of_concat. split.
  - intros (us & Hu & (text & -> & Hin)%list_elem_of_fmap).
    destruct text as [text|]; [by exists text|]. by apply elem_of_nil in Hu.
  - intros (text & Hin & Hu). exists (findall (pattern_of use_lenient) text).
    split; [done|]. apply list_elem_of_fmap. by exists (Some text).
Qed.

Lemma pdf_text_indexed_witness :
  Forall (λ text, Forall scalar (default [] text)) three_pages
  ∧ map Byte.to_N three_pages_bytes = utf8_encode (extract_full_text three_pages)
  ∧ (scan_directory (pattern_of false) INPUT_DIR
       [(output_name (py "paper"), inr three_pages_bytes)]).2 = []
  ∧ keys (scan_directory (pattern_of false) INPUT_DIR
            [(output_name (py "paper"), inr three_pages_bytes)]).1
    = distinct (page_urls false three_pages)
  ∧ (∀ u, u ∈ keys (scan_directory (pattern_of false) INPUT_DIR
                      [(output_name (py "paper"), inr three_pages_bytes)]).1
          ↔ ∃ text, Some text ∈ three_pages
                    ∧ u ∈ findall (pattern_of false) text)
  ∧ ∀ u, get (scan_directory (pattern_of false) INPUT_DIR
                [(output_name (py "paper"), inr three_pages_bytes)]).1 u
         = if decide (u ∈ page_urls false three_pages)
           then Some {[path_join INPUT_DIR (output_name (py "paper"))]}
           else None.
Proof.
  assert (Forall (λ text, Forall scalar (default [] text)) three_pages) as H1
    by (repeat constructor; by_decide).
  assert (map Byte.to_N three_pages_bytes
          = utf8_encode (extract_full_text three_pages)) as H2
    by (vm_compute; reflexivity).
  split; [exact H1|]. split; [exact H2|].
  exact (pdf_text_indexed false three_pages (py "paper") INPUT_DIR
           three_pages_bytes H1 H2).
Defined.

(** The text extracted from [three_pages]: the second page leaves no trace
    and the third keeps its number. *)
Example extract_full_text_three_pages :
  extract_full_text three_pages
  = Ch.nl :: RULE ++ Ch.nl :: py "PAGE 1" ++ Ch.nl :: RULE ++ Ch.nl :: Ch.nl
    :: py "see http://a.org/x" ++ Ch.nl
    :: Ch.nl :: RULE ++ Ch.nl :: py "PAGE 3" ++ Ch.nl :: RULE ++ Ch.nl :: Ch.nl
    :: py "and www.b.org." ++ [Ch.nl]
  ∧ findall (pattern_of false) (extract_full_text three_pages)
    = [py "http://a.org/x"; py "www.b.org."].
Proof. split; vm_compute; reflexivity. Qed.
